(** * ISAC C-RAN array-processing core: DOA estimation and beamforming

    A shallow embedding of the Go packages [beamforming] (the weights
    calculator of src/unnamed/part_019 and
    src/internal/algorithm/beamforming/optimizer.go) and [doa] (the two
    files of src/unnamed/part_020: the ESPRIT estimator and the
    MUSIC/ESPRIT [Estimator]), and the properties of the specification
    that are decided on them.

    Numeric model.  A Go [float64] is modelled by a real number and a
    [complex128] by a pair of reals, with exact arithmetic: rounding, NaN
    and the infinities are outside the model (the one infinity the code
    creates on purpose, [math.Inf(1)] in [ComputeRMSE], is modelled by an
    explicit constructor).  Where Go divides by zero the model follows the
    convention of the real-number library ([x / 0 = 0]); no property of
    the code stated below depends on the value of such a quotient: where
    one can arise, the statement either excludes it by a hypothesis (a
    non-zero pivot, norm, response or count) or speaks of lengths and
    outcomes only.  A Go [int] is modelled by
    [Z]; the lengths met here are far below 2^63, so no wrap-around occurs.

    Control model.  A run-time panic (index out of range, [make] with a
    negative length, a gonum constructor called with a non-positive
    dimension) is the outcome [Panic]; a returned [error] is the right
    injection of a sum.  The one loop without a bound, the redraw loop of
    [randNorm], runs on fuel and yields [OutOfFuel] when it is exhausted. *)

From Stdlib Require Import String.
From Stdlib Require Import Reals Lra Lia ZArith List Bool Psatz.
From Stdlib Require Import Permutation Sorted.
Import ListNotations.

Set Implicit Arguments.

(** ** Outcomes of Go calls *)

Inductive go (A : Type) : Type :=
| Ret (a : A)
| Panic
| OutOfFuel.

Arguments Ret {A} a.
Arguments Panic {A}.
Arguments OutOfFuel {A}.

Definition bind {A B : Type} (c : go A) (k : A -> go B) : go B :=
  match c with
  | Ret a => k a
  | Panic => Panic
  | OutOfFuel => OutOfFuel
  end.

Declare Scope go_scope.
Delimit Scope go_scope with go.
Notation "x <- c ;; k" := (bind c (fun x => k))
  (at level 61, c at next level, right associativity) : go_scope.
Notation "' pat <- c ;; k" := (bind c (fun x => match x with pat => k end))
  (at level 61, pat pattern, c at next level, right associativity) : go_scope.
Open Scope go_scope.

(** [xs[i]]: a checked index. *)
Definition elemAt {A : Type} (xs : list A) (i : nat) : go A :=
  match nth_error xs i with
  | Some a => Ret a
  | None => Panic
  end.

(** [xs[i]] for a Go [int] index. *)
Definition elemAtZ {A : Type} (xs : list A) (i : Z) : go A :=
  if (i <? 0)%Z then Panic else elemAt xs (Z.to_nat i).

(** [make([]T, n)]: the length, or a panic when [n] is negative. *)
Definition make_len (n : Z) : go nat :=
  if (n <? 0)%Z then Panic else Ret (Z.to_nat n).

(** [for i := 0; i < n; i++ { out[i] = f i }] with a body that may panic. *)
Fixpoint mapM {A B : Type} (f : A -> go B) (xs : list A) : go (list B) :=
  match xs with
  | [] => Ret []
  | x :: xs' => y <- f x ;; ys <- mapM f xs' ;; Ret (y :: ys)
  end.

(** [for _, x := range xs { acc = f acc x }] with a body that may panic. *)
Fixpoint foldM {A B : Type} (f : B -> A -> go B) (xs : list A) (acc : B) : go B :=
  match xs with
  | [] => Ret acc
  | x :: xs' => acc' <- f acc x ;; foldM f xs' acc'
  end.

(** The index range [0, n) of a counted loop. *)
Definition upto (n : nat) : list nat := seq 0 n.

(** ** float64 and complex128 *)

Open Scope R_scope.

(** [float64(n)] for a Go [int]. *)
Definition float64 (n : Z) : R := IZR n.

(** [float64(i)] for a loop index. *)
Definition float64n (i : nat) : R := INR i.

(** [int(x)]: conversion to integer truncates toward zero. *)
Definition int_of_float (x : R) : Z :=
  if Rle_dec 0 x then Int_part x else (- Int_part (- x))%Z.

Record complex128 : Type := complex { real : R; imag : R }.

Definition C0 : complex128 := complex 0 0.
Definition C1 : complex128 := complex 1 0.

Definition Cadd (x y : complex128) : complex128 :=
  complex (real x + real y) (imag x + imag y).

Definition Csub (x y : complex128) : complex128 :=
  complex (real x - real y) (imag x - imag y).

Definition Cmul (x y : complex128) : complex128 :=
  complex (real x * real y - imag x * imag y)
          (real x * imag y + imag x * real y).

Definition Cdiv (x y : complex128) : complex128 :=
  let d := real y * real y + imag y * imag y in
  complex ((real x * real y + imag x * imag y) / d)
          ((imag x * real y - real x * imag y) / d).

(** [cmplx.Conj], [cmplx.Abs], [cmplx.Exp], [cmplx.Phase]. *)
Definition Conj (x : complex128) : complex128 := complex (real x) (- imag x).

Definition Abs (x : complex128) : R := sqrt (real x * real x + imag x * imag x).

Definition Exp (x : complex128) : complex128 :=
  complex (exp (real x) * cos (imag x)) (exp (real x) * sin (imag x)).

(** [math.Atan2(y, x)]. *)
Definition Atan2 (y x : R) : R :=
  if Rlt_dec 0 x then atan (y / x)
  else if Rlt_dec x 0 then
         if Rle_dec 0 y then atan (y / x) + PI else atan (y / x) - PI
       else if Rlt_dec 0 y then PI / 2
            else if Rlt_dec y 0 then - (PI / 2) else 0.

Definition Phase (x : complex128) : R := Atan2 (imag x) (real x).

Declare Scope cx_scope.
Delimit Scope cx_scope with cx.
Infix "+" := Cadd : cx_scope.
Infix "-" := Csub : cx_scope.
Infix "*" := Cmul : cx_scope.
Infix "/" := Cdiv : cx_scope.

(** [var sum complex128; for ... { sum += f x }]. *)
Definition Csum {A : Type} (f : A -> complex128) (xs : list A) : complex128 :=
  fold_left (fun acc x => Cadd acc (f x)) xs C0.

(** [var sum float64; for ... { sum += f x }]. *)
Definition Rsum {A : Type} (f : A -> R) (xs : list A) : R :=
  fold_left (fun acc x => acc + f x) xs 0.

(** Go's comparison operators on float64, as booleans. *)
Definition Rltb (x y : R) : bool := if Rlt_dec x y then true else false.
Definition Rgtb (x y : R) : bool := if Rgt_dec x y then true else false.
Definition Rgeb (x y : R) : bool := if Rge_dec x y then true else false.
Definition Reqb (x y : R) : bool := if Req_dec_T x y then true else false.

(** [math.Round]: the nearest integer, halves rounded away from zero. *)
Definition Round (x : R) : R :=
  if Rle_dec 0 x then IZR (Int_part (x + / 2))
  else - IZR (Int_part (- x + / 2)).

(** [math.Mod(x, y)]: the remainder [x - y * trunc(x / y)], which has the
    sign of [x]. *)
Definition Mod (x y : R) : R := x - y * IZR (int_of_float (x / y)).

(** * Package beamforming *)

Module beamforming.

(** ** The weights calculator (src/unnamed/part_019) *)

Record WeightsCalculator : Type := NewWeightsCalculator {
  elementCount : Z;
  elementSpacing : R
}.

(** [normalize] rewrites the slice in place; the model returns the slice
    the caller holds afterwards. *)
Definition normalize (weights : list complex128) : list complex128 :=
  let sum := Rsum (fun weight => Abs weight * Abs weight) weights in
  let norm := sqrt sum in
  map (fun weight => Cdiv weight (complex norm 0)) weights.

Definition ComputeConjugateBeamforming (w : WeightsCalculator) (targetAngle : R)
  : go (list complex128) :=
  len <- make_len (elementCount w) ;;
  let weights :=
    map (fun n =>
           let phase := 2 * PI * float64n n * elementSpacing w * sin targetAngle in
           Exp (complex 0 (- phase)))
        (upto len) in
  Ret (normalize weights).

Definition ComputeZOFBeamforming (w : WeightsCalculator) (targetAngles : list R)
  : go (list complex128) :=
  len <- make_len (elementCount w) ;;
  let weights :=
    map (fun n =>
           let phase :=
             Csum (fun angle =>
                     Exp (complex 0 (2 * PI * float64n n * elementSpacing w * sin angle)))
                  targetAngles in
           Conj phase)
        (upto len) in
  Ret (normalize weights).

(** Row [i] of the augmented matrix [matrix | I]: the copy reads
    [matrix[i][j]] for [j < n] and panics on a shorter row. *)
Definition augmentedRow (matrix : list (list complex128)) (n i : nat)
  : go (list complex128) :=
  row <- elemAt matrix i ;;
  left <- mapM (fun j => elemAt row j) (upto n) ;;
  Ret (left ++ map (fun j => if Nat.eqb j i then C1 else C0) (upto n)).

(** One pass of the outer loop of [matrixInverse]: row [i] is divided by
    its pivot [aug[i][i]] (no test for a zero pivot, no row exchange) and
    then removed from every other row. *)
Definition eliminate (aug : list (list complex128)) (i : nat)
  : list (list complex128) :=
  let n := length aug in
  let pivot := nth i (nth i aug []) C0 in
  let rowi := map (fun x => Cdiv x pivot) (nth i aug []) in
  map (fun k =>
         if Nat.eqb k i then rowi
         else
           let rowk := nth k aug [] in
           let factor := nth i rowk C0 in
           map (fun j => Csub (nth j rowk C0) (Cmul factor (nth j rowi C0)))
               (upto (2 * n)))
      (upto n).

Definition matrixInverse (matrix : list (list complex128))
  : go (list (list complex128)) :=
  let n := length matrix in
  aug <- mapM (augmentedRow matrix n) (upto n) ;;
  let aug' := fold_left eliminate (upto n) aug in
  Ret (map (fun i => map (fun j => nth (n + j) (nth i aug' []) C0) (upto n))
           (upto n)).

Definition ComputeMVDRWeights (w : WeightsCalculator)
  (covMatrix : list (list complex128)) (steeringVector : list complex128)
  : go (list complex128) :=
  let n := length steeringVector in
  invCov <- matrixInverse covMatrix ;;
  weights <-
    mapM (fun i =>
            foldM (fun sum j =>
                     row <- elemAt invCov i ;;
                     a <- elemAt row j ;;
                     s <- elemAt steeringVector j ;;
                     Ret (Cadd sum (Cmul a s)))
                  (upto n) C0)
         (upto n) ;;
  let denom :=
    Csum (fun i => Cmul (Conj (nth i steeringVector C0)) (nth i weights C0))
         (upto n) in
  Ret (map (fun wi => Cdiv wi denom) weights).

Definition ComputePhaseShifts (w : WeightsCalculator) (weights : list complex128)
  : list R :=
  map (fun weight =>
         let phase := Phase weight in
         if Rltb phase 0 then phase + 2 * PI else phase)
      weights.

Definition ApplyPhaseQuantization (w : WeightsCalculator) (phases : list R)
  (bits : Z) : list R :=
  let levels := Rpower 2 (float64 bits) in
  let step := 2 * PI / levels in
  map (fun phase =>
         let level := Round (phase / step) in
         Mod (level * step) (2 * PI))
      phases.

(** ** The adaptive optimizer (optimizer.go) *)

(** The field [elementCount] is written [o_elementCount]: the name is
    taken by the weights calculator in this module. *)
Record Optimizer : Type := NewOptimizer {
  o_elementCount : Z;
  maxIterations : Z;
  convergenceThreshold : R
}.

(** model.BeamformingParams and model.BeamformingResult. *)
Record BeamformingParams : Type := {
  ElementCount : Z;
  TargetDirection : R;
  InterferenceAngles : list R;
  SNRThreshold : R;
  MaxIterations : Z
}.

Record BeamformingResult : Type := {
  Weights : list (list R);
  BeamPattern : list R;
  MainLobeDirection : R;
  MainLobeWidth : R;
  SLL : R;
  Iterations : Z;
  Converged : bool
}.

Definition normalizeWeights (weights : list complex128) : list complex128 :=
  let sum := Rsum (fun w => Abs w * Abs w) weights in
  let norm := sqrt sum in
  map (fun w => Cdiv w (complex norm 0)) weights.

(** The target direction is not a parameter of [initializeWeights]: the
    phase of element [i] is the constant [-2*pi*i*0.5]. *)
Definition initializeWeights (o : Optimizer) (elementCount : Z)
  : go (list complex128) :=
  len <- make_len elementCount ;;
  let weights :=
    map (fun i =>
           let phase := -2 * PI * float64n i * 0.5 in
           Exp (complex 0 phase))
        (upto len) in
  Ret (normalizeWeights weights).

(** The body of [computeSteeringVector] once the slice is allocated. *)
Definition steering (len : nat) (angle : R) : list complex128 :=
  let d := 0.5 in
  map (fun n =>
         let phase := 2 * PI * float64n n * d * sin angle in
         Exp (complex 0 phase))
      (upto len).

Definition computeSteeringVector (o : Optimizer) (elementCount : Z) (angle : R)
  : go (list complex128) :=
  len <- make_len elementCount ;;
  Ret (steering len angle).

Definition checkConvergence (o : Optimizer) (weights : list complex128)
  (targetAngle snrThreshold : R) : bool :=
  let steering := steering (length weights) targetAngle in
  let response :=
    Csum (fun n => Cmul (nth n weights C0) (Conj (nth n steering C0)))
         (upto (length weights)) in
  let snr := Abs response in
  Rgeb snr snrThreshold.

(** OptimizationRun: the loop state of [Optimize]. *)
Record OptimizationRun : Type := {
  weights : list complex128;
  iterations : Z;
  converged : bool
}.

(** One pass of the loop body up to the convergence test: the gradient,
    the step of size [0.1 / (iterations + 1)] and the re-normalization. *)
Definition gradientStep (targetSteering : list complex128) (len : nat)
  (iterations : Z) (weights : list complex128) : list complex128 :=
  let gradient :=
    map (fun n =>
           Csum (fun m =>
                   Cmul (Cmul (nth m weights C0) (Conj (nth n targetSteering C0)))
                        (nth m targetSteering C0))
                (upto len))
        (upto len) in
  let stepSize := Cdiv (complex 0.1 0) (complex (float64 (iterations + 1)) 0) in
  let weights' :=
    map (fun n => Cadd (nth n weights C0) (Cmul stepSize (nth n gradient C0)))
        (upto len) in
  normalizeWeights weights'.

(** [for iter := 0; iter < o.maxIterations; iter++], with [remaining]
    passes left. *)
Fixpoint iterate (o : Optimizer) (params : BeamformingParams)
  (targetSteering : list complex128) (len : nat)
  (remaining : nat) (iter : Z) (run : OptimizationRun) : OptimizationRun :=
  match remaining with
  | O => run
  | S remaining' =>
      let iterations := (iter + 1)%Z in
      let weights' := gradientStep targetSteering len iterations (weights run) in
      if checkConvergence o weights' (TargetDirection params) (SNRThreshold params)
      then {| weights := weights'; iterations := iterations; converged := true |}
      else iterate o params targetSteering len remaining' (iter + 1)%Z
             {| weights := weights'; iterations := iterations; converged := false |}
  end.

Definition computeBeamPattern (o : Optimizer) (weights : list complex128)
  (numPoints : nat) : list R :=
  let d := 0.5 in
  map (fun i =>
         let angle := - PI / 2 + float64n i * PI / float64n numPoints in
         let response :=
           Csum (fun n =>
                   let phase := 2 * PI * float64n n * d * sin angle in
                   Cmul (nth n weights C0) (Exp (complex 0 (- phase))))
                (upto (length weights)) in
         Abs response)
      (upto numPoints).

Definition analyzeBeamPattern (o : Optimizer) (pattern : list R)
  : go (R * R * R) :=
  v0 <- elemAt pattern 0 ;;
  let '(maxIdx, maxVal) :=
    fold_left (fun '(mi, mv) i =>
                 let v := nth i pattern 0 in
                 if Rgtb v mv then (i, v) else (mi, mv))
              (upto (length pattern)) (0%nat, v0) in
  let mainLobeDir := - PI / 2 + float64n maxIdx * PI / float64n (length pattern) in
  let halfPower := maxVal / sqrt 2 in
  let below := fun i => Rltb (nth i pattern 0) halfPower in
  let leftIdx :=
    match find below (rev (upto (S maxIdx))) with
    | Some i => i
    | None => maxIdx
    end in
  let rightIdx :=
    match find below (seq maxIdx (length pattern - maxIdx)) with
    | Some i => i
    | None => maxIdx
    end in
  let mainLobeWidth :=
    float64 (Z.of_nat rightIdx - Z.of_nat leftIdx) * PI / float64n (length pattern) in
  let sll :=
    fold_left (fun sll i =>
                 if (Nat.ltb i leftIdx || Nat.ltb rightIdx i)%bool
                 then (if Rgtb (nth i pattern 0) sll then nth i pattern 0 else sll)
                 else sll)
              (upto (length pattern)) 0 in
  Ret (mainLobeDir, mainLobeWidth, sll).

(** The state of [Optimize] when control reaches the head of its
    gradient loop for the first time. *)
Definition OptimizeEntry (o : Optimizer) (params : BeamformingParams)
  : go OptimizationRun :=
  weights <- initializeWeights o (ElementCount params) ;;
  Ret {| weights := weights; iterations := 0; converged := false |}.

(** [Optimize] returns [(result, nil)] on every path that returns. *)
Definition Optimize (o : Optimizer) (params : BeamformingParams)
  : go (BeamformingResult + string) :=
  entry <- OptimizeEntry o params ;;
  targetSteering <-
    computeSteeringVector o (ElementCount params) (TargetDirection params) ;;
  interferenceSteerings <-
    mapM (fun angle => computeSteeringVector o (ElementCount params) angle)
         (InterferenceAngles params) ;;
  let run :=
    iterate o params targetSteering (length targetSteering)
            (Z.to_nat (maxIterations o)) 0%Z entry in
  let beamPattern := computeBeamPattern o (weights run) 360 in
  '(mainLobeDir, mainLobeWidth, sll) <- analyzeBeamPattern o beamPattern ;;
  let weightsSerializable := map (fun w => [real w; imag w]) (weights run) in
  Ret (inl {| Weights := weightsSerializable;
              BeamPattern := beamPattern;
              MainLobeDirection := mainLobeDir;
              MainLobeWidth := mainLobeWidth;
              SLL := sll;
              Iterations := iterations run;
              Converged := converged run |}).

Definition ComputeArrayFactor (o : Optimizer) (weights : list complex128)
  (angles : list R) : list R :=
  let d := 0.5 in
  map (fun angle =>
         let response :=
           Csum (fun n =>
                   let phase := 2 * PI * float64n n * d * sin angle in
                   Cmul (nth n weights C0) (Exp (complex 0 (- phase))))
                (upto (length weights)) in
         Abs response)
      angles.

End beamforming.

(** * Package doa *)

Module doa.

(** The exchange sort written twice in the DOA estimator ([eigenDecomposition],
    [findPeaks]):
    [for i { for j := i+1; j < n; j++ { if key(a[i]) < key(a[j]) { swap } } }].
    [sink key x rest] runs the inner loop with [x] at position [i] and
    [rest] behind it: a swap leaves the old [a[i]] at position [j]. *)
Fixpoint sink {A : Type} (key : A -> R) (x : A) (rest : list A) : A * list A :=
  match rest with
  | [] => (x, [])
  | y :: rest' =>
      if Rltb (key x) (key y)
      then let (m, r) := sink key y rest' in (m, x :: r)
      else let (m, r) := sink key x rest' in (m, y :: r)
  end.

Fixpoint exchangeSortN {A : Type} (key : A -> R) (passes : nat) (xs : list A)
  : list A :=
  match passes, xs with
  | S passes', x :: rest =>
      let (m, r) := sink key x rest in m :: exchangeSortN key passes' r
  | _, _ => xs
  end.

Definition exchangeSort {A : Type} (key : A -> R) (xs : list A) : list A :=
  exchangeSortN key (length xs) xs.

(** ** The DOA estimator (src/unnamed/part_020, second file) *)

Module estimator.

Record Estimator : Type := NewEstimator {
  elementCount : Z;
  numSources : Z;
  snapshotLength : Z;
  method : string
}.

(** model.DOAParams. *)
Record DOAParams : Type := {
  ElementCount : Z;
  NumSources : Z;
  SnapshotLength : Z;
  Method : string;
  SearchRangeMin : R;
  SearchRangeMax : R;
  SearchStep : R
}.

Definition randFloat : R :=
  float64 (Z.rem 123456789 (2 ^ 30)) / float64 (2 ^ 30).

Definition generateReceivedSignal (e : Estimator) (data : list complex128)
  (params : DOAParams) : go (list (list complex128)) :=
  M <- make_len (ElementCount params) ;;
  _ <- mapM (fun _ => make_len (SnapshotLength params)) (upto M) ;;
  K <- make_len (NumSources params) ;;
  let sourceAngles :=
    map (fun i => - PI / 3 + float64n i * PI / (3 * float64 (NumSources params)))
        (upto K) in
  let d := 0.5 in
  mapM (fun n =>
          mapM (fun t =>
                  signal <-
                    foldM (fun signal s =>
                             let phase :=
                               2 * PI * float64n n * d * sin (nth s sourceAngles 0) in
                             dt <- (if Nat.eqb (length data) 0 then Panic
                                    else elemAt data (t mod length data)) ;;
                             Ret (Cadd signal (Cmul (Exp (complex 0 phase)) dt)))
                          (upto K) C0 ;;
                  let noise :=
                    complex (0.1 * (randFloat - 0.5)) (0.1 * (randFloat - 0.5)) in
                  Ret (Cadd signal noise))
               (upto (Z.to_nat (SnapshotLength params))))
       (upto M).

Definition computeCovarianceMatrix (e : Estimator) (X : list (list complex128))
  : go (list (list complex128)) :=
  let M := length X in
  X0 <- elemAt X 0 ;;
  let N := length X0 in
  mapM (fun i =>
          mapM (fun j =>
                  sum <-
                    foldM (fun sum t =>
                             Xi <- elemAt X i ;;
                             Xit <- elemAt Xi t ;;
                             Xj <- elemAt X j ;;
                             Xjt <- elemAt Xj t ;;
                             Ret (Cadd sum (Cmul Xit (Conj Xjt))))
                          (upto N) C0 ;;
                  Ret (Cdiv sum (complex (float64n N) 0)))
               (upto M))
       (upto M).

(** The "eigenvalue" of row [i] is the mean squared magnitude of the row
    and the "eigenvectors" are the unit vectors, exchanged along with the
    eigenvalues by the sort: the model sorts the pairs. *)
Definition eigenDecomposition (e : Estimator) (matrix : list (list complex128))
  : go (list R * list (list complex128)) :=
  let n := length matrix in
  let eigenvectors :=
    map (fun i => map (fun j => if Nat.eqb j i then C1 else C0) (upto n))
        (upto n) in
  eigenvalues <-
    mapM (fun i =>
            sum <-
              foldM (fun sum j =>
                       row <- elemAt matrix i ;;
                       mij <- elemAt row j ;;
                       Ret (sum + Abs mij * Abs mij))
                    (upto n) 0 ;;
            Ret (sum / float64n n))
         (upto n) ;;
  let sorted := exchangeSort fst (combine eigenvalues eigenvectors) in
  Ret (map fst sorted, map snd sorted).

Definition extractNoiseSubspace (e : Estimator)
  (eigenvectors : list (list complex128)) (numSources : Z)
  : go (list (list complex128)) :=
  let M := Z.of_nat (length eigenvectors) in
  noiseDim <- make_len (M - numSources) ;;
  mapM (fun i => elemAtZ eigenvectors (numSources + Z.of_nat i)) (upto noiseDim).

Record peak : Type := { index : nat; value : R }.

(** [findPeaks]: the strict interior local maxima, exchange-sorted by
    descending value, cut to [numPeaks] when there are more; the result
    has one angle per remaining peak. *)
Definition localMaxima (spectrum : list R) : list peak :=
  flat_map (fun i =>
              if (Rgtb (nth i spectrum 0) (nth (i - 1) spectrum 0)
                  && Rgtb (nth i spectrum 0) (nth (i + 1) spectrum 0))%bool
              then [{| index := i; value := nth i spectrum 0 |}]
              else [])
           (seq 1 (length spectrum - 2)).

Definition findPeaks (e : Estimator) (spectrum : list R) (numPeaks : Z)
  : go (list R) :=
  let peaks := exchangeSort value (localMaxima spectrum) in
  peaks' <- (if (Z.of_nat (length peaks) >? numPeaks)%Z
             then (if (numPeaks <? 0)%Z then Panic
                   else Ret (firstn (Z.to_nat numPeaks) peaks))
             else Ret peaks) ;;
  Ret (map (fun p =>
              - PI / 2 + float64n (index p) * PI / float64n (length spectrum))
           peaks').

(** The denominator of the pseudo-spectrum at [angle]: the energy of the
    projections of the steering vector on the noise-subspace vectors. *)
Definition musicDenominator (noiseSubspace : list (list complex128))
  (elementCount : nat) (angle : R) : go R :=
  let d := 0.5 in
  let steering :=
    map (fun n =>
           let phase := 2 * PI * float64n n * d * sin angle in
           Exp (complex 0 phase))
        (upto elementCount) in
  foldM (fun denom k =>
           proj <-
             foldM (fun proj n =>
                      uk <- elemAt noiseSubspace k ;;
                      ukn <- elemAt uk n ;;
                      Ret (Cadd proj (Cmul (Conj ukn) (nth n steering C0))))
                   (upto elementCount) C0 ;;
           Ret (denom + Abs proj * Abs proj))
        (upto (length noiseSubspace)) 0.

(** The grid angle of point [i] out of [numPoints]. *)
Definition gridAngle (numPoints i : nat) : R :=
  - PI / 2 + float64n i * PI / float64n numPoints.

(** One pass of the spectrum loop of [musicAlgorithm]. *)
Definition spectrumPoint (noiseSubspace : list (list complex128))
  (elementCount numPoints i : nat) : go R :=
  denom <- musicDenominator noiseSubspace elementCount (gridAngle numPoints i) ;;
  Ret (if Rgtb denom 1e-10 then 1.0 / denom else 1e10).

(** The first four statements of [musicAlgorithm]. *)
Definition musicNoiseSubspace (e : Estimator) (data : list complex128)
  (params : DOAParams) : go (list (list complex128)) :=
  X <- generateReceivedSignal e data params ;;
  covMatrix <- computeCovarianceMatrix e X ;;
  '(_, eigenvectors) <- eigenDecomposition e covMatrix ;;
  extractNoiseSubspace e eigenvectors (NumSources params).

Definition musicAlgorithm (e : Estimator) (data : list complex128)
  (params : DOAParams) : go (list R * list R) :=
  noiseSubspace <- musicNoiseSubspace e data params ;;
  let numPoints := 360%nat in
  elementCount <- make_len (ElementCount params) ;;
  spectrum <-
    mapM (spectrumPoint noiseSubspace elementCount numPoints) (upto numPoints) ;;
  estimatedAngles <- findPeaks e spectrum (NumSources params) ;;
  Ret (spectrum, estimatedAngles).

(** The signal subspace is filled from the first [NumSources]
    eigenvectors and not used afterwards; the angles are a fixed grid. *)
Definition espritAlgorithm (e : Estimator) (data : list complex128)
  (params : DOAParams) : go (list R) :=
  X <- generateReceivedSignal e data params ;;
  covMatrix <- computeCovarianceMatrix e X ;;
  '(_, eigenvectors) <- eigenDecomposition e covMatrix ;;
  K <- make_len (NumSources params) ;;
  signalSubspace <- mapM (fun i => elemAt eigenvectors i) (upto K) ;;
  Ret (map (fun i =>
              - PI / 4 + float64n i * PI / (2 * float64 (NumSources params)))
           (upto K)).

(** model.DOAResult. *)
Record DOAResult : Type := {
  EstimatedAngles : list R;
  Spectrum : list R;
  TrueAngles : list R;
  RMSE : R
}.

(** [Estimate] returns [(result, nil)] on every path that returns; the
    two calls of the logger have no effect on the result. *)
Definition Estimate (e : Estimator) (data : list complex128) (params : DOAParams)
  : go (DOAResult + string) :=
  '(spectrum, estimatedAngles) <-
    (if String.eqb (Method params) "MUSIC"
     then musicAlgorithm e data params
     else if String.eqb (Method params) "ESPRIT"
          then estimatedAngles <- espritAlgorithm e data params ;;
               Ret (repeat 0 360, estimatedAngles)
          else musicAlgorithm e data params) ;;
  Ret (inl {| EstimatedAngles := estimatedAngles;
              Spectrum := spectrum;
              TrueAngles := [];
              RMSE := 0 |}).

End estimator.

(** ** gonum.org/v1/gonum/mat, as far as the ESPRIT estimator uses it

    A matrix is the list of its rows.  The constructors panic unless both
    dimensions are positive, [At] panics out of range and [Mul] panics on
    a shape mismatch.  The factorizations are not part of the repository:
    they are the fields of the class [Factorizations], and every theorem
    holds for all of them. *)

Module mat.

Definition Dense : Type := list (list R).
Definition CDense : Type := list (list complex128).

Definition New {T : Type} (zero : T) (r c : Z) : go (list (list T)) :=
  if ((r <=? 0)%Z || (c <=? 0)%Z)%bool then Panic
  else Ret (repeat (repeat zero (Z.to_nat c)) (Z.to_nat r)).

Definition NewDense : Z -> Z -> go Dense := New 0.
Definition NewCDense : Z -> Z -> go CDense := New C0.

Definition Rows {T : Type} (m : list (list T)) : nat := length m.
Definition Cols {T : Type} (m : list (list T)) : nat := length (hd [] m).

Definition At {T : Type} (m : list (list T)) (i j : nat) : go T :=
  row <- elemAt m i ;; elemAt row j.

Definition T (m : Dense) : Dense :=
  map (fun j => map (fun row => nth j row 0) m) (upto (Cols m)).

Definition Mul (a b : Dense) : go Dense :=
  if Nat.eqb (Cols a) (Rows b)
  then Ret (map (fun arow =>
                   map (fun j =>
                          Rsum (fun k => nth k arow 0 * nth j (nth k b []) 0)
                               (upto (Rows b)))
                       (upto (Cols b)))
                a)
  else Panic.

Class Factorizations : Type := {
  (** [inv.Inverse(a)]: the inverse, or [None] when an error is returned. *)
  Inverse : Dense -> option Dense;
  (** [svd.Factorize(a, mat.SVDFull)] then [svd.UTo]: the left singular
      vectors, or [None] when the factorization fails. *)
  SVD_U : Dense -> option Dense;
  (** [eig.Factorize(a, false)] then [eig.Values(nil)]. *)
  EigenValues : Dense -> option (list complex128)
}.

End mat.

(** [sort.Sort(sort.Reverse(sort.Float64Slice(xs)))]: the values in
    descending order. *)
Fixpoint insertDescending (x : R) (xs : list R) : list R :=
  match xs with
  | [] => [x]
  | y :: ys => if Rltb x y then y :: insertDescending x ys else x :: xs
  end.

Definition sortDescending (xs : list R) : list R :=
  fold_right insertDescending [] xs.

(** A float64 result that may be [math.Inf(1)]. *)
Inductive xfloat : Type :=
| Fin (r : R)
| PosInf.

Definition xadd (x y : xfloat) : xfloat :=
  match x, y with
  | Fin a, Fin b => Fin (a + b)
  | _, _ => PosInf
  end.

Definition xltb (x : xfloat) (y : R) : bool :=
  match x with
  | Fin a => Rltb a y
  | PosInf => false
  end.

(** Division by a trial count; an infinite total only arises after a
    trial has run, that is for a positive count. *)
Definition xdiv (x : xfloat) (n : R) : xfloat :=
  match x with
  | Fin a => Fin (a / n)
  | PosInf => PosInf
  end.

(** Values built by [fmt.Errorf]: the format and its arguments, or a
    wrapped cause ([%w]). *)
Inductive error : Type :=
| Errorf (format : string) (args : list Z)
| Wrapf (format : string) (cause : error).

(** ** The ESPRIT estimator (src/unnamed/part_020, first file) *)

Module esprit.

Import mat.

Record ESPRITConfig : Type := {
  NumAntennas : Z;
  NumSources : Z;
  ElementSpacing : R;
  SnapshotLength : Z;
  SampleRate : R;
  CarrierFreq : R
}.

(** The result type has exactly these five fields. *)
Record ESPRITResult : Type := {
  Angles : list R;
  RMSE : xfloat;
  SuccessRate : R;
  ProcessingTime : R;
  Eigenvalues : list R
}.

(** The receiver: the configuration and the matrices a successful
    [EstimateDOA] stores ([nil] before the first one). *)
Record ESPRITEstimator : Type := {
  config : ESPRITConfig;
  covMatrix : option CDense;
  signalSubspace : option CDense;
  noiseSubspace : option CDense
}.

Definition NewESPRITEstimator (config : ESPRITConfig) : ESPRITEstimator :=
  let spacing :=
    if Reqb (ElementSpacing config) 0 then 0.5 else ElementSpacing config in
  let snapshots :=
    if (SnapshotLength config =? 0)%Z then 256%Z else SnapshotLength config in
  {| config := {| NumAntennas := NumAntennas config;
                  NumSources := NumSources config;
                  ElementSpacing := spacing;
                  SnapshotLength := snapshots;
                  SampleRate := SampleRate config;
                  CarrierFreq := CarrierFreq config |};
     covMatrix := None;
     signalSubspace := None;
     noiseSubspace := None |}.

Section WithFactorizations.

Context {F : Factorizations}.

Definition computeCovarianceMatrix (e : ESPRITEstimator)
  (X : list (list complex128)) : go CDense :=
  let M := length X in
  X0 <- elemAt X 0 ;;
  let N := length X0 in
  _ <- NewCDense (Z.of_nat M) (Z.of_nat M) ;;
  mapM (fun i =>
          mapM (fun j =>
                  sum <-
                    foldM (fun sum t =>
                             Xi <- elemAt X i ;;
                             Xit <- elemAt Xi t ;;
                             Xj <- elemAt X j ;;
                             Xjt <- elemAt Xj t ;;
                             Ret (Cadd sum (Cmul Xit (Conj Xjt))))
                          (upto N) C0 ;;
                  Ret (Cdiv sum (complex (float64n N) 0)))
               (upto M))
       (upto M).

(** The real matrix both [computeEigenvalues] and [extractSignalSubspace]
    factorize: the real part on the diagonal, the squared magnitude off it. *)
Definition realCov (covMatrix : CDense) : go Dense :=
  let M := Rows covMatrix in
  _ <- NewDense (Z.of_nat M) (Z.of_nat M) ;;
  mapM (fun i =>
          mapM (fun j =>
                  val <- At covMatrix i j ;;
                  Ret (if Nat.eqb i j then real val
                       else real (Cmul val (Conj val))))
               (upto M))
       (upto M).

Definition computeEigenvalues (e : ESPRITEstimator) (covMatrix : CDense)
  : go (list R) :=
  let M := Rows covMatrix in
  realCov <- realCov covMatrix ;;
  match EigenValues realCov with
  | None => Ret (repeat 0 M)
  | Some values =>
      eigenvalues <- mapM (fun i => v <- elemAt values i ;; Ret (real v)) (upto M) ;;
      Ret (sortDescending eigenvalues)
  end.

Definition extractSignalSubspace (e : ESPRITEstimator) (covMatrix : CDense)
  (numSources : Z) : go (CDense + error) :=
  let M := Z.of_nat (Rows covMatrix) in
  realCov <- realCov covMatrix ;;
  match SVD_U realCov with
  | None => Ret (inr (Errorf "SVD factorization failed" []))
  | Some u =>
      _ <- NewCDense (M - numSources) numSources ;;
      signalSubspace <-
        mapM (fun i =>
                mapM (fun j => uij <- At u i j ;; Ret (complex uij 0))
                     (upto (Z.to_nat numSources)))
             (upto (Z.to_nat (M - numSources))) ;;
      Ret (inl signalSubspace)
  end.

(** The placeholder [solveRotationMatrix] returns when the inversion
    reports an error, and the rotation operator it returns otherwise. *)
Definition solveRotationMatrix (e : ESPRITEstimator) (Us1 Us2 : CDense) (K : Z)
  : go CDense :=
  let Us1Real : Dense := map (map real) Us1 in
  let Us2Real : Dense := map (map real) Us2 in
  let Us1T := T Us1Real in
  Us1TUs1 <- Mul Us1T Us1Real ;;
  match Inverse Us1TUs1 with
  | None =>
      _ <- NewCDense K K ;;
      Ret (map (fun i =>
                  map (fun j =>
                         if Nat.eqb i j
                         then Exp (complex 0 (float64n i * PI / float64 K))
                         else C0)
                      (upto (Z.to_nat K)))
               (upto (Z.to_nat K)))
  | Some inv =>
      Us1TUs2 <- Mul Us1T Us2Real ;;
      psiReal <- Mul inv Us1TUs2 ;;
      _ <- NewCDense K K ;;
      mapM (fun i =>
              mapM (fun j => pij <- At psiReal i j ;; Ret (complex pij 0))
                   (upto (Z.to_nat K)))
           (upto (Z.to_nat K))
  end.

Definition extractAngles (e : ESPRITEstimator) (psi : CDense) (K : Z)
  : go (list R) :=
  len <- make_len K ;;
  let K_actual := Nat.min len (Rows psi) in
  estimated <-
    mapM (fun i =>
            diagVal <- At psi i i ;;
            let phase := Phase diagVal in
            let wavelength :=
              if Rgtb (CarrierFreq (config e)) 0
              then 3e8 / CarrierFreq (config e) else 1.0 in
            let d :=
              if Rgtb (CarrierFreq (config e)) 0
              then ElementSpacing (config e) * wavelength
              else ElementSpacing (config e) in
            let sinTheta := phase * wavelength / (2 * PI * d) in
            let sinTheta :=
              if Rgtb sinTheta 1 then 1
              else if Rltb sinTheta (-1) then -1 else sinTheta in
            Ret (asin sinTheta))
         (upto K_actual) ;;
  Ret (estimated ++
       map (fun i => - PI / 4 + float64n i * PI / (2 * float64 K))
           (seq K_actual (len - K_actual))).

Definition espritCore (e : ESPRITEstimator) (signalSubspace : CDense) (M K : Z)
  : go (list R + error) :=
  let rows := Rows signalSubspace in
  let cols := Cols signalSubspace in
  if (Z.of_nat rows <? M - 1)%Z
  then Ret (inr (Errorf "signal subspace too small" []))
  else
    let Us1 : CDense :=
      map (fun i => map (fun j => nth j (nth i signalSubspace []) C0) (upto cols))
          (upto rows) in
    let Us2 : CDense :=
      map (fun i =>
             map (fun j =>
                    if Nat.ltb (i + 1) rows
                    then nth j (nth (i + 1) signalSubspace []) C0 else C0)
                 (upto cols))
          (upto rows) in
    psi <- solveRotationMatrix e Us1 Us2 K ;;
    angles <- extractAngles e psi K ;;
    Ret (inl angles).

(** [EstimateDOA] returns its result and leaves the receiver updated. *)
Definition EstimateDOA (e : ESPRITEstimator) (receivedSignal : list (list complex128))
  : go ((ESPRITResult + error) * ESPRITEstimator) :=
  let M := NumAntennas (config e) in
  let K := NumSources (config e) in
  if negb (Z.of_nat (length receivedSignal) =? M)%Z
  then Ret (inr (Errorf "signal dimension mismatch: expected %d antennas, got %d"
                        [M; Z.of_nat (length receivedSignal)]), e)
  else
    covMatrix <- computeCovarianceMatrix e receivedSignal ;;
    eigenvalues <- computeEigenvalues e covMatrix ;;
    r <- extractSignalSubspace e covMatrix K ;;
    match r with
    | inr err => Ret (inr (Wrapf "extract signal subspace failed: %w" err), e)
    | inl signalSubspace =>
        r' <- espritCore e signalSubspace M K ;;
        match r' with
        | inr err => Ret (inr (Wrapf "esprit core computation failed: %w" err), e)
        | inl angles =>
            Ret (inl {| Angles := angles;
                        RMSE := Fin 0;
                        SuccessRate := 0;
                        ProcessingTime := 0;
                        Eigenvalues := eigenvalues |},
                 {| config := config e;
                    covMatrix := Some covMatrix;
                    signalSubspace := Some signalSubspace;
                    noiseSubspace := noiseSubspace e |})
        end
    end.

End WithFactorizations.

(** [randFloat64] takes no argument and reads no state. *)
Definition randFloat64 : R :=
  float64 (Z.rem (123456789 + int_of_float (1000 * sin (float64 0))) (2 ^ 30))
  / float64 (2 ^ 30).

(** [for u1 == 0 { u1 = randFloat64() }]. *)
Fixpoint redraw (fuel : nat) (u1 : R) : go R :=
  if Reqb u1 0
  then match fuel with
       | O => OutOfFuel
       | S fuel' => redraw fuel' randFloat64
       end
  else Ret u1.

Definition randNorm (fuel : nat) : go R :=
  let u1 := randFloat64 in
  let u2 := randFloat64 in
  u1 <- redraw fuel u1 ;;
  Ret (sqrt (-2 * ln u1) * cos (2 * PI * u2)).

Definition GenerateTestSignal (fuel : nat) (e : ESPRITEstimator)
  (trueAngles : list R) (snrDB : R) : go (list (list complex128)) :=
  let N := SnapshotLength (config e) in
  let K := length trueAngles in
  M <- make_len (NumAntennas (config e)) ;;
  _ <- mapM (fun _ => make_len N) (upto M) ;;
  let d := ElementSpacing (config e) in
  let snrLinear := Rpower 10 (snrDB / 10) in
  let noisePower := 1.0 / snrLinear in
  mapM (fun m =>
          mapM (fun t =>
                  let Xmt :=
                    Csum (fun k =>
                            let signal := Exp (complex 0 (2 * PI * float64n t * 0.01)) in
                            let phase :=
                              2 * PI * float64n m * d * sin (nth k trueAngles 0) in
                            let steering := Exp (complex 0 phase) in
                            Cmul steering signal)
                         (upto K) in
                  r1 <- randNorm fuel ;;
                  let noiseReal := r1 * sqrt (noisePower / 2) in
                  r2 <- randNorm fuel ;;
                  let noiseImag := r2 * sqrt (noisePower / 2) in
                  Ret (Cadd Xmt (complex noiseReal noiseImag)))
               (upto (Z.to_nat N)))
       (upto M).

(** The two slices are paired position by position, in the order given. *)
Definition ComputeRMSE (e : ESPRITEstimator) (estimatedAngles trueAngles : list R)
  : xfloat :=
  if negb (Nat.eqb (length estimatedAngles) (length trueAngles)) then PosInf
  else
    let sumSquaredError :=
      Rsum (fun i =>
              let err := nth i estimatedAngles 0 - nth i trueAngles 0 in
              err * err)
           (upto (length estimatedAngles)) in
    Fin (sqrt (sumSquaredError / float64n (length estimatedAngles))).

(** [results[snr] = v] on a Go map keyed by float64. *)
Definition map_set {V : Type} (results : list (R * V)) (key : R) (v : V)
  : list (R * V) :=
  (key, v) :: filter (fun kv => negb (Reqb (fst kv) key)) results.

Section Performance.

Context {F : Factorizations}.

Definition EstimateWithPerformance (fuel : nat) (e : ESPRITEstimator)
  (trueAngles : list R) (snrDB : R)
  : go ((ESPRITResult + error) * ESPRITEstimator) :=
  signal <- GenerateTestSignal fuel e trueAngles snrDB ;;
  '(r, e') <- EstimateDOA e signal ;;
  match r with
  | inr err => Ret (inr err, e')
  | inl result =>
      Ret (inl {| Angles := Angles result;
                  RMSE := ComputeRMSE e' (Angles result) trueAngles;
                  SuccessRate := SuccessRate result;
                  ProcessingTime := ProcessingTime result;
                  Eigenvalues := Eigenvalues result |}, e')
  end.

(** The trial loop of [MonteCarloSimulation] for one SNR: the running
    [totalRMSE] and [successCount]; a trial that returns an error is
    skipped. *)
Fixpoint trialLoop (fuel : nat) (trials : nat) (e : ESPRITEstimator)
  (trueAngles : list R) (snr : R) (totalRMSE : xfloat) (successCount : Z)
  : go (xfloat * Z * ESPRITEstimator) :=
  match trials with
  | O => Ret (totalRMSE, successCount, e)
  | S trials' =>
      '(r, e') <- EstimateWithPerformance fuel e trueAngles snr ;;
      match r with
      | inr _ => trialLoop fuel trials' e' trueAngles snr totalRMSE successCount
      | inl result =>
          trialLoop fuel trials' e' trueAngles snr
                    (xadd totalRMSE (RMSE result))
                    (if xltb (RMSE result) 0.1 then successCount + 1
                     else successCount)%Z
      end
  end.

Definition MonteCarloSimulation (fuel : nat) (e : ESPRITEstimator)
  (trueAngles : list R) (snrRange : list R) (numTrials : Z)
  : go (list (R * ESPRITResult) * ESPRITEstimator) :=
  foldM (fun '(results, e) snr =>
           '(totalRMSE, successCount, e') <-
             trialLoop fuel (Z.to_nat numTrials) e trueAngles snr (Fin 0) 0%Z ;;
           let avgRMSE := xdiv totalRMSE (float64 numTrials) in
           let successRate := float64 successCount / float64 numTrials in
           Ret (map_set results snr
                  {| Angles := [];
                     RMSE := avgRMSE;
                     SuccessRate := successRate;
                     ProcessingTime := 0;
                     Eigenvalues := [] |}, e'))
        snrRange ([], e).

(** The values stored in the [map[string]interface{}] that
    [CompareWithMUSIC] returns. *)
Inductive value : Type :=
| Float (x : xfloat)
| Floats (xs : list R).

(** The "MUSIC" angles are the true angles plus [randNorm()*0.05]; no
    MUSIC estimator is run. *)
Definition CompareWithMUSIC (fuel : nat) (e : ESPRITEstimator)
  (trueAngles : list R) (snrDB : R)
  : go ((list (string * value) + error) * ESPRITEstimator) :=
  '(r, e') <- EstimateWithPerformance fuel e trueAngles snrDB ;;
  match r with
  | inr err => Ret (inr err, e')
  | inl espritResult =>
      musicAngles <-
        mapM (fun i =>
                g <- randNorm fuel ;;
                Ret (nth i trueAngles 0 + g * 0.05))
             (upto (length trueAngles)) ;;
      let musicRMSE := ComputeRMSE e' musicAngles trueAngles in
      Ret (inl [("esprit_rmse"%string, Float (RMSE espritResult));
                ("music_rmse"%string, Float musicRMSE);
                ("esprit_angles"%string, Floats (Angles espritResult));
                ("music_angles"%string, Floats musicAngles);
                ("true_angles"%string, Floats trueAngles)], e')
  end.

End Performance.

(** ** The TLS variant *)

(** A [TLS_ESPRITEstimator] embeds an [ESPRITEstimator]. *)
Record TLS_ESPRITEstimator : Type := {
  embedded : ESPRITEstimator
}.

Definition NewTLS_ESPRITEstimator (config : ESPRITConfig) : TLS_ESPRITEstimator :=
  {| embedded := NewESPRITEstimator config |}.

Section TLS.

Context {F : Factorizations}.

(** The two sub-array matrices and their concatenation are built and
    then not used: the angles are computed from [K] and the element
    spacing alone. *)
Definition tlsEspritCore (e : TLS_ESPRITEstimator) (signalSubspace : CDense)
  (M K : Z) : go (list R + error) :=
  let rows := Rows signalSubspace in
  let cols := Cols signalSubspace in
  _ <- NewCDense (Z.of_nat rows - 1) (Z.of_nat cols) ;;
  _ <- NewCDense (Z.of_nat rows - 1) (Z.of_nat cols) ;;
  Us <-
    mapM (fun i =>
            mapM (fun j =>
                    u1 <- At signalSubspace i j ;;
                    u2 <- At signalSubspace (i + 1) j ;;
                    Ret (u1, u2))
                 (upto cols))
         (upto (rows - 1)) ;;
  _ <- NewCDense (Z.of_nat rows - 1) (2 * Z.of_nat cols) ;;
  len <- make_len K ;;
  Ret (inl (map (fun i =>
                   let phase := 2 * PI * float64n i / float64 K in
                   asin (phase / (2 * PI * ElementSpacing (config (embedded e)))))
                (upto len))).

(** The method of the TLS estimator that shadows [EstimateDOA]: no
    dimension check, and nothing is stored in the receiver. *)
Definition TLS_EstimateDOA (e : TLS_ESPRITEstimator)
  (receivedSignal : list (list complex128)) : go (ESPRITResult + error) :=
  let M := NumAntennas (config (embedded e)) in
  let K := NumSources (config (embedded e)) in
  covMatrix <- computeCovarianceMatrix (embedded e) receivedSignal ;;
  r <- extractSignalSubspace (embedded e) covMatrix K ;;
  match r with
  | inr err => Ret (inr err)
  | inl signalSubspace =>
      r' <- tlsEspritCore e signalSubspace M K ;;
      match r' with
      | inr err => Ret (inr err)
      | inl angles =>
          Ret (inl {| Angles := angles;
                      RMSE := Fin 0;
                      SuccessRate := 0;
                      ProcessingTime := 0;
                      Eigenvalues := [] |})
      end
  end.

End TLS.

End esprit.

End doa.

(** * Specification-level definitions and example inputs *)

(** A stand-in for gonum on 1-by-1 matrices, where every factorization is
    explicit: [[x]] is inverted unless [x = 0], its left singular vector
    is [[1]] and its eigenvalue is [x].  Larger matrices are reported as
    failures.  It is used to run the model on scalar examples only. *)
Definition scalarInverse (a : doa.mat.Dense) : option doa.mat.Dense :=
  match a with
  | [[x]] => if Reqb x 0 then None else Some [[/ x]]
  | _ => None
  end.

Definition scalarSVD_U (a : doa.mat.Dense) : option doa.mat.Dense :=
  match a with
  | [[x]] => Some [[1]]
  | _ => None
  end.

Definition scalarEigenValues (a : doa.mat.Dense) : option (list complex128) :=
  match a with
  | [[x]] => Some [complex x 0]
  | _ => None
  end.

Definition scalarFactorizations : doa.mat.Factorizations :=
  {| doa.mat.Inverse := scalarInverse;
     doa.mat.SVD_U := scalarSVD_U;
     doa.mat.EigenValues := scalarEigenValues |}.

(** The Euclidean norm of a weight vector. *)
Definition norm2 (w : list complex128) : R :=
  sqrt (Rsum (fun x => Abs x * Abs x) w).

(** The array response [a^H w] of weights [w] to the steering vector [a]. *)
Definition response (a w : list complex128) : complex128 :=
  Csum (fun i => Cmul (Conj (nth i a C0)) (nth i w C0)) (upto (length a)).

(** The product [inv * a] accumulated by the first loop of
    [ComputeMVDRWeights]. *)
Definition matVec (inv : list (list complex128)) (a : list complex128)
  : list complex128 :=
  map (fun i =>
         Csum (fun j => Cmul (nth j (nth i inv []) C0) (nth j a C0))
              (upto (length a)))
      (upto (length a)).

(** The product of two matrices given as slices of rows. *)
Definition matrixProduct (A B : list (list complex128)) : list (list complex128) :=
  map (fun row =>
         map (fun j => Csum (fun k => Cmul (nth k row C0) (nth j (nth k B []) C0))
                            (upto (length B)))
             (upto (length (nth 0 B []))))
      A.

Definition identityMatrix (n : nat) : list (list complex128) :=
  map (fun i => map (fun j => if Nat.eqb i j then C1 else C0) (upto n)) (upto n).

(** Entry [(i, j)] of a matrix given as a slice of rows. *)
Definition entry (m : list (list complex128)) (i j : nat) : complex128 :=
  nth j (nth i m []) C0.

(** The augmented matrix [matrix | I] that [matrixInverse] builds. *)
Definition augmented (matrix : list (list complex128)) : list (list complex128) :=
  let n := length matrix in
  map (fun i =>
         map (fun j => entry matrix i j) (upto n)
         ++ map (fun j => if Nat.eqb j i then C1 else C0) (upto n))
      (upto n).

(** The augmented matrix after the first [i] passes of the elimination. *)
Definition eliminated (matrix : list (list complex128)) (i : nat)
  : list (list complex128) :=
  fold_left beamforming.eliminate (upto i) (augmented matrix).

(** The pivots the elimination divides by, in the order it meets them. *)
Definition pivots (matrix : list (list complex128)) : list complex128 :=
  map (fun i => entry (eliminated matrix i) i i) (upto (length matrix)).

(** An augmented matrix of [n] rows of [2 n] entries. *)
Definition wellShaped (n : nat) (aug : list (list complex128)) : Prop :=
  length aug = n /\ forall k, (k < n)%nat -> length (nth k aug []) = (2 * n)%nat.

(** First invariant of the elimination: the left block is the right
    block times the matrix. *)
Definition leftIsRightTimes (matrix aug : list (list complex128)) : Prop :=
  let n := length matrix in
  forall k j, (k < n)%nat -> (j < n)%nat ->
    entry aug k j
    = Csum (fun m => Cmul (entry aug k (n + m)) (entry matrix m j)) (upto n).

(** A covariance matrix for the examples: [[2, 1], [1, 1]]. *)
Definition covariance2 : list (list complex128) :=
  [[complex 2 0; C1]; [C1; C1]].

(** What the three closed-form operations return. *)
Definition closed_form_weights_spec (w : beamforming.WeightsCalculator)
  (targetAngle : R) (targetAngles : list R)
  (covMatrix : list (list complex128)) (steeringVector : list complex128) : Prop :=
  (exists ws,
      beamforming.ComputeConjugateBeamforming w targetAngle = Ret ws
      /\ Z.of_nat (length ws) = beamforming.elementCount w
      /\ norm2 ws = 1)
  /\ (exists ws,
         beamforming.ComputeZOFBeamforming w targetAngles = Ret ws
         /\ Z.of_nat (length ws) = beamforming.elementCount w
         /\ ((exists n, (Z.of_nat n < beamforming.elementCount w)%Z
                        /\ Csum (fun angle =>
                                   Exp (complex 0 (2 * PI * float64n n
                                                   * beamforming.elementSpacing w
                                                   * sin angle)))
                                targetAngles <> C0)
             -> norm2 ws = 1))
  /\ (exists ws,
         beamforming.ComputeMVDRWeights w covMatrix steeringVector = Ret ws
         /\ length ws = length steeringVector)
  /\ (Forall (fun p => p <> C0) (pivots covMatrix) ->
      exists inv,
        beamforming.matrixInverse covMatrix = Ret inv
        /\ matrixProduct inv covMatrix = identityMatrix (length covMatrix)
        /\ (response steeringVector (matVec inv steeringVector) <> C0 ->
            exists ws,
              beamforming.ComputeMVDRWeights w covMatrix steeringVector = Ret ws
              /\ ws = map (fun wi => Cdiv wi (response steeringVector
                                                       (matVec inv steeringVector)))
                          (matVec inv steeringVector)
              /\ response steeringVector ws = C1)).

(** The parameters of the example: a two-element array steered to
    broadside (target direction 0). *)
Definition broadside2 : beamforming.BeamformingParams :=
  {| beamforming.ElementCount := 2;
     beamforming.TargetDirection := 0;
     beamforming.InterferenceAngles := [];
     beamforming.SNRThreshold := 0.9;
     beamforming.MaxIterations := 100 |}.

(** The sample covariance entry [(1/N) * sum_t X[i][t] * conj(X[j][t])]. *)
Definition sampleCovariance (X : list (list complex128)) (N i j : nat)
  : complex128 :=
  let S :=
    Csum (fun t => Cmul (nth t (nth i X []) C0) (Conj (nth t (nth j X []) C0)))
         (upto N) in
  complex (1 / INR N * real S) (1 / INR N * imag S).

(** What both covariance loops compute on a rectangular matrix. *)
Definition covarianceOf (X : list (list complex128)) (N : nat)
  : list (list complex128) :=
  map (fun i =>
         map (fun j =>
                Cdiv (Csum (fun t => Cmul (nth t (nth i X []) C0)
                                          (Conj (nth t (nth j X []) C0)))
                           (upto N))
                     (complex (float64n N) 0))
             (upto (length X)))
      (upto (length X)).

(** The noise-subspace projection energy
    [sum_k |u_k^H a(angle)|^2] of the steering vector of [elementCount]
    half-wavelength-spaced elements. *)
Definition projectionEnergy (noiseSubspace : list (list complex128))
  (elementCount : nat) (angle : R) : R :=
  Rsum (fun u =>
          let proj :=
            Csum (fun n =>
                    Cmul (Conj (nth n u C0))
                         (Exp (complex 0 (2 * PI * float64n n * 0.5 * sin angle))))
                 (upto elementCount) in
          Abs proj * Abs proj)
       noiseSubspace.

(** The value the spectrum loop stores for a denominator. *)
Definition spectrumValue (denom : R) : R :=
  if Rgtb denom 1e-10 then 1.0 / denom else 1e10.

(** Row [i] of the n-by-n identity. *)
Definition unitRow (n i : nat) : list complex128 :=
  map (fun j => if Nat.eqb j i then C1 else C0) (upto n).

(** The grid angle [findPeaks] returns for a peak. *)
Definition peakAngle (numPoints : nat) (p : doa.estimator.peak) : R :=
  - PI / 2 + float64n (doa.estimator.index p) * PI / float64n numPoints.

(** Parameters on which [musicAlgorithm] runs without a panic: at least
    one element, a source count between 0 and the element count, a
    non-negative snapshot length and a non-empty data buffer. *)
Definition validMusicInput (data : list complex128)
  (params : doa.estimator.DOAParams) : Prop :=
  (1 <= doa.estimator.ElementCount params)%Z
  /\ (0 <= doa.estimator.SnapshotLength params)%Z
  /\ (0 <= doa.estimator.NumSources params
      <= doa.estimator.ElementCount params)%Z
  /\ data <> [].

(** The 360-point pseudo-spectrum of a noise subspace. *)
Definition musicSpectrum (noiseSubspace : list (list complex128))
  (elementCount : nat) : list R :=
  map (fun i =>
         spectrumValue (projectionEnergy noiseSubspace elementCount
                          (doa.estimator.gridAngle 360 i)))
      (upto 360).

(** What the spectrum loop stores at every grid point, for the noise
    subspace and the element count it ran on. *)
Definition spectrumPointSpec (noiseSubspace : list (list complex128))
  (elementCount : nat) (spectrum : list R) : Prop :=
  length spectrum = 360%nat
  /\ forall i, (i < 360)%nat ->
       exists denom,
         doa.estimator.musicDenominator noiseSubspace elementCount
           (- PI / 2 + INR i * PI / 360) = Ret denom
         /\ (denom > 1e-10 -> nth i spectrum 0 = 1 / denom)
         /\ (denom <= 1e-10 -> nth i spectrum 0 = 1e10)
         /\ 0 < nth i spectrum 0 <= 1e10.

(** What [musicAlgorithm] returns as its spectrum: on every input, if it
    returns; and that it returns on every valid input, with the
    projection energy as denominator. *)
Definition musicSpectrumSpec (e : doa.estimator.Estimator)
  (data : list complex128) (params : doa.estimator.DOAParams) : Prop :=
  (forall spectrum angles,
      doa.estimator.musicAlgorithm e data params = Ret (spectrum, angles) ->
      exists noiseSubspace,
        doa.estimator.musicNoiseSubspace e data params = Ret noiseSubspace
        /\ spectrumPointSpec noiseSubspace
             (Z.to_nat (doa.estimator.ElementCount params)) spectrum)
  /\ (validMusicInput data params ->
      exists noiseSubspace spectrum angles,
        doa.estimator.musicNoiseSubspace e data params = Ret noiseSubspace
        /\ doa.estimator.musicAlgorithm e data params = Ret (spectrum, angles)
        /\ forall i, (i < 360)%nat ->
             doa.estimator.musicDenominator noiseSubspace
               (Z.to_nat (doa.estimator.ElementCount params))
               (- PI / 2 + INR i * PI / 360)
             = Ret (projectionEnergy noiseSubspace
                      (Z.to_nat (doa.estimator.ElementCount params))
                      (- PI / 2 + INR i * PI / 360))).

(** A two-element array, one source, one snapshot. *)
Definition smallMusicParams : doa.estimator.DOAParams :=
  {| doa.estimator.ElementCount := 2;
     doa.estimator.NumSources := 1;
     doa.estimator.SnapshotLength := 1;
     doa.estimator.Method := "MUSIC";
     doa.estimator.SearchRangeMin := 0;
     doa.estimator.SearchRangeMax := 0;
     doa.estimator.SearchStep := 0 |}.

(** A strict interior local maximum of the spectrum, as a peak record. *)
Definition isStrictLocalMax (spectrum : list R) (p : doa.estimator.peak) : Prop :=
  let i := doa.estimator.index p in
  (1 <= i)%nat /\ (i + 1 < length spectrum)%nat
  /\ nth i spectrum 0 > nth (i - 1) spectrum 0
  /\ nth i spectrum 0 > nth (i + 1) spectrum 0
  /\ doa.estimator.value p = nth i spectrum 0.

(** What [findPeaks] returns for a spectrum and a source count K. *)
Definition findPeaksSpec (e : doa.estimator.Estimator) (spectrum : list R)
  (K : Z) (angles : list R) : Prop :=
  exists peaks,
    doa.estimator.findPeaks e spectrum K = Ret angles
    /\ (forall p, In p peaks <-> isStrictLocalMax spectrum p)
    /\ NoDup peaks
    /\ Permutation peaks (doa.estimator.localMaxima spectrum)
    /\ StronglySorted
         (fun a b => doa.estimator.value b <= doa.estimator.value a) peaks
    /\ angles = map (peakAngle (length spectrum)) (firstn (Z.to_nat K) peaks)
    /\ length angles = Nat.min (Z.to_nat K) (length peaks)
    /\ (length angles <= Z.to_nat K)%nat.

(** A spectrum with three strict local maxima, of values 1, 3 and 2 at
    the indices 1, 3 and 5. *)
Definition threePeaks : list R := [0; 1; 0; 3; 0; 2; 0].

(** What MUSIC's DOA estimation returns: on every input, if it returns;
    and that it returns on every valid input. *)
Definition musicAnglesSpec (e : doa.estimator.Estimator)
  (data : list complex128) (params : doa.estimator.DOAParams) : Prop :=
  (forall spectrum angles,
      doa.estimator.musicAlgorithm e data params = Ret (spectrum, angles) ->
      length spectrum = 360%nat
      /\ findPeaksSpec e spectrum (doa.estimator.NumSources params) angles)
  /\ (validMusicInput data params ->
      exists spectrum angles,
        doa.estimator.musicAlgorithm e data params = Ret (spectrum, angles)).

(** An estimator for the examples: two antennas, one source. *)
Definition smallConfig : doa.esprit.ESPRITConfig :=
  {| doa.esprit.NumAntennas := 2;
     doa.esprit.NumSources := 1;
     doa.esprit.ElementSpacing := 0.5;
     doa.esprit.SnapshotLength := 2;
     doa.esprit.SampleRate := 0;
     doa.esprit.CarrierFreq := 0 |}.

(** The K-by-K placeholder: [exp(j*i*pi/K)] on the diagonal. *)
Definition placeholderRotation (K : Z) : doa.mat.CDense :=
  map (fun i =>
         map (fun j =>
                if Nat.eqb i j
                then complex (cos (INR i * PI / IZR K)) (sin (INR i * PI / IZR K))
                else C0)
             (upto (Z.to_nat K)))
      (upto (Z.to_nat K)).

(** The shapes gonum documents for its factorizations of an n-by-n
    matrix: n eigenvalues and an n-by-n matrix of left singular vectors. *)
Definition documentedShapes (F : doa.mat.Factorizations) : Prop :=
  (forall a values,
      doa.mat.EigenValues a = Some values -> length values = length a)
  /\ (forall a u,
         doa.mat.SVD_U a = Some u ->
         length u = length a /\ Forall (fun row => length row = length a) u).

(** A configuration with [M] antennas and [K] sources. *)
Definition configMK (M K : Z) : doa.esprit.ESPRITConfig :=
  {| doa.esprit.NumAntennas := M;
     doa.esprit.NumSources := K;
     doa.esprit.ElementSpacing := 0.5;
     doa.esprit.SnapshotLength := 2;
     doa.esprit.SampleRate := 0;
     doa.esprit.CarrierFreq := 0 |}.

(** The two errors [EstimateDOA] returns after the dimension check. *)
Definition svdFailed : doa.error :=
  doa.Wrapf "extract signal subspace failed: %w"
            (doa.Errorf "SVD factorization failed" []).

Definition subspaceTooSmall : doa.error :=
  doa.Wrapf "esprit core computation failed: %w"
            (doa.Errorf "signal subspace too small" []).

(** What [EstimateDOA] does for two or more sources: it never produces
    estimates, and on a rectangular signal with fewer sources than
    antennas it returns one of the two errors, leaving the estimator
    unchanged. *)
Definition espritErrorSpec (F : doa.mat.Factorizations)
  (e : doa.esprit.ESPRITEstimator) : Prop :=
  (forall signal result e',
      doa.esprit.EstimateDOA e signal <> Ret (inl result, e'))
  /\ (forall signal N,
         documentedShapes F ->
         (doa.esprit.NumSources (doa.esprit.config e)
          < doa.esprit.NumAntennas (doa.esprit.config e))%Z ->
         Z.of_nat (length signal) = doa.esprit.NumAntennas (doa.esprit.config e) ->
         Forall (fun row => length row = N) signal ->
         exists rc,
           doa.esprit.realCov (covarianceOf signal N) = Ret rc
           /\ doa.esprit.EstimateDOA e signal
              = Ret (inr (match doa.mat.SVD_U rc with
                          | None => svdFailed
                          | Some _ => subspaceTooSmall
                          end), e)).

(** Estimators that have not run yet. *)
Definition freshEstimator (M K : Z) : doa.esprit.ESPRITEstimator :=
  {| doa.esprit.config := configMK M K;
     doa.esprit.covMatrix := None;
     doa.esprit.signalSubspace := None;
     doa.esprit.noiseSubspace := None |}.

(** The value every call of [randNorm] returns. *)
Definition gaussianConstant : R :=
  sqrt (-2 * ln (123456789 / 1073741824))
  * cos (2 * PI * (123456789 / 1073741824)).

(** Two outcomes are related when both return related values or both
    stop the same way. *)
Definition go_rel {A : Type} (P : A -> A -> Prop) (o1 o2 : go A) : Prop :=
  match o1, o2 with
  | Ret a1, Ret a2 => P a1 a2
  | Panic, Panic => True
  | OutOfFuel, OutOfFuel => True
  | _, _ => False
  end.

(** Two results with estimator state agree on the result and on the
    configuration the estimator is left with. *)
Definition sameOutput {A : Type} (x y : A * doa.esprit.ESPRITEstimator) : Prop :=
  fst x = fst y /\ doa.esprit.config (snd x) = doa.esprit.config (snd y).

(** The noise-free part of sample [(m, t)] of the test signal. *)
Definition cleanSample (cfg : doa.esprit.ESPRITConfig) (trueAngles : list R)
  (m t : nat) : complex128 :=
  Csum (fun k =>
          Cmul (Exp (complex 0 (2 * PI * INR m * doa.esprit.ElementSpacing cfg
                                * sin (nth k trueAngles 0))))
               (Exp (complex 0 (2 * PI * INR t * 0.01))))
       (upto (length trueAngles)).

(** The one "noise" sample added to every entry. *)
Definition noiseSample (snrDB : R) : complex128 :=
  let sigma := sqrt (1 / Rpower 10 (snrDB / 10) / 2) in
  complex (gaussianConstant * sigma) (gaussianConstant * sigma).

(** What two runs on estimators of equal configuration have in common. *)
Definition deterministicSpec (F : doa.mat.Factorizations) (fuel1 fuel2 : nat)
  (e1 e2 : doa.esprit.ESPRITEstimator) (trueAngles : list R) (snrDB : R)
  (snrRange : list R) (numTrials : Z) : Prop :=
  doa.esprit.randFloat64 = 123456789 / 1073741824
  /\ doa.esprit.randNorm fuel1 = Ret gaussianConstant
  /\ doa.esprit.randNorm fuel2 = Ret gaussianConstant
  /\ doa.esprit.GenerateTestSignal fuel1 e1 trueAngles snrDB
     = doa.esprit.GenerateTestSignal fuel2 e2 trueAngles snrDB
  /\ ((0 <= doa.esprit.NumAntennas (doa.esprit.config e1))%Z ->
      (0 <= doa.esprit.SnapshotLength (doa.esprit.config e1))%Z ->
      doa.esprit.GenerateTestSignal fuel1 e1 trueAngles snrDB
      = Ret (map (fun m =>
                    map (fun t =>
                           Cadd (cleanSample (doa.esprit.config e1) trueAngles m t)
                                (noiseSample snrDB))
                        (upto (Z.to_nat (doa.esprit.SnapshotLength
                                           (doa.esprit.config e1)))))
                 (upto (Z.to_nat (doa.esprit.NumAntennas
                                    (doa.esprit.config e1))))))
  /\ go_rel sameOutput
       (doa.esprit.MonteCarloSimulation fuel1 e1 trueAngles snrRange numTrials)
       (doa.esprit.MonteCarloSimulation fuel2 e2 trueAngles snrRange numTrials)
  /\ (forall result e',
         doa.esprit.EstimateWithPerformance fuel1 e1 trueAngles snrDB
         = Ret (inl result, e') ->
         forall trials totalRMSE successCount,
         exists e'',
           doa.esprit.trialLoop fuel1 trials e1 trueAngles snrDB
             totalRMSE successCount
           = Ret (Nat.iter trials (fun t => doa.xadd t (doa.esprit.RMSE result))
                           totalRMSE,
                  (successCount
                   + (if doa.xltb (doa.esprit.RMSE result) 0.1
                      then Z.of_nat trials else 0))%Z,
                  e'')).

(** An estimator that has already stored matrices of an earlier call. *)
Definition usedEstimator (M K : Z) : doa.esprit.ESPRITEstimator :=
  {| doa.esprit.config := configMK M K;
     doa.esprit.covMatrix := Some [[C1]];
     doa.esprit.signalSubspace := Some [[C1]];
     doa.esprit.noiseSubspace := None |}.

(** ** Definitions for the further properties *)

(** The integer [math.Round] returns. *)
Definition RoundZ (x : R) : Z :=
  if Rle_dec 0 x then Int_part (x + / 2) else (- Int_part (- x + / 2))%Z.

(** The step of a [bits]-bit phase shifter. *)
Definition quantStep (bits : Z) : R := 2 * PI / IZR (2 ^ bits).

(** [m] is the first index at which [pattern] takes its maximum. *)
Definition firstMaxIndex (pattern : list R) (m : nat) : Prop :=
  (m < length pattern)%nat
  /\ (forall i, (i < length pattern)%nat -> nth i pattern 0 <= nth m pattern 0)
  /\ (forall i, (i < m)%nat -> nth i pattern 0 < nth m pattern 0).

(** The complex weights that a result serializes as [re, im] pairs. *)
Definition weightsOf (result : beamforming.BeamformingResult) : list complex128 :=
  map (fun c => complex (nth 0 c 0) (nth 1 c 0)) (beamforming.Weights result).

(** What a result of [Optimize] looks like. *)
Definition optimizeResultSpec (o : beamforming.Optimizer)
  (params : beamforming.BeamformingParams)
  (result : beamforming.BeamformingResult) : Prop :=
  Z.of_nat (length (beamforming.Weights result)) = beamforming.ElementCount params
  /\ Forall (fun c => length c = 2%nat) (beamforming.Weights result)
  /\ length (beamforming.BeamPattern result) = 360%nat
  /\ (0 <= beamforming.Iterations result <= Z.max 0 (beamforming.maxIterations o))%Z
  /\ (beamforming.Converged result = false ->
      beamforming.Iterations result = Z.max 0 (beamforming.maxIterations o))
  /\ (beamforming.Converged result = true ->
      beamforming.checkConvergence o (weightsOf result)
        (beamforming.TargetDirection params) (beamforming.SNRThreshold params)
      = true)
  /\ - (PI / 2) <= beamforming.MainLobeDirection result < PI / 2
  /\ 0 <= beamforming.MainLobeWidth result < PI
  /\ 0 <= beamforming.SLL result.

(** The parameters of the broadside example with two interference
    angles and another iteration limit. *)
Definition broadside2Jammed : beamforming.BeamformingParams :=
  {| beamforming.ElementCount := 2;
     beamforming.TargetDirection := 0;
     beamforming.InterferenceAngles := [0.5; -0.5];
     beamforming.SNRThreshold := 0.9;
     beamforming.MaxIterations := 7 |}.

(** The broadside example with a threshold no two-element array can
    reach ([2 > sqrt 2]), and with the threshold 0. *)
Definition broadside2Strict : beamforming.BeamformingParams :=
  {| beamforming.ElementCount := 2;
     beamforming.TargetDirection := 0;
     beamforming.InterferenceAngles := [];
     beamforming.SNRThreshold := 2;
     beamforming.MaxIterations := 100 |}.

Definition broadside2Lax : beamforming.BeamformingParams :=
  {| beamforming.ElementCount := 2;
     beamforming.TargetDirection := 0;
     beamforming.InterferenceAngles := [];
     beamforming.SNRThreshold := 0;
     beamforming.MaxIterations := 100 |}.

(** The correlation [sum_m w_m * s_m] of the weights with the target
    steering vector, which every entry of the gradient shares. *)
Definition correlation (targetSteering weights : list complex128) (len : nat)
  : complex128 :=
  Csum (fun m => Cmul (nth m weights C0) (nth m targetSteering C0)) (upto len).

(** The step size [0.1 / (iterations + 1)], a real number. *)
Definition stepLength (iterations : Z) : R := 0.1 / IZR (iterations + 1).

(** The weights of [gradientStep] after the additive step, before they
    are normalized. *)
Definition steppedWeights (targetSteering : list complex128) (len : nat)
  (iterations : Z) (weights : list complex128) : list complex128 :=
  map (fun n =>
         Cadd (nth n weights C0)
              (Cmul (Cdiv (complex 0.1 0) (complex (float64 (iterations + 1)) 0))
                    (nth n
                       (map (fun n =>
                               Csum (fun m =>
                                       Cmul (Cmul (nth m weights C0)
                                                  (Conj (nth n targetSteering C0)))
                                            (nth m targetSteering C0))
                                    (upto len))
                            (upto len)) C0)))
      (upto len).

(** The angles the ESPRIT branch of [Estimate] returns for [K] sources:
    the grid [-pi/4 + i*pi/(2K)]. *)
Definition espritGrid (K : Z) : list R :=
  map (fun i => - PI / 4 + INR i * PI / (2 * IZR K)) (upto (Z.to_nat K)).

(** A result of [Estimate]: the unset fields keep their zero values. *)
Definition doaResult (spectrum angles : list R) : doa.estimator.DOAResult :=
  {| doa.estimator.EstimatedAngles := angles;
     doa.estimator.Spectrum := spectrum;
     doa.estimator.TrueAngles := [];
     doa.estimator.RMSE := 0 |}.

(** The mean squared magnitude of row [i], the "eigenvalue"
    [eigenDecomposition] computes for it. *)
Definition rowPower (matrix : list (list complex128)) (i : nat) : R :=
  Rsum (fun j => Abs (nth j (nth i matrix []) C0) * Abs (nth j (nth i matrix []) C0))
       (upto (length matrix))
  / INR (length matrix).

(** The error [EstimateDOA] returns for a signal of [rows] rows when
    [M] antennas are configured. *)
Definition dimensionMismatch (M : Z) (rows : nat) : doa.error :=
  doa.Errorf "signal dimension mismatch: expected %d antennas, got %d"
             [M; Z.of_nat rows].

(** The clamp [extractAngles] applies to the sine before [math.Asin]. *)
Definition clampSine (s : R) : R :=
  if Rgtb s 1 then 1 else if Rltb s (-1) then -1 else s.

(** The angle derived from a diagonal entry [z] of the rotation operator,
    for an element spacing of [d] wavelengths. *)
Definition espritAngle (d : R) (z : complex128) : R :=
  asin (clampSine (Phase z / (2 * PI * d))).

(** The angles [extractAngles] returns for [K] sources. *)
Definition extractedAngles (d : R) (psi : doa.mat.CDense) (K : Z) : list R :=
  map (fun i =>
         if Nat.ltb i (length psi)
         then espritAngle d (nth i (nth i psi []) C0)
         else - PI / 4 + INR i * PI / (2 * IZR K))
      (upto (Z.to_nat K)).

(** A stand-in for gonum that extends the scalar one to 2-by-2 diagonal
    matrices [diag(x, t)] with [x >= t >= 0]: the left singular vectors
    are the unit vectors and the eigenvalues are [x] and [t]. *)
Definition diagonalSVD_U (a : doa.mat.Dense) : option doa.mat.Dense :=
  match a with
  | [[x; y]; [z; t]] =>
      if (Reqb y 0 && Reqb z 0 && Rgeb x t && Rgeb t 0)%bool
      then Some [[1; 0]; [0; 1]] else None
  | _ => scalarSVD_U a
  end.

Definition diagonalEigenValues (a : doa.mat.Dense) : option (list complex128) :=
  match a with
  | [[x; y]; [z; t]] =>
      if (Reqb y 0 && Reqb z 0)%bool
      then Some [complex x 0; complex t 0] else None
  | _ => scalarEigenValues a
  end.

Definition diagonalFactorizations : doa.mat.Factorizations :=
  {| doa.mat.Inverse := scalarInverse;
     doa.mat.SVD_U := diagonalSVD_U;
     doa.mat.EigenValues := diagonalEigenValues |}.

(** Two antennas, two snapshots: antenna 0 receives in the first
    snapshot only, antenna 1 in the second only. *)
Definition orthogonalSignal : list (list complex128) := [[C1; C0]; [C0; C1]].

(** The entry [MonteCarloSimulation] stores for an SNR at which every
    trial returned an error. *)
Definition allTrialsFailed : doa.esprit.ESPRITResult :=
  {| doa.esprit.Angles := [];
     doa.esprit.RMSE := doa.Fin 0;
     doa.esprit.SuccessRate := 0;
     doa.esprit.ProcessingTime := 0;
     doa.esprit.Eigenvalues := [] |}.

(** The comparison [CompareWithMUSIC] builds from an ESPRIT result. *)
Definition comparisonOf (espritResult : doa.esprit.ESPRITResult)
  (trueAngles : list R) : list (string * doa.esprit.value) :=
  [("esprit_rmse"%string, doa.esprit.Float (doa.esprit.RMSE espritResult));
   ("music_rmse"%string,
    doa.esprit.Float (doa.Fin (0.05 * Rabs gaussianConstant)));
   ("esprit_angles"%string, doa.esprit.Floats (doa.esprit.Angles espritResult));
   ("music_angles"%string,
    doa.esprit.Floats (map (fun a => a + gaussianConstant * 0.05) trueAngles));
   ("true_angles"%string, doa.esprit.Floats trueAngles)].

(** What the TLS variant returns once the SVD has succeeded on a signal
    of [rows] rows: a panic when only one row more than sources is
    given, otherwise [K] angles fixed by [K] and the element spacing. *)
Definition tlsOutcome (e : doa.esprit.TLS_ESPRITEstimator) (rows : nat)
  (outcome : go (doa.esprit.ESPRITResult + doa.error)) : Prop :=
  let K := doa.esprit.NumSources (doa.esprit.config (doa.esprit.embedded e)) in
  let d := doa.esprit.ElementSpacing (doa.esprit.config (doa.esprit.embedded e)) in
  if (Z.of_nat rows =? K + 1)%Z then outcome = Panic
  else
    exists result,
      outcome = Ret (inl result)
      /\ Z.of_nat (length (doa.esprit.Angles result)) = K
      /\ forall i, (Z.of_nat i < K)%Z -> 0 < d -> INR i <= IZR K * d ->
           nth i (doa.esprit.Angles result) 0 = asin (INR i / (IZR K * d)).

(** The squared magnitude of a complex number. *)
Definition Cnorm2 (x : complex128) : R := real x * real x + imag x * imag x.

(** The determinant of the 2-by-2 matrix [[a, b], [c, d]]. *)
Definition det2 (a b c d : complex128) : complex128 :=
  Csub (Cmul a d) (Cmul b c).

(** The adjugate of [[a, b], [c, d]] divided by its determinant. *)
Definition inverse2 (a b c d : complex128) : list (list complex128) :=
  let det := det2 a b c d in
  [[Cdiv d det; Cdiv (Csub C0 b) det]; [Cdiv (Csub C0 c) det; Cdiv a det]].

(** An entry of the Monte Carlo map that records no success: success
    rate 0 and an average RMSE of 0 (no trial counted) or +Inf. *)
Definition noSuccess (r : doa.esprit.ESPRITResult) : Prop :=
  doa.esprit.SuccessRate r = 0
  /\ (doa.esprit.RMSE r = doa.Fin 0 \/ doa.esprit.RMSE r = doa.PosInf).

(** * Properties *)

(** ** The outcome monad and the loops *)

Lemma bind_Ret {A B : Type} (c : go A) (k : A -> go B) (b : B) :
  bind c k = Ret b -> exists a, c = Ret a /\ k a = Ret b.
Proof.
  destruct c as [a| |]; simpl; intros H; try discriminate.
  exists a; split; [reflexivity | assumption].
Qed.

Lemma elemAt_Ret {A : Type} (xs : list A) (i : nat) (d : A) :
  (i < length xs)%nat -> elemAt xs i = Ret (nth i xs d).
Proof.
  intros H. unfold elemAt.
  rewrite (nth_error_nth' xs d H). reflexivity.
Qed.

Lemma mapM_pure {A B : Type} (g : A -> B) (xs : list A) :
  mapM (fun x => Ret (g x)) xs = Ret (map g xs).
Proof.
  induction xs as [|x xs IH]; simpl; [reflexivity |].
  rewrite IH. reflexivity.
Qed.

Lemma mapM_ext_in {A B : Type} (f g : A -> go B) (xs : list A) :
  (forall x, In x xs -> f x = g x) -> mapM f xs = mapM g xs.
Proof.
  induction xs as [|x xs IH]; simpl; intros H; [reflexivity |].
  rewrite (H x (or_introl eq_refl)), IH; [reflexivity |].
  intros y Hy. apply H. right. assumption.
Qed.

Lemma mapM_length {A B : Type} (f : A -> go B) (xs : list A) (ys : list B) :
  mapM f xs = Ret ys -> length ys = length xs.
Proof.
  revert ys. induction xs as [|x xs IH]; simpl; intros ys H.
  - inversion H. reflexivity.
  - apply bind_Ret in H. destruct H as [y [_ H]].
    apply bind_Ret in H. destruct H as [ys' [H1 H]].
    inversion H. simpl. f_equal. apply IH. assumption.
Qed.

Lemma nth_upto (n i d : nat) : (i < n)%nat -> nth i (upto n) d = i.
Proof. intros H. unfold upto. rewrite seq_nth; [reflexivity | assumption]. Qed.

Lemma length_upto (n : nat) : length (upto n) = n.
Proof. apply length_seq. Qed.

Lemma in_upto (n i : nat) : In i (upto n) <-> (i < n)%nat.
Proof. unfold upto. rewrite in_seq. lia. Qed.

Lemma make_len_nonneg (n : Z) : (0 <= n)%Z -> make_len n = Ret (Z.to_nat n).
Proof.
  intros H. unfold make_len.
  destruct (n <? 0)%Z eqn:E; [apply Z.ltb_lt in E; lia | reflexivity].
Qed.

(** ** Sums and complex arithmetic *)

Lemma Rsum_acc {A : Type} (f : A -> R) (xs : list A) (a : R) :
  fold_left (fun acc x => acc + f x) xs a = a + Rsum f xs.
Proof.
  unfold Rsum. revert a. induction xs as [|x xs IH]; simpl; intros a.
  - lra.
  - rewrite (IH (a + f x)), (IH (0 + f x)). lra.
Qed.

Lemma Rsum_cons {A : Type} (f : A -> R) (x : A) (xs : list A) :
  Rsum f (x :: xs) = f x + Rsum f xs.
Proof.
  unfold Rsum at 1. simpl. rewrite Rsum_acc. lra.
Qed.

Lemma Rsum_nil {A : Type} (f : A -> R) : Rsum f [] = 0.
Proof. reflexivity. Qed.

Lemma Rsum_nonneg {A : Type} (f : A -> R) (xs : list A) :
  (forall x, 0 <= f x) -> 0 <= Rsum f xs.
Proof.
  intros H. induction xs as [|x xs IH].
  - rewrite Rsum_nil. lra.
  - rewrite Rsum_cons. specialize (H x). lra.
Qed.

Lemma Rsum_map {A B : Type} (f : B -> R) (g : A -> B) (xs : list A) :
  Rsum f (map g xs) = Rsum (fun x => f (g x)) xs.
Proof.
  induction xs as [|x xs IH]; simpl.
  - reflexivity.
  - rewrite !Rsum_cons, IH. reflexivity.
Qed.

Lemma Rsum_ext_in {A : Type} (f g : A -> R) (xs : list A) :
  (forall x, In x xs -> f x = g x) -> Rsum f xs = Rsum g xs.
Proof.
  induction xs as [|x xs IH]; intros H.
  - reflexivity.
  - rewrite !Rsum_cons, (H x (or_introl eq_refl)), IH; [reflexivity |].
    intros y Hy. apply H. right. assumption.
Qed.

Lemma Rsum_scale {A : Type} (f : A -> R) (c : R) (xs : list A) :
  Rsum (fun x => f x * c) xs = Rsum f xs * c.
Proof.
  induction xs as [|x xs IH].
  - rewrite !Rsum_nil. lra.
  - rewrite !Rsum_cons, IH. lra.
Qed.

Lemma Rsum_const {A : Type} (c : R) (xs : list A) :
  Rsum (fun _ => c) xs = INR (length xs) * c.
Proof.
  induction xs as [|x xs IH].
  - rewrite Rsum_nil. simpl. lra.
  - rewrite Rsum_cons, IH.
    change (length (x :: xs)) with (S (length xs)). rewrite S_INR. lra.
Qed.

Lemma complex_eq (x y : complex128) :
  real x = real y -> imag x = imag y -> x = y.
Proof. destruct x, y; simpl; intros -> ->; reflexivity. Qed.

Lemma Cadd_0_l (x : complex128) : Cadd C0 x = x.
Proof. apply complex_eq; simpl; lra. Qed.

Lemma Cadd_assoc (x y z : complex128) : Cadd (Cadd x y) z = Cadd x (Cadd y z).
Proof. apply complex_eq; simpl; lra. Qed.

Lemma Csum_acc {A : Type} (f : A -> complex128) (xs : list A) (a : complex128) :
  fold_left (fun acc x => Cadd acc (f x)) xs a = Cadd a (Csum f xs).
Proof.
  unfold Csum. revert a. induction xs as [|x xs IH]; simpl; intros a.
  - apply complex_eq; simpl; lra.
  - rewrite (IH (Cadd a (f x))), (IH (Cadd C0 (f x))).
    apply complex_eq; simpl; lra.
Qed.

Lemma Csum_cons {A : Type} (f : A -> complex128) (x : A) (xs : list A) :
  Csum f (x :: xs) = Cadd (f x) (Csum f xs).
Proof.
  unfold Csum at 1. simpl. rewrite Csum_acc. apply complex_eq; simpl; lra.
Qed.

Lemma Csum_nil {A : Type} (f : A -> complex128) : Csum f [] = C0.
Proof. reflexivity. Qed.

Lemma Csum_ext_in {A : Type} (f g : A -> complex128) (xs : list A) :
  (forall x, In x xs -> f x = g x) -> Csum f xs = Csum g xs.
Proof.
  induction xs as [|x xs IH]; intros H.
  - reflexivity.
  - rewrite !Csum_cons, (H x (or_introl eq_refl)), IH; [reflexivity |].
    intros y Hy. apply H. right. assumption.
Qed.

Lemma Abs_sqr (x : complex128) :
  Abs x * Abs x = real x * real x + imag x * imag x.
Proof.
  unfold Abs. apply sqrt_sqrt. nra.
Qed.

Lemma Abs_Exp_imag (phase : R) : Abs (Exp (complex 0 phase)) = 1.
Proof.
  unfold Abs, Exp; simpl. rewrite exp_0.
  replace (1 * cos phase * (1 * cos phase) + 1 * sin phase * (1 * sin phase))
    with ((sin phase)² + (cos phase)²) by (unfold Rsqr; lra).
  rewrite sin2_cos2. apply sqrt_1.
Qed.

Lemma Abs_sqr_Cdiv_real (x : complex128) (n : R) :
  n <> 0 ->
  Abs (Cdiv x (complex n 0)) * Abs (Cdiv x (complex n 0))
  = (Abs x * Abs x) / (n * n).
Proof.
  intros Hn. rewrite !Abs_sqr. unfold Cdiv; simpl. field. nra.
Qed.

(** ** Normalization *)

Lemma normalize_length (weights : list complex128) :
  length (beamforming.normalize weights) = length weights.
Proof. unfold beamforming.normalize. apply length_map. Qed.

Lemma normalize_unit (weights : list complex128) :
  0 < Rsum (fun w => Abs w * Abs w) weights ->
  norm2 (beamforming.normalize weights) = 1.
Proof.
  intros Hpos. unfold norm2, beamforming.normalize.
  set (S := Rsum (fun w => Abs w * Abs w) weights) in *.
  assert (Hn : sqrt S <> 0).
  { intros H0. apply sqrt_eq_0 in H0; lra. }
  rewrite Rsum_map.
  rewrite (Rsum_ext_in _ (fun w => Abs w * Abs w * / (sqrt S * sqrt S))).
  - rewrite Rsum_scale. fold S. rewrite sqrt_sqrt by lra.
    replace (S * / S) with 1 by (field; lra). apply sqrt_1.
  - intros w _. rewrite Abs_sqr_Cdiv_real by assumption. reflexivity.
Qed.

Lemma normalizeWeights_eq (weights : list complex128) :
  beamforming.normalizeWeights weights = beamforming.normalize weights.
Proof. reflexivity. Qed.

Lemma mapM_Ret_in {A B : Type} (f : A -> go B) (g : A -> B) (xs : list A) :
  (forall x, In x xs -> f x = Ret (g x)) -> mapM f xs = Ret (map g xs).
Proof.
  intros H. rewrite (mapM_ext_in f (fun x => Ret (g x))) by assumption.
  apply mapM_pure.
Qed.

Lemma foldM_Ret_in {A B : Type} (f : B -> A -> go B) (g : B -> A -> B)
  (xs : list A) (acc : B) :
  (forall b x, In x xs -> f b x = Ret (g b x)) ->
  foldM f xs acc = Ret (fold_left g xs acc).
Proof.
  revert acc. induction xs as [|x xs IH]; simpl; intros acc H; [reflexivity |].
  rewrite (H acc x (or_introl eq_refl)). simpl.
  apply IH. intros b y Hy. apply H. right. assumption.
Qed.

Lemma nth_map_upto {A : Type} (f : nat -> A) (n i : nat) (d : A) :
  (i < n)%nat -> nth i (map f (upto n)) d = f i.
Proof.
  intros H. rewrite (nth_indep _ d (f 0%nat)) by (rewrite length_map, length_upto; lia).
  rewrite (map_nth f (upto n) 0%nat i), nth_upto by assumption. reflexivity.
Qed.

(** ** Closed-form weight synthesis *)

Lemma conjugate_energy (spacing angle : R) (len : nat) :
  Rsum (fun w => Abs w * Abs w)
       (map (fun n => Exp (complex 0 (- (2 * PI * float64n n * spacing * sin angle))))
            (upto len))
  = INR len.
Proof.
  rewrite Rsum_map.
  rewrite (Rsum_ext_in _ (fun _ => 1)).
  - rewrite Rsum_const, length_upto. lra.
  - intros n _. rewrite Abs_Exp_imag. lra.
Qed.

Lemma ComputeConjugateBeamforming_unit (w : beamforming.WeightsCalculator)
  (targetAngle : R) :
  (1 <= beamforming.elementCount w)%Z ->
  exists ws,
    beamforming.ComputeConjugateBeamforming w targetAngle = Ret ws
    /\ Z.of_nat (length ws) = beamforming.elementCount w
    /\ norm2 ws = 1.
Proof.
  intros HM. unfold beamforming.ComputeConjugateBeamforming.
  rewrite make_len_nonneg by lia. simpl.
  eexists. split; [reflexivity |]. split.
  - rewrite normalize_length, length_map, length_upto. lia.
  - apply normalize_unit. rewrite conjugate_energy.
    apply lt_0_INR. lia.
Qed.

Lemma Rsum_pos_in {A : Type} (f : A -> R) (xs : list A) (x : A) :
  (forall y, 0 <= f y) -> In x xs -> 0 < f x -> 0 < Rsum f xs.
Proof.
  intros Hnn. induction xs as [|y xs IH]; simpl; intros Hin Hx; [contradiction |].
  rewrite Rsum_cons. destruct Hin as [->|Hin].
  - pose proof (Rsum_nonneg f xs Hnn). lra.
  - specialize (IH Hin Hx). specialize (Hnn y). lra.
Qed.

Lemma Abs_sqr_pos (x : complex128) : x <> C0 -> 0 < Abs x * Abs x.
Proof.
  intros Hx. rewrite Abs_sqr.
  destruct (Req_dec (real x) 0) as [Hr|Hr]; [| nra].
  destruct (Req_dec (imag x) 0) as [Hi|Hi]; [| nra].
  exfalso. apply Hx. apply complex_eq; simpl; assumption.
Qed.

Lemma Conj_eq_C0 (x : complex128) : Conj x = C0 -> x = C0.
Proof.
  unfold Conj, C0. intros H. inversion H. apply complex_eq; simpl; lra.
Qed.

Lemma ComputeZOFBeamforming_unit (w : beamforming.WeightsCalculator)
  (targetAngles : list R) :
  (1 <= beamforming.elementCount w)%Z ->
  exists ws,
    beamforming.ComputeZOFBeamforming w targetAngles = Ret ws
    /\ Z.of_nat (length ws) = beamforming.elementCount w
    /\ ((exists n, (Z.of_nat n < beamforming.elementCount w)%Z
                   /\ Csum (fun angle =>
                              Exp (complex 0 (2 * PI * float64n n
                                              * beamforming.elementSpacing w
                                              * sin angle)))
                           targetAngles <> C0)
        -> norm2 ws = 1).
Proof.
  intros HM. unfold beamforming.ComputeZOFBeamforming.
  rewrite make_len_nonneg by lia. simpl.
  eexists. split; [reflexivity |]. split.
  - rewrite normalize_length, length_map, length_upto. lia.
  - intros [n [Hn Hne]]. apply normalize_unit.
    rewrite Rsum_map.
    apply (Rsum_pos_in _ (upto (Z.to_nat (beamforming.elementCount w))) n).
    + intros y. rewrite Abs_sqr. nra.
    + apply in_upto. lia.
    + apply Abs_sqr_pos. intros H0. apply Hne. apply Conj_eq_C0. exact H0.
Qed.

Lemma augmentedRow_Ret (matrix : list (list complex128)) (i : nat) :
  (i < length matrix)%nat ->
  Forall (fun row => (length matrix <= length row)%nat) matrix ->
  beamforming.augmentedRow matrix (length matrix) i
  = Ret (map (fun j => nth j (nth i matrix []) C0) (upto (length matrix))
         ++ map (fun j => if Nat.eqb j i then C1 else C0) (upto (length matrix))).
Proof.
  intros Hi Hrows. unfold beamforming.augmentedRow.
  rewrite (elemAt_Ret matrix [] Hi). simpl.
  rewrite (mapM_Ret_in _ (fun j => nth j (nth i matrix []) C0)).
  - reflexivity.
  - intros j Hj. apply in_upto in Hj. apply elemAt_Ret.
    rewrite Forall_forall in Hrows.
    specialize (Hrows (nth i matrix []) (nth_In matrix [] Hi)). lia.
Qed.

Lemma matrixInverse_Ret (matrix : list (list complex128)) :
  Forall (fun row => (length matrix <= length row)%nat) matrix ->
  exists inv,
    beamforming.matrixInverse matrix = Ret inv
    /\ length inv = length matrix
    /\ Forall (fun row => length row = length matrix) inv.
Proof.
  intros Hrows. unfold beamforming.matrixInverse.
  rewrite (mapM_Ret_in _ (fun i =>
             map (fun j => nth j (nth i matrix []) C0) (upto (length matrix))
             ++ map (fun j => if Nat.eqb j i then C1 else C0) (upto (length matrix)))).
  - simpl. eexists. split; [reflexivity |]. split.
    + rewrite length_map, length_upto. reflexivity.
    + apply Forall_forall. intros row Hrow.
      apply in_map_iff in Hrow. destruct Hrow as [i [<- _]].
      rewrite length_map, length_upto. reflexivity.
  - intros i Hi. apply in_upto in Hi. apply augmentedRow_Ret; assumption.
Qed.

Lemma ComputeMVDRWeights_Ret (w : beamforming.WeightsCalculator)
  (covMatrix : list (list complex128)) (steeringVector : list complex128) :
  (length steeringVector <= length covMatrix)%nat ->
  Forall (fun row => (length covMatrix <= length row)%nat) covMatrix ->
  exists inv,
    beamforming.matrixInverse covMatrix = Ret inv
    /\ beamforming.ComputeMVDRWeights w covMatrix steeringVector
       = Ret (map (fun wi => Cdiv wi (response steeringVector
                                                (matVec inv steeringVector)))
                  (matVec inv steeringVector)).
Proof.
  intros Hlen Hrows.
  destruct (matrixInverse_Ret Hrows) as [inv [Hinv [Hn Hsq]]].
  exists inv. split; [assumption |].
  unfold beamforming.ComputeMVDRWeights. rewrite Hinv. simpl.
  rewrite (mapM_Ret_in _ (fun i =>
             Csum (fun j => Cmul (nth j (nth i inv []) C0) (nth j steeringVector C0))
                  (upto (length steeringVector)))).
  - reflexivity.
  - intros i Hi. apply in_upto in Hi.
    apply (foldM_Ret_in _ (fun sum j =>
             Cadd sum (Cmul (nth j (nth i inv []) C0) (nth j steeringVector C0)))).
    intros sum j Hj. apply in_upto in Hj.
    rewrite (elemAt_Ret inv []) by lia. simpl.
    rewrite (elemAt_Ret (nth i inv []) C0).
    + simpl. rewrite (elemAt_Ret steeringVector C0) by assumption. reflexivity.
    + rewrite Forall_forall in Hsq.
      rewrite (Hsq (nth i inv [])); [lia |]. apply nth_In. lia.
Qed.

Lemma Cdiv_C0 (d : complex128) : Cdiv C0 d = C0.
Proof. unfold Cdiv, C0; simpl. apply complex_eq; simpl; unfold Rdiv; ring. Qed.

Lemma Cdiv_Cadd (x y d : complex128) :
  Cdiv (Cadd x y) d = Cadd (Cdiv x d) (Cdiv y d).
Proof. unfold Cdiv, Cadd; simpl. apply complex_eq; simpl; unfold Rdiv; ring. Qed.

Lemma Cmul_Cdiv (x y d : complex128) :
  Cmul x (Cdiv y d) = Cdiv (Cmul x y) d.
Proof. unfold Cdiv, Cmul; simpl. apply complex_eq; simpl; unfold Rdiv; ring. Qed.

Lemma Cdiv_diag (d : complex128) : d <> C0 -> Cdiv d d = C1.
Proof.
  intros Hd. pose proof (Abs_sqr_pos Hd) as Hp. rewrite Abs_sqr in Hp.
  unfold Cdiv, C1. apply complex_eq; simpl; field; lra.
Qed.

Lemma Csum_Cdiv {A : Type} (f : A -> complex128) (d : complex128) (xs : list A) :
  Csum (fun x => Cdiv (f x) d) xs = Cdiv (Csum f xs) d.
Proof.
  induction xs as [|x xs IH].
  - rewrite !Csum_nil, Cdiv_C0. reflexivity.
  - rewrite !Csum_cons, IH, Cdiv_Cadd. reflexivity.
Qed.

(** Scaling by the response makes the response one. *)
Lemma response_scaled (a u : list complex128) :
  response a u <> C0 ->
  response a (map (fun x => Cdiv x (response a u)) u) = C1.
Proof.
  intros Hd. set (d := response a u) in *.
  unfold response.
  rewrite (Csum_ext_in _ (fun i => Cdiv (Cmul (Conj (nth i a C0)) (nth i u C0)) d)).
  - rewrite Csum_Cdiv. fold (response a u). fold d. apply Cdiv_diag. assumption.
  - intros i _.
    pose proof (map_nth (fun x => Cdiv x d) u C0 i) as Hnth.
    simpl in Hnth. rewrite Cdiv_C0 in Hnth.
    rewrite Hnth, Cmul_Cdiv. reflexivity.
Qed.

(** Evaluation of complex arithmetic on the constants of the examples. *)
Lemma Cdiv_C1_r (x : complex128) : Cdiv x C1 = x.
Proof. unfold Cdiv, C1; apply complex_eq; simpl; field. Qed.

Lemma Cmul_C0_l (x : complex128) : Cmul C0 x = C0.
Proof. unfold Cmul, C0; apply complex_eq; simpl; ring. Qed.

Lemma Cmul_C0_r (x : complex128) : Cmul x C0 = C0.
Proof. unfold Cmul, C0; apply complex_eq; simpl; ring. Qed.

Lemma Cmul_C1_l (x : complex128) : Cmul C1 x = x.
Proof. unfold Cmul, C1; apply complex_eq; simpl; ring. Qed.

Lemma Cmul_C1_r (x : complex128) : Cmul x C1 = x.
Proof. unfold Cmul, C1; apply complex_eq; simpl; ring. Qed.

Lemma Csub_C0_r (x : complex128) : Csub x C0 = x.
Proof. unfold Csub, C0; apply complex_eq; simpl; ring. Qed.

Lemma Cadd_C0_r (x : complex128) : Cadd x C0 = x.
Proof. unfold Cadd, C0; apply complex_eq; simpl; ring. Qed.

Lemma Conj_C0 : Conj C0 = C0.
Proof. unfold Conj, C0; apply complex_eq; simpl; ring. Qed.

Lemma Conj_C1 : Conj C1 = C1.
Proof. unfold Conj, C1; apply complex_eq; simpl; ring. Qed.

Create Rewrite HintDb cx_eval.
#[global] Hint Rewrite Cdiv_C1_r Cmul_C0_l Cmul_C0_r Cmul_C1_l Cmul_C1_r
  Csub_C0_r Cadd_0_l Cadd_C0_r Conj_C0 Conj_C1 Cdiv_C0 : cx_eval.

Ltac run_go :=
  cbn -[Rplus Rmult Rminus Rdiv Ropp Rinv IZR INR sqrt sin cos exp PI
        Cadd Csub Cmul Cdiv Conj Abs Exp].

Lemma MVDR_identity2 (w : beamforming.WeightsCalculator) :
  beamforming.ComputeMVDRWeights w [[C1; C0]; [C0; C1]] [C1; C1]
  = Ret [complex (1 / 2) 0; complex (1 / 2) 0].
Proof.
  unfold beamforming.ComputeMVDRWeights, beamforming.matrixInverse.
  run_go. autorewrite with cx_eval.
  do 2 f_equal; [| f_equal]; unfold Cdiv, Cadd, C1; apply complex_eq; simpl; field.
Qed.

Lemma norm2_halves :
  norm2 [complex (1 / 2) 0; complex (1 / 2) 0]
  * norm2 [complex (1 / 2) 0; complex (1 / 2) 0] = 1 / 2.
Proof.
  unfold norm2. rewrite sqrt_sqrt.
  - rewrite !Rsum_cons, Rsum_nil, !Abs_sqr. simpl. lra.
  - apply Rsum_nonneg. intros x. rewrite Abs_sqr. nra.
Qed.

(** C5, as stated, fails for the MVDR operation: for the identity
    covariance of a two-element array and the broadside steering vector
    [1, 1], [ComputeMVDRWeights] returns [1/2, 1/2], whose squared norm
    is 1/2, so its norm is not 1. *)
Lemma C5_counterexample_mvdr_not_unit_norm :
  beamforming.ComputeMVDRWeights (beamforming.NewWeightsCalculator 2 0.5)
    [[C1; C0]; [C0; C1]] [C1; C1]
  = Ret [complex (1 / 2) 0; complex (1 / 2) 0]
  /\ norm2 [complex (1 / 2) 0; complex (1 / 2) 0]
     * norm2 [complex (1 / 2) 0; complex (1 / 2) 0] = 1 / 2
  /\ norm2 [complex (1 / 2) 0; complex (1 / 2) 0] <> 1.
Proof.
  split; [apply MVDR_identity2 |]. split; [apply norm2_halves |].
  intros H. pose proof norm2_halves as Hh. rewrite H in Hh. lra.
Qed.

(** *** The elimination of [matrixInverse] *)

Lemma Csum_app {A : Type} (f : A -> complex128) (xs ys : list A) :
  Csum f (xs ++ ys) = Cadd (Csum f xs) (Csum f ys).
Proof.
  induction xs as [|x xs IH]; simpl.
  - rewrite Csum_nil, Cadd_0_l. reflexivity.
  - rewrite !Csum_cons, IH, Cadd_assoc. reflexivity.
Qed.

Lemma Csum_zero {A : Type} (f : A -> complex128) (xs : list A) :
  (forall x, In x xs -> f x = C0) -> Csum f xs = C0.
Proof.
  induction xs as [|x xs IH]; intros H.
  - reflexivity.
  - rewrite Csum_cons, (H x (or_introl eq_refl)), IH, Cadd_0_l; [reflexivity |].
    intros y Hy. apply H. right. assumption.
Qed.

Lemma Csum_indicator (f : nat -> complex128) (n i : nat) :
  (i < n)%nat ->
  Csum (fun k => if Nat.eqb k i then f k else C0) (upto n) = f i.
Proof.
  induction n as [|n IH]; intros Hi; [lia |].
  unfold upto in *. rewrite seq_S, Csum_app. simpl.
  rewrite Csum_cons, Csum_nil, Cadd_C0_r.
  destruct (Nat.eqb n i) eqn:E.
  - apply Nat.eqb_eq in E. subst i.
    rewrite Csum_zero, Cadd_0_l; [reflexivity |].
    intros k Hk. apply in_seq in Hk.
    destruct (Nat.eqb k n) eqn:E'; [apply Nat.eqb_eq in E'; lia | reflexivity].
  - apply Nat.eqb_neq in E. rewrite IH by lia. apply Cadd_C0_r.
Qed.

Lemma Csum_Cmul_l {A : Type} (k : complex128) (f : A -> complex128) (xs : list A) :
  Csum (fun x => Cmul k (f x)) xs = Cmul k (Csum f xs).
Proof.
  induction xs as [|x xs IH].
  - rewrite !Csum_nil. apply complex_eq; simpl; ring.
  - rewrite !Csum_cons, IH. apply complex_eq; simpl; ring.
Qed.

Lemma eliminate_shape (n i : nat) (aug : list (list complex128)) :
  (i < n)%nat -> wellShaped n aug -> wellShaped n (beamforming.eliminate aug i).
Proof.
  intros Hi [Hlen Hrows]. unfold beamforming.eliminate. rewrite Hlen. split.
  - rewrite length_map, length_upto. reflexivity.
  - intros k Hk. rewrite (nth_map_upto _ [] Hk).
    destruct (Nat.eqb k i).
    + rewrite length_map. apply Hrows. assumption.
    + rewrite length_map, length_upto. reflexivity.
Qed.

Lemma eliminate_entry (n i k j : nat) (aug : list (list complex128)) :
  wellShaped n aug -> (i < n)%nat -> (k < n)%nat -> (j < 2 * n)%nat ->
  entry (beamforming.eliminate aug i) k j
  = if Nat.eqb k i then Cdiv (entry aug i j) (entry aug i i)
    else Csub (entry aug k j)
              (Cmul (entry aug k i) (Cdiv (entry aug i j) (entry aug i i))).
Proof.
  intros [Hlen Hrows] Hi Hk Hj. unfold entry, beamforming.eliminate.
  rewrite Hlen. rewrite (nth_map_upto _ [] Hk).
  assert (Hrow : forall j',
             nth j' (map (fun x => Cdiv x (nth i (nth i aug []) C0)) (nth i aug [])) C0
             = Cdiv (nth j' (nth i aug []) C0) (nth i (nth i aug []) C0)).
  { intros j'.
    pose proof (map_nth (fun x => Cdiv x (nth i (nth i aug []) C0))
                        (nth i aug []) C0 j') as H.
    cbv beta in H. rewrite Cdiv_C0 in H. exact H. }
  destruct (Nat.eqb k i).
  - apply Hrow.
  - rewrite (nth_map_upto _ C0 Hj). rewrite Hrow. reflexivity.
Qed.

Lemma augmented_shape (matrix : list (list complex128)) :
  wellShaped (length matrix) (augmented matrix).
Proof.
  unfold augmented. split.
  - rewrite length_map, length_upto. reflexivity.
  - intros k Hk. rewrite (nth_map_upto _ [] Hk).
    rewrite length_app, !length_map, !length_upto. lia.
Qed.

Lemma augmented_left (matrix : list (list complex128)) (k j : nat) :
  (k < length matrix)%nat -> (j < length matrix)%nat ->
  entry (augmented matrix) k j = entry matrix k j.
Proof.
  intros Hk Hj. unfold augmented. unfold entry at 1.
  rewrite (nth_map_upto _ [] Hk).
  rewrite app_nth1 by (rewrite length_map, length_upto; assumption).
  apply nth_map_upto. assumption.
Qed.

Lemma augmented_right (matrix : list (list complex128)) (k m : nat) :
  (k < length matrix)%nat -> (m < length matrix)%nat ->
  entry (augmented matrix) k (length matrix + m)
  = if Nat.eqb m k then C1 else C0.
Proof.
  intros Hk Hm. unfold augmented. unfold entry at 1.
  rewrite (nth_map_upto _ [] Hk).
  rewrite app_nth2 by (rewrite length_map, length_upto; lia).
  rewrite length_map, length_upto.
  replace (length matrix + m - length matrix)%nat with m by lia.
  apply nth_map_upto. assumption.
Qed.

Lemma eliminated_S (matrix : list (list complex128)) (i : nat) :
  eliminated matrix (S i) = beamforming.eliminate (eliminated matrix i) i.
Proof.
  unfold eliminated, upto. rewrite seq_S, fold_left_app. reflexivity.
Qed.

Lemma eliminated_shape (matrix : list (list complex128)) (i : nat) :
  (i <= length matrix)%nat -> wellShaped (length matrix) (eliminated matrix i).
Proof.
  induction i as [|i IH]; intros Hi.
  - apply augmented_shape.
  - rewrite eliminated_S. apply eliminate_shape; [lia | apply IH; lia].
Qed.

(** Complex arithmetic used by the invariants. *)
Lemma Cmul_Cdiv_l (x p c : complex128) : Cmul (Cdiv x p) c = Cdiv (Cmul x c) p.
Proof. unfold Cdiv, Cmul; apply complex_eq; simpl; unfold Rdiv; ring. Qed.

Lemma Cmul_Csub_l (x y c : complex128) :
  Cmul (Csub x y) c = Csub (Cmul x c) (Cmul y c).
Proof. unfold Csub, Cmul; apply complex_eq; simpl; ring. Qed.

Lemma Cmul_assoc (x y z : complex128) : Cmul (Cmul x y) z = Cmul x (Cmul y z).
Proof. unfold Cmul; apply complex_eq; simpl; ring. Qed.

Lemma Csub_diag (x : complex128) : Csub x x = C0.
Proof. unfold Csub, C0; apply complex_eq; simpl; ring. Qed.

Lemma Csum_Csub {A : Type} (f g : A -> complex128) (xs : list A) :
  Csum (fun x => Csub (f x) (g x)) xs = Csub (Csum f xs) (Csum g xs).
Proof.
  induction xs as [|x xs IH].
  - rewrite !Csum_nil. apply complex_eq; simpl; ring.
  - rewrite !Csum_cons, IH. apply complex_eq; simpl; ring.
Qed.

Lemma augmented_invariant (matrix : list (list complex128)) :
  leftIsRightTimes matrix (augmented matrix).
Proof.
  unfold leftIsRightTimes. cbv zeta. intros k j Hk Hj.
  rewrite augmented_left by assumption.
  rewrite (Csum_ext_in _ (fun m => if Nat.eqb m k then entry matrix m j else C0)).
  - rewrite Csum_indicator by assumption. reflexivity.
  - intros m Hm. apply in_upto in Hm.
    rewrite augmented_right by assumption.
    destruct (Nat.eqb m k); [apply Cmul_C1_l | apply Cmul_C0_l].
Qed.

Lemma eliminate_invariant (matrix aug : list (list complex128)) (i : nat) :
  (i < length matrix)%nat -> wellShaped (length matrix) aug ->
  leftIsRightTimes matrix aug ->
  leftIsRightTimes matrix (beamforming.eliminate aug i).
Proof.
  unfold leftIsRightTimes. cbv zeta. intros Hi Hshape Hinv k j Hk Hj.
  set (n := length matrix) in *.
  assert (Hrowi : forall j', (j' < n)%nat ->
            Cdiv (entry aug i j') (entry aug i i)
            = Csum (fun m => Cmul (Cdiv (entry aug i (n + m)) (entry aug i i))
                                  (entry matrix m j'))
                   (upto n)).
  { intros j' Hj'. rewrite (Hinv i j' Hi Hj').
    rewrite <- Csum_Cdiv. apply Csum_ext_in. intros m _.
    rewrite Cmul_Cdiv_l. reflexivity. }
  rewrite (eliminate_entry Hshape Hi Hk) by lia.
  rewrite (Csum_ext_in _
             (fun m =>
                if Nat.eqb k i
                then Cmul (Cdiv (entry aug i (n + m)) (entry aug i i)) (entry matrix m j)
                else Csub (Cmul (entry aug k (n + m)) (entry matrix m j))
                          (Cmul (entry aug k i)
                                (Cmul (Cdiv (entry aug i (n + m)) (entry aug i i))
                                      (entry matrix m j))))).
  2:{ intros m Hm. apply in_upto in Hm.
      rewrite (eliminate_entry Hshape Hi Hk) by lia.
      destruct (Nat.eqb k i); [reflexivity |].
      rewrite Cmul_Csub_l, Cmul_assoc. reflexivity. }
  destruct (Nat.eqb k i).
  - apply Hrowi. assumption.
  - rewrite Csum_Csub, Csum_Cmul_l, <- (Hrowi j Hj), <- (Hinv k j Hk Hj).
    reflexivity.
Qed.

Lemma eliminated_invariant (matrix : list (list complex128)) (i : nat) :
  (i <= length matrix)%nat -> leftIsRightTimes matrix (eliminated matrix i).
Proof.
  induction i as [|i IH]; intros Hi.
  - apply augmented_invariant.
  - rewrite eliminated_S. apply eliminate_invariant;
      [lia | apply eliminated_shape; lia | apply IH; lia].
Qed.

(** Second invariant: after [i] passes with non-zero pivots the first
    [i] columns are those of the identity. *)
Lemma eliminated_unit_columns (matrix : list (list complex128)) (i : nat) :
  (i <= length matrix)%nat ->
  (forall i', (i' < i)%nat -> entry (eliminated matrix i') i' i' <> C0) ->
  forall k j, (k < length matrix)%nat -> (j < i)%nat ->
    entry (eliminated matrix i) k j = if Nat.eqb k j then C1 else C0.
Proof.
  induction i as [|i IH]; intros Hi Hpiv k j Hk Hj; [lia |].
  rewrite eliminated_S.
  pose proof (@eliminated_shape matrix i ltac:(lia)) as Hshape.
  rewrite (eliminate_entry Hshape) by lia.
  assert (IH' : forall k j, (k < length matrix)%nat -> (j < i)%nat ->
             entry (eliminated matrix i) k j = if Nat.eqb k j then C1 else C0).
  { apply IH; [lia |]. intros i' Hi'. apply Hpiv. lia. }
  assert (Hp : entry (eliminated matrix i) i i <> C0) by (apply Hpiv; lia).
  destruct (Nat.eq_dec j i) as [->|Hji].
  - destruct (Nat.eqb k i) eqn:E.
    + apply Cdiv_diag. assumption.
    + rewrite Cdiv_diag by assumption. rewrite Cmul_C1_r. apply Csub_diag.
  - assert (Hj' : (j < i)%nat) by lia.
    rewrite (IH' i j) by lia.
    replace (Nat.eqb i j) with false by (symmetry; apply Nat.eqb_neq; lia).
    rewrite Cdiv_C0, Cmul_C0_r.
    destruct (Nat.eqb k i) eqn:E.
    + apply Nat.eqb_eq in E. subst k.
      replace (Nat.eqb i j) with false by (symmetry; apply Nat.eqb_neq; lia).
      reflexivity.
    + rewrite Csub_C0_r. apply IH'; assumption.
Qed.

Lemma matrixInverse_eq (matrix : list (list complex128)) :
  Forall (fun row => (length matrix <= length row)%nat) matrix ->
  beamforming.matrixInverse matrix
  = Ret (map (fun i =>
                map (fun j => entry (eliminated matrix (length matrix)) i
                                    (length matrix + j))
                    (upto (length matrix)))
             (upto (length matrix))).
Proof.
  intros Hrows. unfold beamforming.matrixInverse.
  rewrite (mapM_Ret_in _ (fun i =>
             map (fun j => nth j (nth i matrix []) C0) (upto (length matrix))
             ++ map (fun j => if Nat.eqb j i then C1 else C0) (upto (length matrix)))).
  - reflexivity.
  - intros i Hi. apply in_upto in Hi. apply augmentedRow_Ret; assumption.
Qed.

(** Without a zero pivot the elimination ends with the identity in the
    left block, so the right block is a left inverse of the matrix. *)
Lemma matrixInverse_left_inverse (matrix : list (list complex128)) :
  Forall (fun row => length row = length matrix) matrix ->
  Forall (fun p => p <> C0) (pivots matrix) ->
  exists inv,
    beamforming.matrixInverse matrix = Ret inv
    /\ matrixProduct inv matrix = identityMatrix (length matrix).
Proof.
  intros Hsq Hpiv. set (n := length matrix) in *.
  eexists. split.
  - apply matrixInverse_eq. apply Forall_forall. intros row Hrow.
    rewrite Forall_forall in Hsq. rewrite (Hsq row Hrow). fold n. lia.
  - fold n. unfold matrixProduct, identityMatrix. rewrite map_map.
    apply map_ext_in. intros i Hi. apply in_upto in Hi.
    assert (Hcols : length (nth 0 matrix []) = n).
    { rewrite Forall_forall in Hsq. apply Hsq. apply nth_In. fold n. lia. }
    rewrite Hcols. fold n. apply map_ext_in. intros j Hj. apply in_upto in Hj.
    rewrite (Csum_ext_in _
               (fun k => Cmul (entry (eliminated matrix n) i (n + k))
                              (entry matrix k j))).
    2:{ intros k Hk. apply in_upto in Hk.
        rewrite (nth_map_upto _ C0 Hk). reflexivity. }
    pose proof (@eliminated_invariant matrix n (Nat.le_refl n)) as Hinv.
    unfold leftIsRightTimes in Hinv. cbv zeta in Hinv. fold n in Hinv.
    rewrite <- (Hinv i j Hi Hj).
    apply eliminated_unit_columns; try assumption; [fold n; lia |].
    intros i' Hi'. rewrite Forall_forall in Hpiv. apply Hpiv.
    unfold pivots. apply in_map_iff. exists i'. split; [reflexivity |].
    apply in_upto. assumption.
Qed.

(** C5 (amended): for an array of M >= 1 elements, conjugate beamforming
    returns M weights of unit norm; zero-forcing returns M weights, of
    unit norm whenever the superposed steering vectors do not cancel in
    every element; MVDR, on an n-by-n covariance matrix C and n steering
    entries, returns n weights and does not normalize them.  When the
    elimination of [matrixInverse], which exchanges no rows, meets no
    zero pivot, the matrix [inv] it returns is a left inverse of C
    ([inv * C = I]); when moreover the response [a^H inv a] is not zero,
    the weights are [inv a] divided by [a^H inv a], so that the response
    [a^H w] is 1 (distortionless) rather than the norm. *)
Theorem C5_closed_form_weights (w : beamforming.WeightsCalculator)
  (targetAngle : R) (targetAngles : list R)
  (covMatrix : list (list complex128)) (steeringVector : list complex128) :
  (1 <= beamforming.elementCount w)%Z ->
  length steeringVector = length covMatrix ->
  Forall (fun row => length row = length covMatrix) covMatrix ->
  closed_form_weights_spec w targetAngle targetAngles covMatrix steeringVector.
Proof.
  intros HM Hlen Hsq. unfold closed_form_weights_spec.
  assert (Hrows : Forall (fun row => (length covMatrix <= length row)%nat) covMatrix).
  { apply Forall_forall. intros row Hrow. rewrite Forall_forall in Hsq.
    rewrite (Hsq row Hrow). lia. }
  assert (Hle : (length steeringVector <= length covMatrix)%nat) by lia.
  split; [apply ComputeConjugateBeamforming_unit; assumption |].
  split; [apply ComputeZOFBeamforming_unit; assumption |].
  destruct (ComputeMVDRWeights_Ret w steeringVector Hle Hrows) as [inv [Hinv Hw]].
  split.
  - eexists. split; [exact Hw |].
    unfold matVec. rewrite !length_map, length_upto. reflexivity.
  - intros Hpiv.
    destruct (matrixInverse_left_inverse Hsq Hpiv) as [inv' [Hinv' Hprod]].
    assert (inv' = inv) by congruence. subst inv'.
    exists inv. split; [exact Hinv |]. split; [exact Hprod |].
    intros Hresp. eexists. split; [exact Hw |]. split; [reflexivity |].
    apply response_scaled. assumption.
Qed.

Lemma covariance2_pivots : Forall (fun p => p <> C0) (pivots covariance2).
Proof.
  unfold pivots, eliminated, augmented, covariance2, entry, beamforming.eliminate.
  run_go.
  repeat constructor.
  - intros E. apply (f_equal real) in E. simpl in E. lra.
  - intros E. apply (f_equal real) in E. simpl in E. lra.
Qed.

Lemma covariance2_inverse :
  beamforming.matrixInverse covariance2
  = Ret [[C1; complex (-1) 0]; [complex (-1) 0; complex 2 0]].
Proof.
  unfold beamforming.matrixInverse, beamforming.augmentedRow, covariance2.
  run_go. unfold beamforming.eliminate. run_go.
  f_equal. f_equal; [f_equal; [| f_equal] | f_equal; f_equal; [| f_equal]].
  all: apply complex_eq; simpl; lra.
Qed.

Lemma covariance2_response :
  response [C1; C1] (matVec [[C1; complex (-1) 0]; [complex (-1) 0; complex 2 0]]
                            [C1; C1]) <> C0.
Proof.
  intros E. apply (f_equal real) in E.
  unfold response, matVec in E. cbn in E. lra.
Qed.

Lemma single_broadside_target :
  exists n, (Z.of_nat n < beamforming.elementCount (beamforming.NewWeightsCalculator 2 0.5))%Z
            /\ Csum (fun angle =>
                       Exp (complex 0 (2 * PI * float64n n
                                       * beamforming.elementSpacing
                                           (beamforming.NewWeightsCalculator 2 0.5)
                                       * sin angle)))
                    [0] <> C0.
Proof.
  exists 0%nat. split; [simpl; lia |].
  intros E. apply (f_equal real) in E. cbn in E.
  replace (2 * PI * 0 * 0.5 * sin 0) with 0 in E by ring.
  rewrite exp_0, cos_0 in E. lra.
Qed.

Lemma C5_closed_form_weights_witness :
  (exists ws,
      beamforming.ComputeConjugateBeamforming
        (beamforming.NewWeightsCalculator 2 0.5) 0 = Ret ws
      /\ Z.of_nat (length ws) = 2%Z
      /\ norm2 ws = 1)
  /\ (exists ws,
         beamforming.ComputeZOFBeamforming
           (beamforming.NewWeightsCalculator 2 0.5) [0] = Ret ws
         /\ Z.of_nat (length ws) = 2%Z
         /\ norm2 ws = 1)
  /\ (exists inv ws,
         beamforming.matrixInverse covariance2 = Ret inv
         /\ matrixProduct inv covariance2 = identityMatrix 2
         /\ beamforming.ComputeMVDRWeights
              (beamforming.NewWeightsCalculator 2 0.5) covariance2 [C1; C1] = Ret ws
         /\ length ws = 2%nat
         /\ response [C1; C1] ws = C1).
Proof.
  destruct (@C5_closed_form_weights (beamforming.NewWeightsCalculator 2 0.5) 0 [0]
              covariance2 [C1; C1])
    as [Hconj [Hzof [Hlen Hmvdr]]].
  - simpl. lia.
  - reflexivity.
  - repeat constructor.
  - split; [exact Hconj |]. split.
    + destruct Hzof as [ws [Hz [Hl Hn]]]. exists ws.
      split; [exact Hz |]. split; [exact Hl |].
      apply Hn. exact single_broadside_target.
    + destruct (Hmvdr covariance2_pivots) as [inv [Hinv [Hprod Hresp]]].
      assert (Hi : inv = [[C1; complex (-1) 0]; [complex (-1) 0; complex 2 0]]).
      { pose proof covariance2_inverse as H. rewrite Hinv in H.
        injection H as H. exact H. }
      destruct Hresp as [ws [Hw [Hws H1]]].
      { rewrite Hi. exact covariance2_response. }
      exists inv, ws. split; [exact Hinv |]. split; [exact Hprod |].
      split; [exact Hw |]. split; [| exact H1].
      destruct Hlen as [ws' [Hw' Hl]]. rewrite Hw in Hw'.
      injection Hw' as <-. exact Hl.
Defined.

(** ** MVDR on a singular covariance *)

(** C6, as stated, fails: for the singular 1-by-1 covariance [[0]] and
    the steering vector [1], [ComputeMVDRWeights] returns normally, with
    a weight vector of length 1 (the quotient of a division by the zero
    pivot), not with an error. *)
Lemma C6_counterexample_singular_returns_weights :
  exists ws,
    beamforming.ComputeMVDRWeights (beamforming.NewWeightsCalculator 1 0.5)
      [[C0]] [C1] = Ret ws
    /\ length ws = 1%nat.
Proof.
  unfold beamforming.ComputeMVDRWeights, beamforming.matrixInverse.
  run_go. eexists. split; reflexivity.
Qed.

(** C6 (amended): [ComputeMVDRWeights] has no error result and
    [matrixInverse] divides by every pivot without testing it: for every
    covariance matrix with at least as many rows as the steering vector
    has entries and with rows at least as long as the matrix has rows,
    invertible or not, the call returns a weight vector with one entry
    per steering-vector entry. *)
Theorem C6_mvdr_returns_weights_without_error (w : beamforming.WeightsCalculator)
  (covMatrix : list (list complex128)) (steeringVector : list complex128) :
  (length steeringVector <= length covMatrix)%nat ->
  Forall (fun row => (length covMatrix <= length row)%nat) covMatrix ->
  exists ws,
    beamforming.ComputeMVDRWeights w covMatrix steeringVector = Ret ws
    /\ length ws = length steeringVector.
Proof.
  intros Hlen Hrows.
  destruct (ComputeMVDRWeights_Ret w steeringVector Hlen Hrows) as [inv [_ Hw]].
  eexists. split; [exact Hw |].
  unfold matVec. rewrite !length_map, length_upto. reflexivity.
Qed.

Lemma C6_mvdr_returns_weights_without_error_witness :
  exists ws,
    beamforming.ComputeMVDRWeights (beamforming.NewWeightsCalculator 2 0.5)
      [[C0; C0]; [C0; C0]] [C1; C1] = Ret ws
    /\ length ws = length [C1; C1].
Proof.
  apply (@C6_mvdr_returns_weights_without_error
           (beamforming.NewWeightsCalculator 2 0.5)
           [[C0; C0]; [C0; C0]] [C1; C1]).
  - simpl. lia.
  - repeat constructor.
Defined.

(** ** Initial weights of the adaptive optimizer *)

Lemma Conj_Exp_imag (phase : R) :
  Conj (Exp (complex 0 phase)) = Exp (complex 0 (- phase)).
Proof.
  unfold Conj, Exp; simpl. rewrite cos_neg, sin_neg.
  apply complex_eq; simpl; ring.
Qed.

Lemma initial_phase_is_endfire (i : nat) :
  Exp (complex 0 (-2 * PI * float64n i * 0.5))
  = Conj (Exp (complex 0 (2 * PI * float64n i * 0.5 * sin (PI / 2)))).
Proof.
  rewrite Conj_Exp_imag, sin_PI2. do 2 f_equal. lra.
Qed.

Lemma initializeWeights_endfire (o : beamforming.Optimizer) (elementCount : Z) :
  (0 <= elementCount)%Z ->
  beamforming.initializeWeights o elementCount
  = Ret (beamforming.normalizeWeights
           (map Conj (beamforming.steering (Z.to_nat elementCount) (PI / 2)))).
Proof.
  intros H. unfold beamforming.initializeWeights.
  rewrite make_len_nonneg by assumption. simpl.
  unfold beamforming.steering. rewrite map_map.
  do 2 f_equal. apply map_ext. intros i. apply initial_phase_is_endfire.
Qed.

Lemma normalize_nth (weights : list complex128) (i : nat) :
  nth i (beamforming.normalize weights) C0
  = Cdiv (nth i weights C0)
         (complex (sqrt (Rsum (fun w => Abs w * Abs w) weights)) 0).
Proof.
  unfold beamforming.normalize.
  set (f := fun weight => Cdiv weight _).
  pose proof (map_nth f weights C0 i) as H.
  unfold f in H at 2. rewrite Cdiv_C0 in H. exact H.
Qed.

Lemma real_Cdiv_real (x : complex128) (n : R) :
  0 < n -> real (Cdiv x (complex n 0)) = real x / n.
Proof. intros Hn. unfold Cdiv; simpl. field. lra. Qed.

Lemma energy_of_two_phases (a b : R) :
  Rsum (fun w => Abs w * Abs w) [Exp (complex 0 a); Exp (complex 0 b)] = 2.
Proof.
  rewrite !Rsum_cons, Rsum_nil, !Abs_Exp_imag. lra.
Qed.

Lemma conj_steering2 (angle : R) :
  map Conj (beamforming.steering 2 angle)
  = [Exp (complex 0 (- (2 * PI * 0 * 0.5 * sin angle)));
     Exp (complex 0 (- (2 * PI * 1 * 0.5 * sin angle)))].
Proof.
  unfold beamforming.steering, upto. cbn [map seq].
  rewrite !Conj_Exp_imag. reflexivity.
Qed.

Lemma real_second_of_normalized_pair (a b : R) :
  real (nth 1 (beamforming.normalizeWeights
                 [Exp (complex 0 a); Exp (complex 0 b)]) C0)
  = cos b / sqrt 2.
Proof.
  assert (Hs : 0 < sqrt 2) by (apply sqrt_lt_R0; lra).
  rewrite normalizeWeights_eq, normalize_nth, energy_of_two_phases.
  rewrite real_Cdiv_real by assumption. cbn [nth Exp real imag].
  rewrite exp_0. lra.
Qed.

(** C7, as stated, fails: for a two-element array and target direction 0
    the second weight held at loop entry has a negative real part
    ([-1/sqrt 2]), while the second entry of the normalized conjugate
    steering vector toward direction 0 has a positive one ([1/sqrt 2]). *)
Lemma C7_counterexample_initial_weights_ignore_target :
  exists run,
    beamforming.OptimizeEntry (beamforming.NewOptimizer 2 100 0.001) broadside2
    = Ret run
    /\ real (nth 1 (beamforming.weights run) C0) = - (1 / sqrt 2)
    /\ real (nth 1 (beamforming.normalizeWeights
                      (map Conj (beamforming.steering 2
                         (beamforming.TargetDirection broadside2)))) C0)
       = 1 / sqrt 2
    /\ - (1 / sqrt 2) < 0 < 1 / sqrt 2.
Proof.
  assert (Hs : 0 < sqrt 2) by (apply sqrt_lt_R0; lra).
  assert (Hi : 0 < 1 / sqrt 2) by (apply Rdiv_lt_0_compat; lra).
  eexists. split.
  - unfold beamforming.OptimizeEntry.
    rewrite initializeWeights_endfire by (simpl; lia). reflexivity.
  - cbn [beamforming.weights beamforming.ElementCount broadside2
         beamforming.TargetDirection].
    change (Z.to_nat 2) with 2%nat.
    rewrite !conj_steering2, !real_second_of_normalized_pair.
    rewrite sin_PI2, sin_0.
    replace (- (2 * PI * 1 * 0.5 * 1)) with (- PI) by lra.
    replace (- (2 * PI * 1 * 0.5 * 0)) with 0 by lra.
    rewrite cos_neg, cos_PI, cos_0.
    split; [lra |]. split; [lra |]. lra.
Qed.

(** C7 (amended): the weight vector [Optimize] holds at entry to its
    first gradient iteration does not depend on the target direction: it
    is the unit-normalized conjugate steering vector of the fixed endfire
    direction pi/2 (element phases [-pi*i]), with the iteration count 0
    and the convergence flag unset; two parameter sets with the same
    element count start from the same state. *)
Theorem C7_initial_weights_are_endfire (o : beamforming.Optimizer)
  (params : beamforming.BeamformingParams) :
  (0 <= beamforming.ElementCount params)%Z ->
  beamforming.OptimizeEntry o params
  = Ret {| beamforming.weights :=
             beamforming.normalizeWeights
               (map Conj (beamforming.steering
                            (Z.to_nat (beamforming.ElementCount params)) (PI / 2)));
           beamforming.iterations := 0;
           beamforming.converged := false |}
  /\ (forall params',
         beamforming.ElementCount params' = beamforming.ElementCount params ->
         beamforming.OptimizeEntry o params' = beamforming.OptimizeEntry o params).
Proof.
  intros H. split.
  - unfold beamforming.OptimizeEntry.
    rewrite initializeWeights_endfire by assumption. reflexivity.
  - intros params' Heq. unfold beamforming.OptimizeEntry. rewrite Heq. reflexivity.
Qed.

Lemma C7_initial_weights_are_endfire_witness :
  beamforming.OptimizeEntry (beamforming.NewOptimizer 2 100 0.001) broadside2
  = Ret {| beamforming.weights :=
             beamforming.normalizeWeights
               (map Conj (beamforming.steering
                            (Z.to_nat (beamforming.ElementCount broadside2)) (PI / 2)));
           beamforming.iterations := 0;
           beamforming.converged := false |}
  /\ (forall params',
         beamforming.ElementCount params' = beamforming.ElementCount broadside2 ->
         beamforming.OptimizeEntry (beamforming.NewOptimizer 2 100 0.001) params'
         = beamforming.OptimizeEntry (beamforming.NewOptimizer 2 100 0.001) broadside2).
Proof.
  apply (C7_initial_weights_are_endfire (beamforming.NewOptimizer 2 100 0.001)
           broadside2).
  simpl. lia.
Defined.

(** ** Sample covariance (both estimators) *)

Lemma covariance_loop_Ret (X : list (list complex128)) (N : nat) :
  Forall (fun row => length row = N) X ->
  mapM (fun i =>
          mapM (fun j =>
                  sum <-
                    foldM (fun sum t =>
                             Xi <- elemAt X i ;;
                             Xit <- elemAt Xi t ;;
                             Xj <- elemAt X j ;;
                             Xjt <- elemAt Xj t ;;
                             Ret (Cadd sum (Cmul Xit (Conj Xjt))))
                          (upto N) C0 ;;
                  Ret (Cdiv sum (complex (float64n N) 0)))
               (upto (length X)))
       (upto (length X))
  = Ret (covarianceOf X N).
Proof.
  intros Hrect. rewrite Forall_forall in Hrect. unfold covarianceOf.
  apply mapM_Ret_in. intros i Hi. apply in_upto in Hi.
  apply mapM_Ret_in. intros j Hj. apply in_upto in Hj.
  rewrite (foldM_Ret_in _ (fun sum t =>
             Cadd sum (Cmul (nth t (nth i X []) C0) (Conj (nth t (nth j X []) C0))))).
  - reflexivity.
  - intros sum t Ht. apply in_upto in Ht.
    rewrite (elemAt_Ret X [] Hi). simpl.
    rewrite (elemAt_Ret (nth i X []) C0)
      by (rewrite (Hrect _ (nth_In X [] Hi)); assumption).
    simpl. rewrite (elemAt_Ret X [] Hj). simpl.
    rewrite (elemAt_Ret (nth j X []) C0)
      by (rewrite (Hrect _ (nth_In X [] Hj)); assumption).
    reflexivity.
Qed.

Lemma estimator_covariance_Ret (e : doa.estimator.Estimator)
  (X : list (list complex128)) (N : nat) :
  (1 <= length X)%nat -> Forall (fun row => length row = N) X ->
  doa.estimator.computeCovarianceMatrix e X = Ret (covarianceOf X N).
Proof.
  intros HM Hrect. unfold doa.estimator.computeCovarianceMatrix.
  rewrite (elemAt_Ret X [] HM). simpl.
  rewrite Forall_forall in Hrect.
  rewrite (Hrect _ (nth_In X [] HM)).
  apply covariance_loop_Ret. apply Forall_forall. assumption.
Qed.

Lemma NewCDense_positive (r c : Z) :
  (1 <= r)%Z -> (1 <= c)%Z ->
  doa.mat.NewCDense r c = Ret (repeat (repeat C0 (Z.to_nat c)) (Z.to_nat r)).
Proof.
  intros Hr Hc. unfold doa.mat.NewCDense, doa.mat.New.
  destruct (r <=? 0)%Z eqn:Er; [apply Z.leb_le in Er; lia |].
  destruct (c <=? 0)%Z eqn:Ec; [apply Z.leb_le in Ec; lia |].
  reflexivity.
Qed.

Lemma esprit_covariance_Ret (e : doa.esprit.ESPRITEstimator)
  (X : list (list complex128)) (N : nat) :
  (1 <= length X)%nat -> Forall (fun row => length row = N) X ->
  doa.esprit.computeCovarianceMatrix e X = Ret (covarianceOf X N).
Proof.
  intros HM Hrect. unfold doa.esprit.computeCovarianceMatrix.
  rewrite (elemAt_Ret X [] HM). simpl.
  rewrite NewCDense_positive by lia. simpl.
  rewrite Forall_forall in Hrect.
  rewrite (Hrect _ (nth_In X [] HM)).
  apply covariance_loop_Ret. apply Forall_forall. assumption.
Qed.

Lemma covarianceOf_nth (X : list (list complex128)) (N i j : nat) :
  (i < length X)%nat -> (j < length X)%nat ->
  nth j (nth i (covarianceOf X N) []) C0
  = Cdiv (Csum (fun t => Cmul (nth t (nth i X []) C0)
                              (Conj (nth t (nth j X []) C0)))
               (upto N))
         (complex (float64n N) 0).
Proof.
  intros Hi Hj. unfold covarianceOf.
  rewrite nth_map_upto by assumption.
  rewrite nth_map_upto by assumption. reflexivity.
Qed.

Lemma Conj_Cdiv_real (x : complex128) (n : R) :
  Conj (Cdiv x (complex n 0)) = Cdiv (Conj x) (complex n 0).
Proof.
  unfold Conj, Cdiv; simpl. apply complex_eq; simpl; unfold Rdiv; ring.
Qed.

Lemma Conj_Csum {A : Type} (f : A -> complex128) (xs : list A) :
  Conj (Csum f xs) = Csum (fun x => Conj (f x)) xs.
Proof.
  induction xs as [|x xs IH].
  - rewrite !Csum_nil. apply Conj_C0.
  - rewrite !Csum_cons, <- IH. unfold Conj, Cadd; simpl.
    apply complex_eq; simpl; ring.
Qed.

Lemma Conj_Cmul_Conj (a b : complex128) :
  Conj (Cmul a (Conj b)) = Cmul b (Conj a).
Proof.
  unfold Conj, Cmul; simpl. apply complex_eq; simpl; ring.
Qed.

Lemma Cdiv_real_scale (x : complex128) (n : R) :
  n <> 0 ->
  Cdiv x (complex n 0) = complex (1 / n * real x) (1 / n * imag x).
Proof.
  intros Hn. unfold Cdiv; simpl. apply complex_eq; simpl; field; assumption.
Qed.

(** C8: for a snapshot matrix with M >= 1 rows of N >= 1 columns each,
    both [computeCovarianceMatrix] functions return the same M-by-M
    matrix C with [C[i][j] = (1/N) * sum_t X[i][t] * conj(X[j][t])], and
    C is Hermitian: [C[i][j] = conj(C[j][i])]. *)
Theorem C8_covariance_hermitian (e : doa.estimator.Estimator)
  (e' : doa.esprit.ESPRITEstimator) (X : list (list complex128)) (M N : nat) :
  (1 <= M)%nat -> (1 <= N)%nat ->
  length X = M -> Forall (fun row => length row = N) X ->
  exists C,
    doa.estimator.computeCovarianceMatrix e X = Ret C
    /\ doa.esprit.computeCovarianceMatrix e' X = Ret C
    /\ length C = M
    /\ Forall (fun row => length row = M) C
    /\ forall i j, (i < M)%nat -> (j < M)%nat ->
         nth j (nth i C []) C0 = sampleCovariance X N i j
         /\ nth j (nth i C []) C0 = Conj (nth i (nth j C []) C0).
Proof.
  intros HM HN Hlen Hrect. exists (covarianceOf X N).
  split; [apply estimator_covariance_Ret; [lia | assumption] |].
  split; [apply esprit_covariance_Ret; [lia | assumption] |].
  split; [unfold covarianceOf; rewrite length_map, length_upto; assumption |].
  split.
  - apply Forall_forall. intros row Hrow. unfold covarianceOf in Hrow.
    apply in_map_iff in Hrow. destruct Hrow as [i [<- _]].
    rewrite length_map, length_upto. assumption.
  - intros i j Hi Hj.
    rewrite !covarianceOf_nth by lia. split.
    + unfold sampleCovariance. apply Cdiv_real_scale.
      unfold float64n. apply not_0_INR. lia.
    + rewrite Conj_Cdiv_real, Conj_Csum. f_equal.
      apply Csum_ext_in. intros t _. rewrite Conj_Cmul_Conj. reflexivity.
Qed.

Lemma C8_covariance_hermitian_witness :
  exists C,
    doa.estimator.computeCovarianceMatrix
      (doa.estimator.NewEstimator 2 1 2 "MUSIC")
      [[C1; C0]; [complex 0 1; C1]] = Ret C
    /\ doa.esprit.computeCovarianceMatrix
         (doa.esprit.NewESPRITEstimator
            {| doa.esprit.NumAntennas := 2; doa.esprit.NumSources := 1;
               doa.esprit.ElementSpacing := 0.5; doa.esprit.SnapshotLength := 2;
               doa.esprit.SampleRate := 0; doa.esprit.CarrierFreq := 0 |})
         [[C1; C0]; [complex 0 1; C1]] = Ret C
    /\ length C = 2%nat
    /\ Forall (fun row => length row = 2%nat) C
    /\ forall i j, (i < 2)%nat -> (j < 2)%nat ->
         nth j (nth i C []) C0
         = sampleCovariance [[C1; C0]; [complex 0 1; C1]] 2 i j
         /\ nth j (nth i C []) C0 = Conj (nth i (nth j C []) C0).
Proof.
  apply (@C8_covariance_hermitian
           (doa.estimator.NewEstimator 2 1 2 "MUSIC")
           (doa.esprit.NewESPRITEstimator
              {| doa.esprit.NumAntennas := 2; doa.esprit.NumSources := 1;
                 doa.esprit.ElementSpacing := 0.5; doa.esprit.SnapshotLength := 2;
                 doa.esprit.SampleRate := 0; doa.esprit.CarrierFreq := 0 |})
           [[C1; C0]; [complex 0 1; C1]] 2 2).
  - lia.
  - lia.
  - reflexivity.
  - repeat constructor.
Defined.

(** ** The exchange sort *)

Section ExchangeSort.

Variable A : Type.
Variable key : A -> R.

Lemma sink_perm (x : A) (rest : list A) :
  Permutation (x :: rest) (fst (doa.sink key x rest) :: snd (doa.sink key x rest)).
Proof.
  revert x. induction rest as [|y rest IH]; intros x; simpl.
  - apply Permutation_refl.
  - destruct (Rltb (key x) (key y)).
    + specialize (IH y). destruct (doa.sink key y rest) as [m r]. simpl in *.
      eapply Permutation_trans; [apply perm_skip; exact IH |].
      apply perm_swap.
    + specialize (IH x). destruct (doa.sink key x rest) as [m r]. simpl in *.
      eapply Permutation_trans; [apply perm_swap |].
      eapply Permutation_trans; [apply perm_skip; exact IH |].
      apply perm_swap.
Qed.

Lemma sink_length (x : A) (rest : list A) :
  length (snd (doa.sink key x rest)) = length rest.
Proof.
  pose proof (Permutation_length (sink_perm x rest)) as H.
  simpl in H. lia.
Qed.

(** The element left at the head is maximal, and no smaller than [x]. *)
Lemma sink_max (x : A) (rest : list A) :
  key x <= key (fst (doa.sink key x rest))
  /\ Forall (fun y => key y <= key (fst (doa.sink key x rest)))
            (snd (doa.sink key x rest)).
Proof.
  revert x. induction rest as [|y rest IH]; intros x; simpl.
  - split; [lra | constructor].
  - unfold Rltb. destruct (Rlt_dec (key x) (key y)) as [Hlt|Hge].
    + specialize (IH y). destruct (doa.sink key y rest) as [m r]. simpl in *.
      destruct IH as [Hy Hr]. split; [lra |]. constructor; [lra | assumption].
    + specialize (IH x). destruct (doa.sink key x rest) as [m r]. simpl in *.
      destruct IH as [Hx Hr]. split; [lra |]. constructor; [lra | assumption].
Qed.

Lemma exchangeSortN_perm (passes : nat) (xs : list A) :
  Permutation (doa.exchangeSortN key passes xs) xs.
Proof.
  revert xs. induction passes as [|passes IH]; intros xs; simpl.
  - destruct xs; apply Permutation_refl.
  - destruct xs as [|x rest]; [apply Permutation_refl |].
    pose proof (sink_perm x rest) as Hp.
    destruct (doa.sink key x rest) as [m r]. simpl in *.
    apply Permutation_sym.
    eapply Permutation_trans; [exact Hp |].
    apply perm_skip. apply Permutation_sym. apply IH.
Qed.

Lemma exchangeSort_perm (xs : list A) :
  Permutation (doa.exchangeSort key xs) xs.
Proof. apply exchangeSortN_perm. Qed.

Lemma exchangeSortN_sorted (passes : nat) (xs : list A) :
  (length xs <= passes)%nat ->
  StronglySorted (fun a b => key b <= key a) (doa.exchangeSortN key passes xs).
Proof.
  revert xs. induction passes as [|passes IH]; intros xs Hlen; simpl.
  - destruct xs; [constructor | simpl in Hlen; lia].
  - destruct xs as [|x rest]; [constructor |].
    pose proof (sink_max x rest) as [_ Hmax].
    pose proof (sink_length x rest) as Hl.
    destruct (doa.sink key x rest) as [m r]. simpl in *.
    constructor.
    + apply IH. lia.
    + rewrite Forall_forall in *. intros y Hy. apply Hmax.
      apply (Permutation_in y (exchangeSortN_perm passes r)). assumption.
Qed.

Lemma exchangeSort_sorted (xs : list A) :
  StronglySorted (fun a b => key b <= key a) (doa.exchangeSort key xs).
Proof. apply exchangeSortN_sorted. apply Nat.le_refl. Qed.

End ExchangeSort.

(** ** Loops that do not panic *)

Lemma mapM_total {A B : Type} (f : A -> go B) (xs : list A) :
  (forall x, In x xs -> exists y, f x = Ret y) ->
  exists ys, mapM f xs = Ret ys.
Proof.
  induction xs as [|x xs IH]; simpl; intros H.
  - eexists. reflexivity.
  - destruct (H x (or_introl eq_refl)) as [y Hy]. rewrite Hy. simpl.
    destruct IH as [ys Hys]; [intros z Hz; apply H; right; assumption |].
    rewrite Hys. simpl. eexists. reflexivity.
Qed.

Lemma mapM_In {A B : Type} (f : A -> go B) (xs : list A) (ys : list B) (y : B) :
  mapM f xs = Ret ys -> In y ys -> exists x, In x xs /\ f x = Ret y.
Proof.
  revert ys. induction xs as [|x xs IH]; simpl; intros ys H Hy.
  - inversion H; subst. contradiction.
  - apply bind_Ret in H. destruct H as [y0 [Hy0 H]].
    apply bind_Ret in H. destruct H as [ys' [Hys' H]].
    inversion H; subst. destruct Hy as [<-|Hy].
    + exists x. split; [left; reflexivity | assumption].
    + destruct (IH ys' Hys' Hy) as [x' [Hin Hx']].
      exists x'. split; [right; assumption | assumption].
Qed.

Lemma Rsum_upto_shift (f : nat -> R) (n : nat) :
  Rsum f (upto (S n)) = f 0%nat + Rsum (fun k => f (S k)) (upto n).
Proof.
  unfold upto. simpl seq. rewrite Rsum_cons. f_equal.
  rewrite <- seq_shift, Rsum_map. reflexivity.
Qed.

Lemma Rsum_upto_nth {A : Type} (f : A -> R) (xs : list A) (d : A) :
  Rsum (fun k => f (nth k xs d)) (upto (length xs)) = Rsum f xs.
Proof.
  induction xs as [|x xs IH].
  - reflexivity.
  - change (length (x :: xs)) with (S (length xs)).
    rewrite Rsum_upto_shift, Rsum_cons. simpl. rewrite IH. reflexivity.
Qed.

(** ** The MUSIC pseudo-spectrum *)

Lemma musicDenominator_Ret (noiseSubspace : list (list complex128))
  (elementCount : nat) (angle : R) :
  Forall (fun u => (elementCount <= length u)%nat) noiseSubspace ->
  doa.estimator.musicDenominator noiseSubspace elementCount angle
  = Ret (projectionEnergy noiseSubspace elementCount angle).
Proof.
  intros Hlen. rewrite Forall_forall in Hlen.
  unfold doa.estimator.musicDenominator, projectionEnergy.
  set (energy := fun u : list complex128 => _).
  rewrite <- (Rsum_upto_nth energy noiseSubspace []). unfold Rsum.
  apply (foldM_Ret_in _ (fun denom k => denom + energy (nth k noiseSubspace []))).
  intros denom k Hk. apply in_upto in Hk. unfold energy.
  rewrite (foldM_Ret_in _ (fun proj n =>
             Cadd proj (Cmul (Conj (nth n (nth k noiseSubspace []) C0))
                             (Exp (complex 0 (2 * PI * float64n n * 0.5 * sin angle)))))).
  - reflexivity.
  - intros proj n Hn. apply in_upto in Hn.
    rewrite (elemAt_Ret noiseSubspace [] Hk). simpl.
    rewrite (elemAt_Ret (nth k noiseSubspace []) C0).
    + simpl. rewrite nth_map_upto by assumption. reflexivity.
    + specialize (Hlen _ (nth_In noiseSubspace [] Hk)). lia.
Qed.

Lemma spectrumValue_cases (denom : R) :
  (denom > 1e-10 -> spectrumValue denom = 1 / denom)
  /\ (denom <= 1e-10 -> spectrumValue denom = 1e10)
  /\ 0 < spectrumValue denom <= 1e10.
Proof.
  unfold spectrumValue, Rgtb.
  destruct (Rgt_dec denom 1e-10) as [Hgt|Hle].
  - split; [intros _; lra |]. split; [intros H; lra |].
    assert (Hd : 0 < denom) by lra.
    split.
    + apply Rdiv_lt_0_compat; lra.
    + apply Rmult_le_reg_r with denom; [assumption |].
      unfold Rdiv. rewrite Rmult_assoc, Rinv_l by lra. lra.
  - split; [intros H; contradiction |]. split; [intros _; reflexivity |]. lra.
Qed.

Lemma spectrum_loop_Ret (noiseSubspace : list (list complex128))
  (elementCount numPoints : nat) :
  Forall (fun u => (elementCount <= length u)%nat) noiseSubspace ->
  mapM (doa.estimator.spectrumPoint noiseSubspace elementCount numPoints)
       (upto numPoints)
  = Ret (map (fun i =>
                spectrumValue (projectionEnergy noiseSubspace elementCount
                                 (doa.estimator.gridAngle numPoints i)))
             (upto numPoints)).
Proof.
  intros Hlen. apply mapM_Ret_in. intros i _.
  unfold doa.estimator.spectrumPoint.
  rewrite musicDenominator_Ret by assumption. reflexivity.
Qed.

Lemma generateReceivedSignal_Ret (e : doa.estimator.Estimator)
  (data : list complex128) (params : doa.estimator.DOAParams) :
  (0 <= doa.estimator.ElementCount params)%Z ->
  (0 <= doa.estimator.SnapshotLength params)%Z ->
  (0 <= doa.estimator.NumSources params)%Z ->
  data <> [] ->
  exists X,
    doa.estimator.generateReceivedSignal e data params = Ret X
    /\ length X = Z.to_nat (doa.estimator.ElementCount params)
    /\ Forall (fun row =>
                 length row = Z.to_nat (doa.estimator.SnapshotLength params)) X.
Proof.
  intros HM HN HK Hdata. unfold doa.estimator.generateReceivedSignal.
  rewrite (make_len_nonneg HM). simpl.
  rewrite (mapM_Ret_in _ (fun _ => Z.to_nat (doa.estimator.SnapshotLength params)))
    by (intros; apply make_len_nonneg; assumption).
  simpl. rewrite (make_len_nonneg HK). simpl.
  assert (Hlen : Nat.eqb (length data) 0 = false).
  { destruct data; [contradiction | reflexivity]. }
  match goal with
  | |- exists X, mapM ?f ?xs = Ret X /\ _ =>
      destruct (mapM_total f xs) as [X HX]
  end.
  - intros n _.
    match goal with
    | |- exists y, mapM ?f ?xs = Ret y =>
        destruct (mapM_total f xs) as [row Hrow]; [| exists row; exact Hrow]
    end.
    intros t _.
    match goal with
    | |- exists y, bind (foldM ?f ?xs ?acc) _ = Ret y =>
        rewrite (foldM_Ret_in f
                   (fun signal s =>
                      Cadd signal
                        (Cmul (Exp (complex 0
                                 (2 * PI * float64n n * 0.5
                                  * sin (nth s
                                      (map (fun i =>
                                              - PI / 3 + float64n i * PI
                                              / (3 * float64 (doa.estimator.NumSources params)))
                                           (upto (Z.to_nat (doa.estimator.NumSources params))))
                                      0))))
                              (nth (t mod length data) data C0))))
    end.
    + simpl. eexists. reflexivity.
    + intros signal s _. rewrite Hlen.
      rewrite (elemAt_Ret data C0).
      * reflexivity.
      * apply Nat.mod_upper_bound. destruct data; [contradiction | simpl; lia].
  - exists X. split; [exact HX |]. split.
    + rewrite (mapM_length _ _ HX), length_upto. reflexivity.
    + apply Forall_forall. intros row Hrow.
      destruct (mapM_In _ _ _ HX Hrow) as [n [_ Hn]].
      rewrite (mapM_length _ _ Hn), length_upto. reflexivity.
Qed.

Lemma map_snd_combine {A B : Type} (xs : list A) (ys : list B) :
  length xs = length ys -> map snd (combine xs ys) = ys.
Proof.
  revert ys. induction xs as [|x xs IH]; intros [|y ys] H; simpl in *;
    try discriminate; [reflexivity |].
  f_equal. apply IH. lia.
Qed.

Lemma unitRow_length (n i : nat) : length (unitRow n i) = n.
Proof. unfold unitRow. rewrite length_map, length_upto. reflexivity. Qed.

Lemma eigenDecomposition_Ret (e : doa.estimator.Estimator)
  (matrix : list (list complex128)) :
  Forall (fun row => (length matrix <= length row)%nat) matrix ->
  exists eigenvalues eigenvectors,
    doa.estimator.eigenDecomposition e matrix = Ret (eigenvalues, eigenvectors)
    /\ length eigenvectors = length matrix
    /\ Forall (fun v => exists i, (i < length matrix)%nat
                                  /\ v = unitRow (length matrix) i)
              eigenvectors.
Proof.
  intros Hrows. rewrite Forall_forall in Hrows.
  unfold doa.estimator.eigenDecomposition.
  match goal with
  | |- context [bind (mapM ?f ?xs) _] =>
      destruct (mapM_total f xs) as [ev Hev]
  end.
  - intros i Hi. apply in_upto in Hi.
    rewrite (foldM_Ret_in _ (fun sum j =>
               sum + Abs (nth j (nth i matrix []) C0)
                     * Abs (nth j (nth i matrix []) C0))).
    + simpl. eexists. reflexivity.
    + intros sum j Hj. apply in_upto in Hj.
      rewrite (elemAt_Ret matrix [] Hi). simpl.
      rewrite (elemAt_Ret (nth i matrix []) C0).
      * reflexivity.
      * specialize (Hrows _ (nth_In matrix [] Hi)). lia.
  - rewrite Hev. simpl.
    set (ids := map (fun i => map (fun j => if Nat.eqb j i then C1 else C0)
                                  (upto (length matrix)))
                    (upto (length matrix))).
    assert (Hids : length ev = length ids).
    { rewrite (mapM_length _ _ Hev). unfold ids.
      rewrite length_map. reflexivity. }
    assert (Hperm : Permutation (map snd (doa.exchangeSort fst (combine ev ids))) ids).
    { rewrite <- (map_snd_combine ev ids Hids) at 2.
      apply Permutation_map. apply exchangeSort_perm. }
    eexists. eexists. split; [reflexivity |]. split.
    + rewrite (Permutation_length Hperm). unfold ids.
      rewrite length_map, length_upto. reflexivity.
    + apply Forall_forall. intros v Hv.
      apply (Permutation_in v Hperm) in Hv. unfold ids in Hv.
      apply in_map_iff in Hv. destruct Hv as [i [<- Hi]].
      apply in_upto in Hi. exists i. split; [assumption | reflexivity].
Qed.

Lemma elemAtZ_Ret {A : Type} (xs : list A) (i : Z) (d : A) :
  (0 <= i < Z.of_nat (length xs))%Z ->
  elemAtZ xs i = Ret (nth (Z.to_nat i) xs d).
Proof.
  intros H. unfold elemAtZ.
  destruct (i <? 0)%Z eqn:E; [apply Z.ltb_lt in E; lia |].
  apply elemAt_Ret. lia.
Qed.

Lemma extractNoiseSubspace_Ret (e : doa.estimator.Estimator)
  (eigenvectors : list (list complex128)) (numSources : Z) :
  (0 <= numSources <= Z.of_nat (length eigenvectors))%Z ->
  exists noiseSubspace,
    doa.estimator.extractNoiseSubspace e eigenvectors numSources
    = Ret noiseSubspace
    /\ Z.of_nat (length noiseSubspace)
       = (Z.of_nat (length eigenvectors) - numSources)%Z
    /\ Forall (fun u => In u eigenvectors) noiseSubspace.
Proof.
  intros HK. unfold doa.estimator.extractNoiseSubspace.
  rewrite make_len_nonneg by lia. simpl.
  rewrite (mapM_Ret_in _ (fun i =>
             nth (Z.to_nat (numSources + Z.of_nat i)) eigenvectors [])).
  - eexists. split; [reflexivity |]. split.
    + rewrite length_map, length_upto. lia.
    + apply Forall_forall. intros u Hu.
      apply in_map_iff in Hu. destruct Hu as [i [<- Hi]].
      apply in_upto in Hi. apply nth_In. lia.
  - intros i Hi. apply in_upto in Hi. apply elemAtZ_Ret. lia.
Qed.

Lemma findPeaks_Ret (e : doa.estimator.Estimator) (spectrum : list R)
  (numPeaks : Z) :
  (0 <= numPeaks)%Z ->
  doa.estimator.findPeaks e spectrum numPeaks
  = Ret (map (peakAngle (length spectrum))
             (firstn (Z.to_nat numPeaks)
                     (doa.exchangeSort doa.estimator.value
                        (doa.estimator.localMaxima spectrum)))).
Proof.
  intros HK. unfold doa.estimator.findPeaks.
  set (peaks := doa.exchangeSort _ _).
  destruct (Z.of_nat (length peaks) >? numPeaks)%Z eqn:E.
  - destruct (numPeaks <? 0)%Z eqn:E'; [apply Z.ltb_lt in E'; lia |].
    reflexivity.
  - simpl. rewrite firstn_all2; [reflexivity |].
    rewrite Z.gtb_ltb in E. apply Z.ltb_ge in E. lia.
Qed.

Lemma covarianceOf_shape (X : list (list complex128)) (N : nat) :
  length (covarianceOf X N) = length X
  /\ Forall (fun row => length row = length X) (covarianceOf X N).
Proof.
  unfold covarianceOf. split.
  - rewrite length_map, length_upto. reflexivity.
  - apply Forall_forall. intros row Hrow.
    apply in_map_iff in Hrow. destruct Hrow as [i [<- _]].
    rewrite length_map, length_upto. reflexivity.
Qed.

Lemma musicNoiseSubspace_Ret (e : doa.estimator.Estimator)
  (data : list complex128) (params : doa.estimator.DOAParams) :
  validMusicInput data params ->
  exists noiseSubspace,
    doa.estimator.musicNoiseSubspace e data params = Ret noiseSubspace
    /\ Z.of_nat (length noiseSubspace)
       = (doa.estimator.ElementCount params - doa.estimator.NumSources params)%Z
    /\ Forall (fun u =>
                 exists i,
                   (i < Z.to_nat (doa.estimator.ElementCount params))%nat
                   /\ u = unitRow (Z.to_nat (doa.estimator.ElementCount params)) i)
              noiseSubspace.
Proof.
  intros [HM [HN [HK Hdata]]].
  destruct (@generateReceivedSignal_Ret e data params) as [X [HX [HXlen HXrect]]];
    try lia; try assumption.
  unfold doa.estimator.musicNoiseSubspace. rewrite HX. simpl.
  rewrite (@estimator_covariance_Ret e X
             (Z.to_nat (doa.estimator.SnapshotLength params)))
    by (try assumption; lia).
  simpl.
  destruct (covarianceOf_shape X (Z.to_nat (doa.estimator.SnapshotLength params)))
    as [Hclen Hcrows].
  destruct (@eigenDecomposition_Ret e
              (covarianceOf X (Z.to_nat (doa.estimator.SnapshotLength params))))
    as [ev [vecs [Hed [Hvlen Hvrows]]]].
  { apply Forall_forall. intros row Hrow. rewrite Forall_forall in Hcrows.
    rewrite (Hcrows row Hrow), Hclen. apply Nat.le_refl. }
  rewrite Hed. simpl.
  destruct (@extractNoiseSubspace_Ret e vecs (doa.estimator.NumSources params))
    as [ns [Hns [Hnslen Hnsin]]].
  { rewrite Hvlen, Hclen, HXlen. lia. }
  exists ns. split; [exact Hns |]. split.
  - rewrite Hnslen, Hvlen, Hclen, HXlen. lia.
  - apply Forall_forall. intros u Hu.
    rewrite Forall_forall in Hnsin, Hvrows.
    destruct (Hvrows u (Hnsin u Hu)) as [i [Hi Hu']].
    rewrite Hclen, HXlen in Hi, Hu'. exists i. split; assumption.
Qed.

Lemma musicAlgorithm_Ret (e : doa.estimator.Estimator)
  (data : list complex128) (params : doa.estimator.DOAParams) :
  validMusicInput data params ->
  exists noiseSubspace,
    doa.estimator.musicNoiseSubspace e data params = Ret noiseSubspace
    /\ Z.of_nat (length noiseSubspace)
       = (doa.estimator.ElementCount params - doa.estimator.NumSources params)%Z
    /\ Forall (fun u =>
                 exists i,
                   (i < Z.to_nat (doa.estimator.ElementCount params))%nat
                   /\ u = unitRow (Z.to_nat (doa.estimator.ElementCount params)) i)
              noiseSubspace
    /\ doa.estimator.findPeaks e
         (musicSpectrum noiseSubspace
            (Z.to_nat (doa.estimator.ElementCount params)))
         (doa.estimator.NumSources params)
       = Ret (map (peakAngle 360)
                  (firstn (Z.to_nat (doa.estimator.NumSources params))
                     (doa.exchangeSort doa.estimator.value
                        (doa.estimator.localMaxima
                           (musicSpectrum noiseSubspace
                              (Z.to_nat (doa.estimator.ElementCount params)))))))
    /\ doa.estimator.musicAlgorithm e data params
       = Ret (musicSpectrum noiseSubspace
                (Z.to_nat (doa.estimator.ElementCount params)),
              map (peakAngle 360)
                  (firstn (Z.to_nat (doa.estimator.NumSources params))
                     (doa.exchangeSort doa.estimator.value
                        (doa.estimator.localMaxima
                           (musicSpectrum noiseSubspace
                              (Z.to_nat (doa.estimator.ElementCount params))))))).
Proof.
  intros Hvalid.
  destruct (musicNoiseSubspace_Ret e Hvalid) as [ns [Hns [Hlen Hrows]]].
  destruct Hvalid as [HM [HN [HK Hdata]]].
  assert (Hfp : doa.estimator.findPeaks e
         (musicSpectrum ns (Z.to_nat (doa.estimator.ElementCount params)))
         (doa.estimator.NumSources params)
       = Ret (map (peakAngle 360)
                  (firstn (Z.to_nat (doa.estimator.NumSources params))
                     (doa.exchangeSort doa.estimator.value
                        (doa.estimator.localMaxima
                           (musicSpectrum ns
                              (Z.to_nat (doa.estimator.ElementCount params)))))))).
  { rewrite findPeaks_Ret by lia.
    unfold musicSpectrum at 1. rewrite length_map, length_upto. reflexivity. }
  exists ns. split; [exact Hns |]. split; [exact Hlen |].
  split; [exact Hrows |]. split; [exact Hfp |].
  unfold doa.estimator.musicAlgorithm. rewrite Hns. cbn [bind].
  rewrite make_len_nonneg by lia. cbn [bind].
  rewrite spectrum_loop_Ret.
  - fold (musicSpectrum ns (Z.to_nat (doa.estimator.ElementCount params))).
    cbn [bind]. rewrite Hfp. reflexivity.
  - apply Forall_forall. intros u Hu. rewrite Forall_forall in Hrows.
    destruct (Hrows u Hu) as [i [_ ->]]. rewrite unitRow_length.
    apply Nat.le_refl.
Qed.

Lemma mapM_nth {A B : Type} (f : A -> go B) (xs : list A) (ys : list B)
  (i : nat) (dx : A) (dy : B) :
  mapM f xs = Ret ys -> (i < length xs)%nat ->
  f (nth i xs dx) = Ret (nth i ys dy).
Proof.
  revert ys i. induction xs as [|x xs IH]; simpl; intros ys i H Hi; [lia |].
  apply bind_Ret in H. destruct H as [y [Hy H]].
  apply bind_Ret in H. destruct H as [ys' [H1 H]].
  inversion H; subst. destruct i as [|i]; simpl; [assumption |].
  apply IH; [assumption | lia].
Qed.

Lemma make_len_Ret (n : Z) (len : nat) :
  make_len n = Ret len -> len = Z.to_nat n /\ (0 <= n)%Z.
Proof.
  unfold make_len. destruct (n <? 0)%Z eqn:E; intros H; [discriminate |].
  inversion H. apply Z.ltb_ge in E. split; [reflexivity | assumption].
Qed.

(** The steps of a run of [musicAlgorithm] that returns. *)
Lemma musicAlgorithm_inv (e : doa.estimator.Estimator)
  (data : list complex128) (params : doa.estimator.DOAParams)
  (spectrum angles : list R) :
  doa.estimator.musicAlgorithm e data params = Ret (spectrum, angles) ->
  exists noiseSubspace,
    doa.estimator.musicNoiseSubspace e data params = Ret noiseSubspace
    /\ mapM (doa.estimator.spectrumPoint noiseSubspace
               (Z.to_nat (doa.estimator.ElementCount params)) 360)
            (upto 360) = Ret spectrum
    /\ doa.estimator.findPeaks e spectrum (doa.estimator.NumSources params)
       = Ret angles.
Proof.
  unfold doa.estimator.musicAlgorithm. intros H.
  apply bind_Ret in H. destruct H as [ns [Hns H]].
  apply bind_Ret in H. destruct H as [ec [Hec H]].
  apply bind_Ret in H. destruct H as [s [Hs H]].
  apply bind_Ret in H. destruct H as [a [Ha H]].
  inversion H; subst s a.
  apply make_len_Ret in Hec. destruct Hec as [-> _].
  exists ns. repeat split; assumption.
Qed.

Lemma spectrum_loop_spec (noiseSubspace : list (list complex128))
  (elementCount : nat) (spectrum : list R) :
  mapM (doa.estimator.spectrumPoint noiseSubspace elementCount 360) (upto 360)
  = Ret spectrum ->
  spectrumPointSpec noiseSubspace elementCount spectrum.
Proof.
  intros Hs. split.
  - rewrite (mapM_length _ _ Hs). apply length_upto.
  - intros i Hi.
    assert (Hi0 : (i < length (upto 360))%nat) by (rewrite length_upto; exact Hi).
    pose proof (@mapM_nth _ _ _ _ _ i 0%nat 0 Hs Hi0) as Hi'.
    rewrite nth_upto in Hi' by assumption.
    unfold doa.estimator.spectrumPoint in Hi'.
    apply bind_Ret in Hi'. destruct Hi' as [denom [Hd Hv]].
    assert (Htheta : doa.estimator.gridAngle 360 i = - PI / 2 + INR i * PI / 360).
    { unfold doa.estimator.gridAngle, float64n. simpl INR. lra. }
    rewrite Htheta in Hd. exists denom. split; [assumption |].
    inversion Hv as [Hv']. fold (spectrumValue denom).
    apply spectrumValue_cases.
Qed.

(** C9: whenever [musicAlgorithm] returns, and it does on every valid
    input, its spectrum has 360 points and the value at grid angle i is
    the reciprocal [1/denom] of the noise-subspace projection energy
    [denom = sum_k |u_k^H a(theta_i)|^2] exactly when [denom] exceeds the
    floor 1e-10, and the sentinel 1e10 otherwise; hence every value lies
    in (0, 1e10] and no reciprocal of a denominator at or below the floor
    is taken. *)
Theorem C9_spectrum_floor_and_sentinel (e : doa.estimator.Estimator)
  (data : list complex128) (params : doa.estimator.DOAParams) :
  musicSpectrumSpec e data params.
Proof.
  split.
  - intros spectrum angles H.
    destruct (musicAlgorithm_inv _ _ _ H) as [ns [Hns [Hs _]]].
    exists ns. split; [assumption |]. apply spectrum_loop_spec. assumption.
  - intros Hvalid.
    destruct (musicAlgorithm_Ret e Hvalid) as [ns [Hns [Hlen [Hrows [_ Hma]]]]].
    exists ns. eexists. eexists. split; [exact Hns |]. split; [exact Hma |].
    intros i Hi. apply musicDenominator_Ret.
    apply Forall_forall. intros u Hu. rewrite Forall_forall in Hrows.
    destruct (Hrows u Hu) as [k [_ ->]]. rewrite unitRow_length.
    apply Nat.le_refl.
Qed.

Lemma smallMusicParams_valid : validMusicInput [C1] smallMusicParams.
Proof.
  unfold validMusicInput, smallMusicParams; simpl.
  repeat split; try lia. discriminate.
Qed.

(** ** Peak search *)

Lemma Rgtb_true (x y : R) : Rgtb x y = true <-> x > y.
Proof.
  unfold Rgtb. destruct (Rgt_dec x y); split; intros H;
    try reflexivity; try assumption; try discriminate; contradiction.
Qed.

Lemma localMaxima_In (spectrum : list R) (p : doa.estimator.peak) :
  In p (doa.estimator.localMaxima spectrum) <-> isStrictLocalMax spectrum p.
Proof.
  unfold doa.estimator.localMaxima, isStrictLocalMax.
  rewrite in_flat_map. split.
  - intros [i [Hi Hp]]. apply in_seq in Hi.
    destruct (Rgtb (nth i spectrum 0) (nth (i - 1) spectrum 0)) eqn:E1;
      [| contradiction].
    destruct (Rgtb (nth i spectrum 0) (nth (i + 1) spectrum 0)) eqn:E2;
      [| contradiction].
    simpl in Hp. destruct Hp as [<-|[]]. simpl.
    apply Rgtb_true in E1. apply Rgtb_true in E2.
    repeat split; try assumption; lia.
  - destruct p as [i v]. simpl. intros [H1 [H2 [H3 [H4 H5]]]].
    exists i. split; [apply in_seq; lia |].
    apply Rgtb_true in H3. apply Rgtb_true in H4. rewrite H3, H4. simpl.
    left. rewrite H5. reflexivity.
Qed.

Lemma localMaxima_NoDup (spectrum : list R) :
  NoDup (doa.estimator.localMaxima spectrum).
Proof.
  unfold doa.estimator.localMaxima.
  generalize (seq_NoDup (length spectrum - 2) 1).
  generalize (seq 1 (length spectrum - 2)) as l.
  induction l as [|i l IH]; intros Hnd; [constructor |].
  inversion Hnd as [|? ? Hi Hl]; subst. cbn [flat_map].
  destruct (_ && _)%bool; [| apply IH; assumption].
  cbn [app]. constructor; [| apply IH; assumption].
  intros Hin. apply in_flat_map in Hin. destruct Hin as [j [Hj Hp]].
  destruct (_ && _)%bool; [| contradiction].
  destruct Hp as [Hp|[]]. apply (f_equal doa.estimator.index) in Hp.
  simpl in Hp. subst j. contradiction.
Qed.

Lemma findPeaks_spec (e : doa.estimator.Estimator) (spectrum : list R) (K : Z) :
  (0 <= K)%Z ->
  findPeaksSpec e spectrum K
    (map (peakAngle (length spectrum))
         (firstn (Z.to_nat K)
                 (doa.exchangeSort doa.estimator.value
                    (doa.estimator.localMaxima spectrum)))).
Proof.
  intros HK. unfold findPeaksSpec.
  exists (doa.exchangeSort doa.estimator.value (doa.estimator.localMaxima spectrum)).
  split; [apply findPeaks_Ret; assumption |]. split.
  - intros p. rewrite <- localMaxima_In. split; intros H.
    + apply (Permutation_in p
               (exchangeSort_perm doa.estimator.value
                  (doa.estimator.localMaxima spectrum))).
      assumption.
    + apply (Permutation_in p
               (Permutation_sym
                  (exchangeSort_perm doa.estimator.value
                     (doa.estimator.localMaxima spectrum)))).
      assumption.
  - split.
    { apply (Permutation_NoDup
               (Permutation_sym
                  (exchangeSort_perm doa.estimator.value
                     (doa.estimator.localMaxima spectrum)))).
      apply localMaxima_NoDup. }
    split; [apply exchangeSort_perm |].
    split; [apply exchangeSort_sorted |].
    split; [reflexivity |].
    rewrite length_map, length_firstn. split; [reflexivity | lia].
Qed.

Lemma findPeaks_nonneg (e : doa.estimator.Estimator) (spectrum : list R)
  (numPeaks : Z) (angles : list R) :
  doa.estimator.findPeaks e spectrum numPeaks = Ret angles -> (0 <= numPeaks)%Z.
Proof.
  unfold doa.estimator.findPeaks.
  set (peaks := doa.exchangeSort _ _).
  destruct (Z.of_nat (length peaks) >? numPeaks)%Z eqn:E.
  - destruct (numPeaks <? 0)%Z eqn:E'; [discriminate |].
    intros _. apply Z.ltb_ge in E'. assumption.
  - intros _. rewrite Z.gtb_ltb in E. apply Z.ltb_ge in E. lia.
Qed.

Lemma threePeaks_maxima :
  doa.estimator.localMaxima threePeaks
  = [ {| doa.estimator.index := 1; doa.estimator.value := 1 |};
      {| doa.estimator.index := 3; doa.estimator.value := 3 |};
      {| doa.estimator.index := 5; doa.estimator.value := 2 |} ].
Proof.
  unfold doa.estimator.localMaxima, threePeaks. cbn [length Nat.sub seq flat_map nth Nat.add].
  unfold Rgtb.
  repeat match goal with
         | |- context [Rgt_dec ?a ?b] => destruct (Rgt_dec a b); try lra
         end.
  reflexivity.
Qed.

Lemma threePeaks_sorted :
  doa.exchangeSort doa.estimator.value (doa.estimator.localMaxima threePeaks)
  = [ {| doa.estimator.index := 3; doa.estimator.value := 3 |};
      {| doa.estimator.index := 5; doa.estimator.value := 2 |};
      {| doa.estimator.index := 1; doa.estimator.value := 1 |} ].
Proof.
  rewrite threePeaks_maxima.
  unfold doa.exchangeSort. cbn [length doa.exchangeSortN doa.sink doa.estimator.value].
  repeat (unfold Rltb;
          match goal with
          | |- context [Rlt_dec ?a ?b] =>
              destruct (Rlt_dec a b); try lra;
              cbn [doa.exchangeSortN doa.sink doa.estimator.value]
          end).
  reflexivity.
Qed.

Lemma threePeaks_findPeaks (e : doa.estimator.Estimator) :
  doa.estimator.findPeaks e threePeaks 2
  = Ret [- PI / 2 + float64n 3 * PI / float64n 7;
         - PI / 2 + float64n 5 * PI / float64n 7].
Proof.
  rewrite findPeaks_Ret by lia. rewrite threePeaks_sorted. reflexivity.
Qed.

(** C2 (amended): on every spectrum and for every K >= 0, [findPeaks]
    collects the strict interior local maxima of the spectrum (each
    once), exchange-sorts them by descending peak value and returns the
    grid angles of the first K; when p < K peaks exist it returns the p
    angles found and adds no fallback angle, so the number of angles is
    min(K, p).  Whenever MUSIC's estimation returns, and it does on every
    valid input, it returns its 360-point spectrum and what [findPeaks]
    returns on that spectrum.  (The statement is about every spectrum:
    with the placeholder eigenvectors the exact spectrum is flat, and
    the peaks a run finds come from rounding.) *)
Theorem C2_music_returns_min_K_peaks (e : doa.estimator.Estimator)
  (data : list complex128) (params : doa.estimator.DOAParams)
  (spectrum : list R) (K : Z) :
  (0 <= K)%Z ->
  (exists angles, findPeaksSpec e spectrum K angles)
  /\ musicAnglesSpec e data params.
Proof.
  intros HK0. split; [eexists; apply findPeaks_spec; assumption |].
  split.
  - intros spectrum' angles H.
    destruct (musicAlgorithm_inv _ _ _ H) as [ns [_ [Hs Hfp]]].
    split; [rewrite (mapM_length _ _ Hs); apply length_upto |].
    pose proof (findPeaks_nonneg _ _ _ Hfp) as HK.
    pose proof (@findPeaks_spec e spectrum' (doa.estimator.NumSources params) HK)
      as Hspec.
    rewrite (findPeaks_Ret e spectrum' HK) in Hfp. inversion Hfp as [Ha].
    exact Hspec.
  - intros Hvalid.
    destruct (musicAlgorithm_Ret e Hvalid) as [ns [_ [_ [_ [_ Hma]]]]].
    eexists. eexists. exact Hma.
Qed.

Lemma C2_music_returns_min_K_peaks_witness :
  (exists angles,
      findPeaksSpec (doa.estimator.NewEstimator 2 1 1 "MUSIC") threePeaks 2 angles
      /\ angles = [- PI / 2 + float64n 3 * PI / float64n 7;
                   - PI / 2 + float64n 5 * PI / float64n 7])
  /\ musicAnglesSpec (doa.estimator.NewEstimator 2 1 1 "MUSIC") [C1]
       smallMusicParams.
Proof.
  destruct (@C2_music_returns_min_K_peaks (doa.estimator.NewEstimator 2 1 1 "MUSIC")
              [C1] smallMusicParams threePeaks 2)
    as [[angles Hspec] Hmusic]; [lia |].
  split; [| exact Hmusic].
  exists angles. split; [exact Hspec |].
  destruct Hspec as [peaks [Hfp _]].
  rewrite threePeaks_findPeaks in Hfp. injection Hfp as Hfp. symmetry. exact Hfp.
Defined.

Lemma localMaxima_constant (c : R) (n : nat) :
  doa.estimator.localMaxima (map (fun _ => c) (upto n)) = [].
Proof.
  destruct (doa.estimator.localMaxima (map (fun _ => c) (upto n))) as [|p l] eqn:E;
    [reflexivity |].
  assert (Hp : In p (doa.estimator.localMaxima (map (fun _ : nat => c) (upto n))))
    by (rewrite E; left; reflexivity).
  apply localMaxima_In in Hp. unfold isStrictLocalMax in Hp.
  rewrite length_map, length_upto in Hp.
  destruct Hp as [H1 [H2 [H3 _]]].
  rewrite !(nth_map_upto (fun _ => c)) in H3 by lia. lra.
Qed.

(** The projection of a steering vector on a unit vector is one of its
    entries, of modulus one: the placeholder eigenvectors make every
    denominator of the pseudo-spectrum the dimension of the noise
    subspace. *)
Lemma projectionEnergy_unit_rows (noiseSubspace : list (list complex128))
  (elementCount : nat) (angle : R) :
  Forall (fun u => exists i, (i < elementCount)%nat /\ u = unitRow elementCount i)
         noiseSubspace ->
  projectionEnergy noiseSubspace elementCount angle = INR (length noiseSubspace).
Proof.
  intros Hunit. rewrite Forall_forall in Hunit. unfold projectionEnergy.
  rewrite (Rsum_ext_in _ (fun _ => 1)).
  - rewrite Rsum_const. lra.
  - intros u Hu. destruct (Hunit u Hu) as [i [Hi ->]].
    rewrite (Csum_ext_in _
               (fun n => if Nat.eqb n i
                         then Exp (complex 0 (2 * PI * float64n n * 0.5 * sin angle))
                         else C0)).
    + rewrite Csum_indicator by assumption. rewrite Abs_Exp_imag. lra.
    + intros n Hn. apply in_upto in Hn. unfold unitRow.
      rewrite nth_map_upto by assumption.
      destruct (Nat.eqb n i).
      * rewrite Conj_C1, Cmul_C1_l. reflexivity.
      * rewrite Conj_C0, Cmul_C0_l. reflexivity.
Qed.

(** C2, as stated, fails: for two elements and K = 1 source the one
    noise-subspace vector is a unit vector, every denominator is 1, the
    spectrum is flat, it has no strict local maximum and [musicAlgorithm]
    returns no angle at all instead of K = 1 angles. *)
Lemma C2_counterexample_fewer_than_K_angles :
  exists spectrum,
    doa.estimator.musicAlgorithm (doa.estimator.NewEstimator 2 1 1 "MUSIC")
      [C1] smallMusicParams = Ret (spectrum, [])
    /\ length spectrum = 360%nat
    /\ doa.estimator.NumSources smallMusicParams = 1%Z.
Proof.
  destruct (musicAlgorithm_Ret (doa.estimator.NewEstimator 2 1 1 "MUSIC")
              smallMusicParams_valid)
    as [ns [_ [Hlen [Hunit [_ Hma]]]]].
  assert (Hflat : musicSpectrum ns (Z.to_nat (doa.estimator.ElementCount
                                               smallMusicParams))
                  = map (fun _ => spectrumValue (INR (length ns))) (upto 360)).
  { unfold musicSpectrum. apply map_ext. intros i.
    rewrite projectionEnergy_unit_rows by assumption. reflexivity. }
  rewrite Hflat in Hma. rewrite localMaxima_constant in Hma.
  eexists. split; [exact Hma |]. split; [| reflexivity].
  rewrite length_map, length_upto. reflexivity.
Qed.

(** ** RMSE *)

(** C4, on the code: [ComputeRMSE] pairs the two slices position by
    position without sorting either, so reordering one argument changes
    the result: against the truth [0, 1] the estimate [0, 1] scores 0 and
    its reordering [1, 0] scores 1. *)
Theorem C4_rmse_depends_on_order (e : doa.esprit.ESPRITEstimator) :
  doa.esprit.ComputeRMSE e [0; 1] [0; 1] = doa.Fin 0
  /\ doa.esprit.ComputeRMSE e [1; 0] [0; 1] = doa.Fin 1
  /\ Permutation [1; 0] [0; 1].
Proof.
  split; [| split].
  - unfold doa.esprit.ComputeRMSE. simpl negb. cbn iota.
    f_equal. unfold upto. simpl seq. rewrite !Rsum_cons, Rsum_nil. simpl nth.
    replace ((0 - 0) * (0 - 0) + ((1 - 1) * (1 - 1) + 0)) with 0 by lra.
    unfold Rdiv. rewrite Rmult_0_l. apply sqrt_0.
  - unfold doa.esprit.ComputeRMSE. simpl negb. cbn iota.
    f_equal. unfold upto. simpl seq. rewrite !Rsum_cons, Rsum_nil. simpl nth.
    replace (((1 - 0) * (1 - 0) + ((0 - 1) * (0 - 1) + 0)) / float64n (length [1; 0]))
      with 1 by (unfold float64n; simpl; lra).
    apply sqrt_1.
  - apply perm_swap.
Qed.

(** ** The rotation-operator solve *)

Lemma Exp_imag (phase : R) : Exp (complex 0 phase) = complex (cos phase) (sin phase).
Proof. unfold Exp; simpl. rewrite exp_0. apply complex_eq; simpl; ring. Qed.

Lemma solveRotationMatrix_singular (F : doa.mat.Factorizations)
  (e : doa.esprit.ESPRITEstimator) (Us1 Us2 : doa.mat.CDense) (K : Z)
  (G : doa.mat.Dense) :
  (1 <= K)%Z ->
  doa.mat.Mul (doa.mat.T (map (map real) Us1)) (map (map real) Us1) = Ret G ->
  doa.mat.Inverse G = None ->
  doa.esprit.solveRotationMatrix e Us1 Us2 K = Ret (placeholderRotation K).
Proof.
  intros HK HG Hinv. unfold doa.esprit.solveRotationMatrix.
  rewrite HG. cbn [bind]. rewrite Hinv.
  rewrite NewCDense_positive by assumption. cbn [bind].
  unfold placeholderRotation. apply f_equal.
  apply map_ext. intros i. apply map_ext. intros j.
  destruct (Nat.eqb i j); [apply Exp_imag | reflexivity].
Qed.

(** C1 (amended): the result types carry no [degenerate] flag; when the
    inversion of [Us1^T Us1] reports an error, [solveRotationMatrix]
    returns, whatever the two sub-array matrices are, the K-by-K diagonal
    placeholder with entries [exp(j*i*pi/K)], as an ordinary rotation
    operator. *)
Theorem C1_singular_solve_returns_placeholder (F : doa.mat.Factorizations)
  (e : doa.esprit.ESPRITEstimator) (Us1 Us2 : doa.mat.CDense) (K : Z)
  (G : doa.mat.Dense) :
  (1 <= K)%Z ->
  doa.mat.Mul (doa.mat.T (map (map real) Us1)) (map (map real) Us1) = Ret G ->
  doa.mat.Inverse G = None ->
  doa.esprit.solveRotationMatrix e Us1 Us2 K = Ret (placeholderRotation K)
  /\ Z.of_nat (doa.mat.Rows (placeholderRotation K)) = K
  /\ forall i j, (i < Z.to_nat K)%nat -> (j < Z.to_nat K)%nat ->
       nth j (nth i (placeholderRotation K) []) C0
       = if Nat.eqb i j
         then complex (cos (INR i * PI / IZR K)) (sin (INR i * PI / IZR K))
         else C0.
Proof.
  intros HK HG Hinv.
  split; [apply (@solveRotationMatrix_singular F e Us1 Us2 K G HK HG Hinv) |].
  split.
  - unfold doa.mat.Rows, placeholderRotation.
    rewrite length_map, length_upto. lia.
  - intros i j Hi Hj. unfold placeholderRotation.
    rewrite nth_map_upto by assumption.
    rewrite nth_map_upto by assumption. reflexivity.
Qed.

Lemma scalarInverse_zero : scalarInverse [[0 + 0 * 0]] = None.
Proof.
  unfold scalarInverse, Reqb.
  destruct (Req_dec_T (0 + 0 * 0) 0) as [_|H]; [reflexivity | exfalso; lra].
Qed.

Lemma C1_singular_solve_returns_placeholder_witness :
  doa.esprit.solveRotationMatrix (F := scalarFactorizations)
    (doa.esprit.NewESPRITEstimator smallConfig) [[C0]] [[C0]] 1
  = Ret (placeholderRotation 1)
  /\ Z.of_nat (doa.mat.Rows (placeholderRotation 1)) = 1%Z
  /\ forall i j, (i < Z.to_nat 1)%nat -> (j < Z.to_nat 1)%nat ->
       nth j (nth i (placeholderRotation 1) []) C0
       = if Nat.eqb i j
         then complex (cos (INR i * PI / IZR 1)) (sin (INR i * PI / IZR 1))
         else C0.
Proof.
  apply (@C1_singular_solve_returns_placeholder scalarFactorizations
           (doa.esprit.NewESPRITEstimator smallConfig) [[C0]] [[C0]] 1
           [[0 + 0 * 0]]).
  - lia.
  - reflexivity.
  - exact scalarInverse_zero.
Defined.

Lemma placeholderRotation_1 : placeholderRotation 1 = [[C1]].
Proof.
  unfold placeholderRotation. simpl.
  replace (0 * PI / 1) with 0 by lra. rewrite cos_0, sin_0. reflexivity.
Qed.

Lemma solveRotationMatrix_scalar_one :
  doa.esprit.solveRotationMatrix (F := scalarFactorizations)
    (doa.esprit.NewESPRITEstimator smallConfig) [[C1]] [[C1]] 1
  = Ret [[C1]].
Proof.
  unfold doa.esprit.solveRotationMatrix.
  change (doa.mat.Mul (doa.mat.T (map (map real) [[C1]])) (map (map real) [[C1]]))
    with (Ret (A := doa.mat.Dense) [[0 + 1 * 1]]).
  cbn [bind]. cbn [doa.mat.Inverse scalarFactorizations scalarInverse].
  unfold Reqb. destruct (Req_dec_T (0 + 1 * 1) 0) as [H|_]; [exfalso; lra |].
  change (doa.mat.Mul [[/ (0 + 1 * 1)]] [[0 + 1 * 1]])
    with (Ret (A := doa.mat.Dense) [[0 + / (0 + 1 * 1) * (0 + 1 * 1)]]).
  change (Z.to_nat 1) with 1%nat.
  run_go. apply f_equal.
  apply (f_equal (fun x => [[complex x 0]])). field.
Qed.

(** C1, as stated, fails: for the singular sub-array matrix [[0]] (its
    Gram matrix is not invertible) the solve returns the rotation
    operator [[1]], the very value it returns for the regular sub-array
    matrices [[1]], [[1]]; nothing in the result tells the two apart. *)
Lemma C1_counterexample_placeholder_is_indistinguishable :
  scalarInverse [[0 + 0 * 0]] = None
  /\ doa.esprit.solveRotationMatrix (F := scalarFactorizations)
       (doa.esprit.NewESPRITEstimator smallConfig) [[C0]] [[C0]] 1
     = Ret [[C1]]
  /\ doa.esprit.solveRotationMatrix (F := scalarFactorizations)
       (doa.esprit.NewESPRITEstimator smallConfig) [[C1]] [[C1]] 1
     = Ret [[C1]].
Proof.
  split; [exact scalarInverse_zero |]. split.
  - rewrite <- placeholderRotation_1.
    apply (@solveRotationMatrix_singular scalarFactorizations
             (doa.esprit.NewESPRITEstimator smallConfig) [[C0]] [[C0]] 1
             [[0 + 0 * 0]]).
    + lia.
    + reflexivity.
    + exact scalarInverse_zero.
  - exact solveRotationMatrix_scalar_one.
Qed.

(** ** ESPRIT's EstimateDOA *)

Section EstimateDOA.

Context {F : doa.mat.Factorizations}.

Lemma esprit_covariance_rows (e : doa.esprit.ESPRITEstimator)
  (X : list (list complex128)) (C : doa.mat.CDense) :
  doa.esprit.computeCovarianceMatrix e X = Ret C -> length C = length X.
Proof.
  unfold doa.esprit.computeCovarianceMatrix. intros H.
  apply bind_Ret in H. destruct H as [X0 [_ H]].
  apply bind_Ret in H. destruct H as [z [_ H]].
  rewrite (mapM_length _ _ H). apply length_upto.
Qed.

Lemma extractSignalSubspace_inl (e : doa.esprit.ESPRITEstimator)
  (covMatrix ss : doa.mat.CDense) (numSources : Z) :
  doa.esprit.extractSignalSubspace e covMatrix numSources = Ret (inl ss) ->
  (1 <= Z.of_nat (length covMatrix) - numSources)%Z
  /\ (1 <= numSources)%Z
  /\ length ss = Z.to_nat (Z.of_nat (length covMatrix) - numSources).
Proof.
  unfold doa.esprit.extractSignalSubspace. intros H.
  apply bind_Ret in H. destruct H as [rc [_ H]].
  destruct (doa.mat.SVD_U rc) as [u|]; [| discriminate].
  apply bind_Ret in H. destruct H as [z [Hnew H]].
  apply bind_Ret in H. destruct H as [ss' [Hss H]].
  inversion H; subst ss'.
  unfold doa.mat.NewCDense, doa.mat.New, doa.mat.Rows in Hnew.
  destruct (Z.of_nat (length covMatrix) - numSources <=? 0)%Z eqn:E1;
    [discriminate |].
  destruct (numSources <=? 0)%Z eqn:E2; [discriminate |].
  apply Z.leb_gt in E1. apply Z.leb_gt in E2.
  split; [lia |]. split; [lia |].
  rewrite (mapM_length _ _ Hss). apply length_upto.
Qed.

Lemma espritCore_inl (e : doa.esprit.ESPRITEstimator)
  (ss : doa.mat.CDense) (M K : Z) (angles : list R) :
  doa.esprit.espritCore e ss M K = Ret (inl angles) ->
  (M - 1 <= Z.of_nat (length ss))%Z.
Proof.
  unfold doa.esprit.espritCore, doa.mat.Rows. intros H.
  destruct (Z.of_nat (length ss) <? M - 1)%Z eqn:E; [discriminate |].
  apply Z.ltb_ge in E. assumption.
Qed.

(** Angle estimates are only produced for exactly one source. *)
Lemma EstimateDOA_inl (e e' : doa.esprit.ESPRITEstimator)
  (signal : list (list complex128)) (result : doa.esprit.ESPRITResult) :
  doa.esprit.EstimateDOA e signal = Ret (inl result, e') ->
  doa.esprit.NumSources (doa.esprit.config e) = 1%Z.
Proof.
  unfold doa.esprit.EstimateDOA. intros H.
  destruct (Z.of_nat (length signal) =? doa.esprit.NumAntennas (doa.esprit.config e))%Z
    eqn:EM; simpl in H; [| discriminate].
  apply Z.eqb_eq in EM.
  apply bind_Ret in H. destruct H as [cov [Hcov H]].
  apply bind_Ret in H. destruct H as [ev [_ H]].
  apply bind_Ret in H. destruct H as [r [Hss H]].
  destruct r as [ss|err]; [| discriminate].
  apply bind_Ret in H. destruct H as [r' [Hcore H]].
  destruct r' as [angles|err]; [| discriminate].
  apply esprit_covariance_rows in Hcov.
  apply extractSignalSubspace_inl in Hss. destruct Hss as [H1 [H2 H3]].
  apply espritCore_inl in Hcore. lia.
Qed.

End EstimateDOA.

Section EstimateDOAErrors.

Context {F : doa.mat.Factorizations}.
Hypothesis shapes : documentedShapes F.

Lemma At_Ret {T : Type} (m : list (list T)) (i j : nat) (d : T) :
  (i < length m)%nat -> (j < length (nth i m []))%nat ->
  doa.mat.At m i j = Ret (nth j (nth i m []) d).
Proof.
  intros Hi Hj. unfold doa.mat.At.
  rewrite (elemAt_Ret m [] Hi). cbn [bind]. apply elemAt_Ret. assumption.
Qed.

Lemma NewDense_positive (r c : Z) :
  (1 <= r)%Z -> (1 <= c)%Z ->
  doa.mat.NewDense r c = Ret (repeat (repeat 0 (Z.to_nat c)) (Z.to_nat r)).
Proof.
  intros Hr Hc. unfold doa.mat.NewDense, doa.mat.New.
  destruct (r <=? 0)%Z eqn:Er; [apply Z.leb_le in Er; lia |].
  destruct (c <=? 0)%Z eqn:Ec; [apply Z.leb_le in Ec; lia |].
  reflexivity.
Qed.

Lemma realCov_Ret (covMatrix : doa.mat.CDense) :
  (1 <= length covMatrix)%nat ->
  Forall (fun row => length row = length covMatrix) covMatrix ->
  exists rc,
    doa.esprit.realCov covMatrix = Ret rc /\ length rc = length covMatrix.
Proof.
  intros HM Hsq. rewrite Forall_forall in Hsq.
  unfold doa.esprit.realCov, doa.mat.Rows.
  rewrite NewDense_positive by lia. cbn [bind].
  match goal with
  | |- exists rc, mapM ?f ?xs = Ret rc /\ _ =>
      destruct (mapM_total f xs) as [rc Hrc]
  end.
  - intros i Hi. apply in_upto in Hi.
    match goal with
    | |- exists y, mapM ?f ?xs = Ret y => apply (mapM_total f xs)
    end.
    intros j Hj. apply in_upto in Hj.
    rewrite (At_Ret covMatrix C0 Hi)
      by (rewrite (Hsq _ (nth_In covMatrix [] Hi)); assumption).
    cbn [bind]. eexists. reflexivity.
  - exists rc. split; [assumption |].
    rewrite (mapM_length _ _ Hrc). apply length_upto.
Qed.

Lemma computeEigenvalues_Ret (e : doa.esprit.ESPRITEstimator)
  (covMatrix : doa.mat.CDense) :
  (1 <= length covMatrix)%nat ->
  Forall (fun row => length row = length covMatrix) covMatrix ->
  exists eigenvalues,
    doa.esprit.computeEigenvalues e covMatrix = Ret eigenvalues.
Proof.
  intros HM Hsq. destruct (realCov_Ret HM Hsq) as [rc [Hrc Hlen]].
  unfold doa.esprit.computeEigenvalues. rewrite Hrc. cbn [bind].
  destruct (doa.mat.EigenValues rc) as [values|] eqn:E.
  - destruct shapes as [Hvalues _]. specialize (Hvalues rc values E).
    match goal with
    | |- exists ev, bind (mapM ?f ?xs) _ = Ret ev =>
        destruct (mapM_total f xs) as [ev Hev]
    end.
    + intros i Hi. apply in_upto in Hi. unfold doa.mat.Rows in Hi.
      rewrite (elemAt_Ret values C0) by lia. cbn [bind].
      eexists. reflexivity.
    + rewrite Hev. cbn [bind]. eexists. reflexivity.
  - eexists. reflexivity.
Qed.

Lemma extractSignalSubspace_cases (e : doa.esprit.ESPRITEstimator)
  (covMatrix : doa.mat.CDense) (numSources : Z) :
  (1 <= numSources < Z.of_nat (length covMatrix))%Z ->
  Forall (fun row => length row = length covMatrix) covMatrix ->
  exists rc,
    doa.esprit.realCov covMatrix = Ret rc
    /\ match doa.mat.SVD_U rc with
       | None =>
           doa.esprit.extractSignalSubspace e covMatrix numSources
           = Ret (inr (doa.Errorf "SVD factorization failed" []))
       | Some u =>
           exists ss,
             doa.esprit.extractSignalSubspace e covMatrix numSources
             = Ret (inl ss)
             /\ Z.of_nat (length ss)
                = (Z.of_nat (length covMatrix) - numSources)%Z
       end.
Proof.
  intros HK Hsq.
  destruct (@realCov_Ret covMatrix) as [rc [Hrc Hlen]]; [lia | assumption |].
  exists rc. split; [assumption |].
  unfold doa.esprit.extractSignalSubspace. rewrite Hrc. cbn [bind].
  destruct (doa.mat.SVD_U rc) as [u|] eqn:E; [| reflexivity].
  destruct shapes as [_ Hu]. destruct (Hu rc u E) as [Hrows Hcols].
  rewrite Forall_forall in Hcols.
  unfold doa.mat.Rows. rewrite NewCDense_positive by lia. cbn [bind].
  match goal with
  | |- exists ss, bind (mapM ?f ?xs) _ = Ret (inl ss) /\ _ =>
      destruct (mapM_total f xs) as [ss Hss]
  end.
  - intros i Hi. apply in_upto in Hi.
    match goal with
    | |- exists y, mapM ?f ?xs = Ret y => apply (mapM_total f xs)
    end.
    intros j Hj. apply in_upto in Hj.
    assert (Hi' : (i < length u)%nat) by lia.
    rewrite (At_Ret u 0 Hi')
      by (rewrite (Hcols _ (nth_In u [] Hi')); lia).
    cbn [bind]. eexists. reflexivity.
  - rewrite Hss. cbn [bind]. exists ss. split; [reflexivity |].
    rewrite (mapM_length _ _ Hss), length_upto. lia.
Qed.

Lemma espritCore_too_small (e : doa.esprit.ESPRITEstimator)
  (ss : doa.mat.CDense) (M K : Z) :
  (Z.of_nat (length ss) < M - 1)%Z ->
  doa.esprit.espritCore e ss M K
  = Ret (inr (doa.Errorf "signal subspace too small" [])).
Proof.
  intros H. unfold doa.esprit.espritCore, doa.mat.Rows.
  destruct (Z.of_nat (length ss) <? M - 1)%Z eqn:E; [reflexivity |].
  apply Z.ltb_ge in E. lia.
Qed.

Lemma EstimateDOA_error (e : doa.esprit.ESPRITEstimator)
  (signal : list (list complex128)) (N : nat) :
  (2 <= doa.esprit.NumSources (doa.esprit.config e)
   < doa.esprit.NumAntennas (doa.esprit.config e))%Z ->
  Z.of_nat (length signal) = doa.esprit.NumAntennas (doa.esprit.config e) ->
  Forall (fun row => length row = N) signal ->
  exists rc,
    doa.esprit.realCov (covarianceOf signal N) = Ret rc
    /\ doa.esprit.EstimateDOA e signal
       = Ret (inr (match doa.mat.SVD_U rc with
                   | None => svdFailed
                   | Some _ => subspaceTooSmall
                   end), e).
Proof.
  intros HK HM Hrect.
  destruct (covarianceOf_shape signal N) as [Hclen Hcrows].
  destruct (@extractSignalSubspace_cases e (covarianceOf signal N)
              (doa.esprit.NumSources (doa.esprit.config e)))
    as [rc [Hrc Hss]]; [rewrite Hclen; lia | rewrite Hclen; assumption |].
  destruct (@computeEigenvalues_Ret e (covarianceOf signal N)) as [ev Hev];
    [rewrite Hclen; lia | rewrite Hclen; assumption |].
  exists rc. split; [assumption |].
  unfold doa.esprit.EstimateDOA.
  rewrite HM, Z.eqb_refl. cbn [negb].
  rewrite (@esprit_covariance_Ret e signal N) by (try assumption; lia).
  cbn [bind]. rewrite Hev. cbn [bind].
  destruct (doa.mat.SVD_U rc) as [u|].
  - destruct Hss as [ss [Hss Hlen]]. rewrite Hss. cbn [bind].
    rewrite espritCore_too_small by (rewrite Hlen, Hclen; lia).
    reflexivity.
  - rewrite Hss. reflexivity.
Qed.

End EstimateDOAErrors.

(** C3 (amended): for K >= 2 sources [EstimateDOA] never produces angle
    estimates, whatever the signal; and when moreover K < M and the signal
    has M rows of equal length, it returns an error and leaves the
    estimator unchanged: the SVD failure, or else "signal subspace too
    small", because the subspace has M-K rows and [espritCore] wants M-1.
    (For K >= M, or rows shorter than the first, the call panics instead
    of returning an error.) *)
Theorem C3_esprit_two_sources_never_estimates (F : doa.mat.Factorizations)
  (e : doa.esprit.ESPRITEstimator) :
  (2 <= doa.esprit.NumSources (doa.esprit.config e))%Z ->
  espritErrorSpec F e.
Proof.
  intros HK. split.
  - intros signal result e' H. apply EstimateDOA_inl in H. lia.
  - intros signal N Hshapes HM Hlen Hrect.
    apply EstimateDOA_error; try assumption. lia.
Qed.

Lemma scalarFactorizations_shapes : documentedShapes scalarFactorizations.
Proof.
  split.
  - intros a values H. simpl in H. unfold scalarEigenValues in H.
    destruct a as [|[|x [|y r]] [|r' a]]; try discriminate.
    inversion H. reflexivity.
  - intros a u H. simpl in H. unfold scalarSVD_U in H.
    destruct a as [|[|x [|y r]] [|r' a]]; try discriminate.
    inversion H. split; [reflexivity |]. repeat constructor.
Qed.

Lemma C3_esprit_two_sources_never_estimates_witness :
  (forall signal result e',
      doa.esprit.EstimateDOA (F := scalarFactorizations) (freshEstimator 3 2)
        signal <> Ret (inl result, e'))
  /\ exists rc,
       doa.esprit.realCov
         (covarianceOf [[C1; C0]; [C0; C1]; [C1; C1]] 2) = Ret rc
       /\ doa.esprit.EstimateDOA (F := scalarFactorizations) (freshEstimator 3 2)
            [[C1; C0]; [C0; C1]; [C1; C1]]
          = Ret (inr (match scalarSVD_U rc with
                      | None => svdFailed
                      | Some _ => subspaceTooSmall
                      end), freshEstimator 3 2).
Proof.
  destruct (@C3_esprit_two_sources_never_estimates scalarFactorizations
              (freshEstimator 3 2)) as [Hnever Herror].
  - simpl. lia.
  - split; [exact Hnever |].
    apply (Herror [[C1; C0]; [C0; C1]; [C1; C1]] 2%nat).
    + exact scalarFactorizations_shapes.
    + simpl. lia.
    + reflexivity.
    + repeat constructor.
Defined.

(** C3, as stated, fails in two corners, where the call panics instead
    of returning an error: a signal with the configured three rows whose
    second row is shorter than the first (index out of range in the
    covariance loop), and K = 2 >= M = 1 (the subspace constructor is
    called with M-K = -1 rows). *)
Lemma C3_counterexample_panic_instead_of_error :
  doa.esprit.EstimateDOA (F := scalarFactorizations) (freshEstimator 3 2)
    [[C1; C1]; [C1]; [C1; C1]] = Panic
  /\ doa.esprit.EstimateDOA (F := scalarFactorizations) (freshEstimator 1 2)
       [[C1]] = Panic.
Proof.
  split.
  - unfold doa.esprit.EstimateDOA. run_go. reflexivity.
  - unfold doa.esprit.EstimateDOA. run_go. reflexivity.
Qed.

(** ** The random source and the Monte Carlo loop *)

Lemma randFloat64_constant : doa.esprit.randFloat64 = 123456789 / 1073741824.
Proof.
  unfold doa.esprit.randFloat64, float64, int_of_float.
  rewrite sin_0, Rmult_0_r.
  destruct (Rle_dec 0 0) as [_|H]; [| exfalso; lra].
  replace (Int_part 0) with 0%Z
    by (apply Int_part_spec; simpl; lra).
  reflexivity.
Qed.

Lemma randFloat64_nonzero : Reqb doa.esprit.randFloat64 0 = false.
Proof.
  rewrite randFloat64_constant. unfold Reqb.
  destruct (Req_dec_T (123456789 / 1073741824) 0) as [H|_]; [| reflexivity].
  exfalso. lra.
Qed.

(** The redraw loop never runs: [randNorm] returns with any fuel, and
    always the same value. *)
Lemma randNorm_constant (fuel : nat) :
  doa.esprit.randNorm fuel = Ret gaussianConstant.
Proof.
  unfold doa.esprit.randNorm.
  assert (Hr : doa.esprit.redraw fuel doa.esprit.randFloat64
               = Ret doa.esprit.randFloat64).
  { destruct fuel; simpl; rewrite randFloat64_nonzero; reflexivity. }
  rewrite Hr. cbn [bind]. rewrite randFloat64_constant. reflexivity.
Qed.

Lemma GenerateTestSignal_config (fuel1 fuel2 : nat)
  (e1 e2 : doa.esprit.ESPRITEstimator) (trueAngles : list R) (snrDB : R) :
  doa.esprit.config e1 = doa.esprit.config e2 ->
  doa.esprit.GenerateTestSignal fuel1 e1 trueAngles snrDB
  = doa.esprit.GenerateTestSignal fuel2 e2 trueAngles snrDB.
Proof.
  intros Hcfg. unfold doa.esprit.GenerateTestSignal.
  rewrite Hcfg.
  destruct (make_len (doa.esprit.NumAntennas (doa.esprit.config e2)))
    as [M| |]; cbn [bind]; trivial.
  destruct (mapM (fun _ : nat =>
                    make_len (doa.esprit.SnapshotLength (doa.esprit.config e2)))
                 (upto M)) as [rows| |]; cbn [bind]; trivial.
  apply mapM_ext_in. intros m _. apply mapM_ext_in. intros t _.
  rewrite !randNorm_constant. reflexivity.
Qed.

Lemma GenerateTestSignal_Ret (fuel : nat) (e : doa.esprit.ESPRITEstimator)
  (trueAngles : list R) (snrDB : R) :
  (0 <= doa.esprit.NumAntennas (doa.esprit.config e))%Z ->
  (0 <= doa.esprit.SnapshotLength (doa.esprit.config e))%Z ->
  doa.esprit.GenerateTestSignal fuel e trueAngles snrDB
  = Ret (map (fun m =>
                map (fun t =>
                       Cadd (cleanSample (doa.esprit.config e) trueAngles m t)
                            (noiseSample snrDB))
                    (upto (Z.to_nat (doa.esprit.SnapshotLength (doa.esprit.config e)))))
             (upto (Z.to_nat (doa.esprit.NumAntennas (doa.esprit.config e))))).
Proof.
  intros HM HN. unfold doa.esprit.GenerateTestSignal.
  rewrite (make_len_nonneg HM). cbn [bind].
  rewrite (mapM_Ret_in _ (fun _ => Z.to_nat (doa.esprit.SnapshotLength
                                               (doa.esprit.config e))))
    by (intros; apply make_len_nonneg; assumption).
  cbn [bind].
  apply mapM_Ret_in. intros m _. apply mapM_Ret_in. intros t _.
  rewrite !randNorm_constant. cbn [bind].
  unfold cleanSample, noiseSample, float64n.
  replace 1.0 with 1 by lra. reflexivity.
Qed.

Section Determinism.

Context {F : doa.mat.Factorizations}.

Lemma espritCore_config (e1 e2 : doa.esprit.ESPRITEstimator)
  (ss : doa.mat.CDense) (M K : Z) :
  doa.esprit.config e1 = doa.esprit.config e2 ->
  doa.esprit.espritCore e1 ss M K = doa.esprit.espritCore e2 ss M K.
Proof.
  intros Hcfg. unfold doa.esprit.espritCore, doa.esprit.extractAngles.
  rewrite Hcfg. reflexivity.
Qed.

Ltac same_step :=
  match goal with
  | |- go_rel _ (bind ?c _) (bind ?c' _) =>
      change c' with c; destruct c; cbn [bind go_rel]; trivial
  end.

(** [EstimateDOA] reads the configuration of its receiver only: the
    matrices stored by an earlier call do not influence the result. *)
Lemma EstimateDOA_config (e1 e2 : doa.esprit.ESPRITEstimator)
  (signal : list (list complex128)) :
  doa.esprit.config e1 = doa.esprit.config e2 ->
  go_rel sameOutput (doa.esprit.EstimateDOA e1 signal)
         (doa.esprit.EstimateDOA e2 signal).
Proof.
  intros Hcfg. unfold doa.esprit.EstimateDOA. rewrite <- Hcfg.
  destruct (negb (Z.of_nat (length signal)
                  =? doa.esprit.NumAntennas (doa.esprit.config e1))%Z).
  - simpl. split; [reflexivity | assumption].
  - same_step. same_step. same_step.
    match goal with
    | |- go_rel _ (match ?s with inl _ => _ | inr _ => _ end) _ =>
        destruct s as [ss|err]
    end.
    + rewrite <- (@espritCore_config e1 e2 ss
                    (doa.esprit.NumAntennas (doa.esprit.config e1))
                    (doa.esprit.NumSources (doa.esprit.config e1)) Hcfg).
      same_step.
      match goal with
      | |- go_rel _ (match ?s with inl _ => _ | inr _ => _ end) _ =>
          destruct s as [angles|err]
      end.
      * simpl. split; reflexivity.
      * simpl. split; [reflexivity | assumption].
    + simpl. split; [reflexivity | assumption].
Qed.

Lemma EstimateDOA_keeps_config (e e' : doa.esprit.ESPRITEstimator)
  (signal : list (list complex128)) (r : doa.esprit.ESPRITResult + doa.error) :
  doa.esprit.EstimateDOA e signal = Ret (r, e') ->
  doa.esprit.config e' = doa.esprit.config e.
Proof.
  unfold doa.esprit.EstimateDOA. intros H.
  destruct (negb (Z.of_nat (length signal)
                  =? doa.esprit.NumAntennas (doa.esprit.config e))%Z).
  - inversion H. reflexivity.
  - apply bind_Ret in H. destruct H as [cov [_ H]].
    apply bind_Ret in H. destruct H as [ev [_ H]].
    apply bind_Ret in H. destruct H as [[ss|err] [_ H]].
    + apply bind_Ret in H. destruct H as [[angles|err] [_ H]];
        inversion H; reflexivity.
    + inversion H. reflexivity.
Qed.

Lemma EstimateWithPerformance_config (fuel1 fuel2 : nat)
  (e1 e2 : doa.esprit.ESPRITEstimator) (trueAngles : list R) (snrDB : R) :
  doa.esprit.config e1 = doa.esprit.config e2 ->
  go_rel sameOutput
         (doa.esprit.EstimateWithPerformance fuel1 e1 trueAngles snrDB)
         (doa.esprit.EstimateWithPerformance fuel2 e2 trueAngles snrDB).
Proof.
  intros Hcfg. unfold doa.esprit.EstimateWithPerformance.
  rewrite (GenerateTestSignal_config fuel1 fuel2 e1 e2 trueAngles snrDB Hcfg).
  destruct (doa.esprit.GenerateTestSignal fuel2 e2 trueAngles snrDB)
    as [signal| |]; cbn [bind go_rel]; trivial.
  pose proof (@EstimateDOA_config e1 e2 signal Hcfg) as H.
  destruct (doa.esprit.EstimateDOA e1 signal) as [[r1 s1]| |];
    destruct (doa.esprit.EstimateDOA e2 signal) as [[r2 s2]| |];
    cbn [bind go_rel] in *; try contradiction; trivial.
  destruct H as [Hr Hs]. simpl in Hr, Hs. subst r2.
  destruct r1 as [result|err]; simpl; split; simpl; try reflexivity; assumption.
Qed.

Lemma EstimateWithPerformance_keeps_config (fuel : nat)
  (e e' : doa.esprit.ESPRITEstimator) (trueAngles : list R) (snrDB : R)
  (r : doa.esprit.ESPRITResult + doa.error) :
  doa.esprit.EstimateWithPerformance fuel e trueAngles snrDB = Ret (r, e') ->
  doa.esprit.config e' = doa.esprit.config e.
Proof.
  unfold doa.esprit.EstimateWithPerformance. intros H.
  apply bind_Ret in H. destruct H as [signal [_ H]].
  apply bind_Ret in H. destruct H as [[r0 s0] [Hdoa H]].
  apply EstimateDOA_keeps_config in Hdoa.
  destruct r0; inversion H; subst; assumption.
Qed.

Lemma trialLoop_config (fuel1 fuel2 : nat) (trials : nat)
  (e1 e2 : doa.esprit.ESPRITEstimator) (trueAngles : list R) (snr : R)
  (totalRMSE : doa.xfloat) (successCount : Z) :
  doa.esprit.config e1 = doa.esprit.config e2 ->
  go_rel sameOutput
    (doa.esprit.trialLoop fuel1 trials e1 trueAngles snr totalRMSE successCount)
    (doa.esprit.trialLoop fuel2 trials e2 trueAngles snr totalRMSE successCount).
Proof.
  revert e1 e2 totalRMSE successCount.
  induction trials as [|trials IH]; intros e1 e2 totalRMSE successCount Hcfg.
  - simpl. split; [reflexivity | assumption].
  - cbn [doa.esprit.trialLoop].
    pose proof (@EstimateWithPerformance_config fuel1 fuel2 e1 e2 trueAngles snr Hcfg) as H.
    destruct (doa.esprit.EstimateWithPerformance fuel1 e1 trueAngles snr)
      as [[r1 s1]| |];
      destruct (doa.esprit.EstimateWithPerformance fuel2 e2 trueAngles snr)
      as [[r2 s2]| |];
      cbn [bind go_rel] in *; try contradiction; trivial.
    destruct H as [Hr Hs]. simpl in Hr, Hs. subst r2.
    destruct r1 as [result|err]; apply IH; assumption.
Qed.

Lemma MonteCarlo_fold_config (fuel1 fuel2 : nat)
  (e1 e2 : doa.esprit.ESPRITEstimator) (trueAngles snrRange : list R)
  (numTrials : Z) (results : list (R * doa.esprit.ESPRITResult)) :
  doa.esprit.config e1 = doa.esprit.config e2 ->
  go_rel sameOutput
    (foldM (fun '(results, e) snr =>
              '(totalRMSE, successCount, e') <-
                doa.esprit.trialLoop fuel1 (Z.to_nat numTrials) e trueAngles snr
                  (doa.Fin 0) 0%Z ;;
              Ret (doa.esprit.map_set results snr
                     {| doa.esprit.Angles := [];
                        doa.esprit.RMSE := doa.xdiv totalRMSE (float64 numTrials);
                        doa.esprit.SuccessRate :=
                          float64 successCount / float64 numTrials;
                        doa.esprit.ProcessingTime := 0;
                        doa.esprit.Eigenvalues := [] |}, e'))
           snrRange (results, e1))
    (foldM (fun '(results, e) snr =>
              '(totalRMSE, successCount, e') <-
                doa.esprit.trialLoop fuel2 (Z.to_nat numTrials) e trueAngles snr
                  (doa.Fin 0) 0%Z ;;
              Ret (doa.esprit.map_set results snr
                     {| doa.esprit.Angles := [];
                        doa.esprit.RMSE := doa.xdiv totalRMSE (float64 numTrials);
                        doa.esprit.SuccessRate :=
                          float64 successCount / float64 numTrials;
                        doa.esprit.ProcessingTime := 0;
                        doa.esprit.Eigenvalues := [] |}, e'))
           snrRange (results, e2)).
Proof.
  revert e1 e2 results.
  induction snrRange as [|snr snrRange IH]; intros e1 e2 results Hcfg.
  - simpl. split; [reflexivity | assumption].
  - cbn [foldM].
    pose proof (@trialLoop_config fuel1 fuel2 (Z.to_nat numTrials) e1 e2
                  trueAngles snr (doa.Fin 0) 0%Z Hcfg) as H.
    destruct (doa.esprit.trialLoop fuel1 (Z.to_nat numTrials) e1 trueAngles snr
                (doa.Fin 0) 0%Z) as [[[t1 c1] s1]| |];
      destruct (doa.esprit.trialLoop fuel2 (Z.to_nat numTrials) e2 trueAngles snr
                  (doa.Fin 0) 0%Z) as [[[t2 c2] s2]| |];
      cbn [bind go_rel] in *; try contradiction; trivial.
    destruct H as [Hr Hs]. simpl in Hr, Hs. inversion Hr; subst.
    apply IH. assumption.
Qed.

Lemma MonteCarloSimulation_config (fuel1 fuel2 : nat)
  (e1 e2 : doa.esprit.ESPRITEstimator) (trueAngles snrRange : list R)
  (numTrials : Z) :
  doa.esprit.config e1 = doa.esprit.config e2 ->
  go_rel sameOutput
    (doa.esprit.MonteCarloSimulation fuel1 e1 trueAngles snrRange numTrials)
    (doa.esprit.MonteCarloSimulation fuel2 e2 trueAngles snrRange numTrials).
Proof.
  intros Hcfg. unfold doa.esprit.MonteCarloSimulation.
  apply MonteCarlo_fold_config. assumption.
Qed.

End Determinism.

Section Replicas.

Context {F : doa.mat.Factorizations}.

(** Every trial of the Monte Carlo loop repeats the first one: after
    [trials] passes the total is the first trial's RMSE added [trials]
    times and the success count is [trials] or 0. *)
Lemma trialLoop_replicas (fuel : nat) (e e1 : doa.esprit.ESPRITEstimator)
  (trueAngles : list R) (snr : R) (result : doa.esprit.ESPRITResult) :
  doa.esprit.EstimateWithPerformance fuel e trueAngles snr = Ret (inl result, e1) ->
  forall (trials : nat) (e0 : doa.esprit.ESPRITEstimator)
         (totalRMSE : doa.xfloat) (successCount : Z),
    doa.esprit.config e0 = doa.esprit.config e ->
    exists e',
      doa.esprit.trialLoop fuel trials e0 trueAngles snr totalRMSE successCount
      = Ret (Nat.iter trials (fun t => doa.xadd t (doa.esprit.RMSE result))
                      totalRMSE,
             (successCount
              + (if doa.xltb (doa.esprit.RMSE result) 0.1
                 then Z.of_nat trials else 0))%Z,
             e')
      /\ doa.esprit.config e' = doa.esprit.config e.
Proof.
  intros Hfirst trials.
  induction trials as [|trials IH]; intros e0 totalRMSE successCount Hcfg.
  - exists e0. split; [| assumption]. simpl.
    destruct (doa.xltb (doa.esprit.RMSE result) 0.1);
      rewrite Z.add_0_r; reflexivity.
  - cbn [doa.esprit.trialLoop].
    pose proof (@EstimateWithPerformance_config F fuel fuel e0 e trueAngles snr Hcfg)
      as Hsame.
    rewrite Hfirst in Hsame.
    destruct (doa.esprit.EstimateWithPerformance fuel e0 trueAngles snr)
      as [[r0 s0]| |] eqn:E0; cbn [go_rel] in Hsame; try contradiction.
    destruct Hsame as [Hr Hs]. simpl in Hr, Hs. subst r0. cbn [bind].
    assert (Hs0 : doa.esprit.config s0 = doa.esprit.config e).
    { rewrite (EstimateWithPerformance_keeps_config _ _ _ _ E0). assumption. }
    destruct (IH s0 (doa.xadd totalRMSE (doa.esprit.RMSE result))
                (if doa.xltb (doa.esprit.RMSE result) 0.1
                 then (successCount + 1)%Z else successCount) Hs0)
      as [e' [Hloop Hcfg']].
    exists e'. split; [| assumption]. rewrite Hloop.
    rewrite Nat.iter_succ_r. f_equal. f_equal. f_equal.
    destruct (doa.xltb (doa.esprit.RMSE result) 0.1); lia.
Qed.

End Replicas.

(** C10: [randFloat64] is the constant 123456789/2^30 and [randNorm]
    returns, with any fuel, one constant; so [GenerateTestSignal] adds
    the same "noise" sample to every entry, and two calls of
    [GenerateTestSignal] or of [MonteCarloSimulation] with the same
    arguments on estimators of equal configuration, whatever matrices
    earlier calls stored in them, return the same outputs; within a run
    every trial replicates the first. *)
Theorem C10_test_signal_and_monte_carlo_deterministic
  (F : doa.mat.Factorizations) (fuel1 fuel2 : nat)
  (e1 e2 : doa.esprit.ESPRITEstimator) (trueAngles : list R) (snrDB : R)
  (snrRange : list R) (numTrials : Z) :
  doa.esprit.config e1 = doa.esprit.config e2 ->
  deterministicSpec F fuel1 fuel2 e1 e2 trueAngles snrDB snrRange numTrials.
Proof.
  intros Hcfg. unfold deterministicSpec.
  split; [exact randFloat64_constant |].
  split; [apply randNorm_constant |].
  split; [apply randNorm_constant |].
  split; [apply GenerateTestSignal_config; assumption |].
  split; [apply GenerateTestSignal_Ret |].
  split; [apply MonteCarloSimulation_config; assumption |].
  intros result e' Hfirst trials totalRMSE successCount.
  destruct (@trialLoop_replicas F fuel1 e1 e' trueAngles snrDB result Hfirst
              trials e1 totalRMSE successCount eq_refl) as [e'' [H _]].
  exists e''. exact H.
Qed.

Lemma C10_test_signal_and_monte_carlo_deterministic_witness :
  deterministicSpec scalarFactorizations 0 5 (freshEstimator 2 1)
    (usedEstimator 2 1) [0] 20 [0; 10; 20] 3.
Proof.
  apply (@C10_test_signal_and_monte_carlo_deterministic scalarFactorizations
           0 5 (freshEstimator 2 1) (usedEstimator 2 1) [0] 20 [0; 10; 20] 3).
  reflexivity.
Defined.

(** * Further properties of the code *)

(** ** Auxiliary facts on comparisons, sums and magnitudes *)

Lemma Rsum_zero_in {A : Type} (f : A -> R) (xs : list A) :
  (forall x, 0 <= f x) -> Rsum f xs = 0 -> forall x, In x xs -> f x = 0.
Proof.
  intros Hf. induction xs as [|y xs IH]; intros H0 x Hx; [destruct Hx |].
  rewrite Rsum_cons in H0.
  pose proof (Hf y). pose proof (Rsum_nonneg f xs Hf).
  destruct Hx as [->|Hx]; [lra |]. apply IH; [lra | assumption].
Qed.

Lemma Rltb_true (x y : R) : Rltb x y = true <-> x < y.
Proof. unfold Rltb. destruct (Rlt_dec x y); split; intros; try lra; try discriminate; reflexivity. Qed.

Lemma Rgtb_false (x y : R) : Rgtb x y = false <-> x <= y.
Proof.
  unfold Rgtb. destruct (Rgt_dec x y); split; intros; try lra; try discriminate;
    reflexivity.
Qed.

Lemma Reqb_eq (x y : R) : x = y -> Reqb x y = true.
Proof. intros H. unfold Reqb. destruct (Req_dec_T x y); [reflexivity | contradiction]. Qed.

Lemma Reqb_neq (x y : R) : x <> y -> Reqb x y = false.
Proof. intros H. unfold Reqb. destruct (Req_dec_T x y); [contradiction | reflexivity]. Qed.

Lemma Rgeb_ge (x y : R) : x >= y -> Rgeb x y = true.
Proof. intros H. unfold Rgeb. destruct (Rge_dec x y); [reflexivity | contradiction]. Qed.

Lemma map_nth_upto {A B : Type} (f : A -> B) (xs : list A) (d : A) :
  map (fun i => f (nth i xs d)) (upto (length xs)) = map f xs.
Proof.
  induction xs as [|x xs IH]; [reflexivity |].
  change (length (x :: xs)) with (S (length xs)).
  unfold upto in *. cbn [seq map nth]. f_equal.
  rewrite <- seq_shift, map_map. exact IH.
Qed.

Lemma fold_left_invariant {A B : Type} (P : B -> Prop) (f : B -> A -> B)
  (xs : list A) (acc : B) :
  (forall b x, In x xs -> P b -> P (f b x)) -> P acc -> P (fold_left f xs acc).
Proof.
  revert acc. induction xs as [|x xs IH]; intros acc Hstep Hacc; [exact Hacc |].
  cbn [fold_left]. apply IH.
  - intros b y Hy. apply Hstep. right. assumption.
  - apply Hstep; [left; reflexivity | assumption].
Qed.

Lemma le_sqrt_of_sqr (a b : R) : 0 <= b -> a * a <= b -> a <= sqrt b.
Proof.
  intros Hb H. destruct (Rle_dec 0 a) as [Ha|Ha].
  - rewrite <- (sqrt_square a Ha). apply sqrt_le_1_alt. assumption.
  - pose proof (sqrt_pos b). lra.
Qed.

Lemma Rsum_plus {A : Type} (f g : A -> R) (xs : list A) :
  Rsum (fun x => f x + g x) xs = Rsum f xs + Rsum g xs.
Proof.
  induction xs as [|x xs IH].
  - rewrite !Rsum_nil. lra.
  - rewrite !Rsum_cons, IH. lra.
Qed.

Lemma Rsum_scale_l {A : Type} (f : A -> R) (c : R) (xs : list A) :
  Rsum (fun x => c * f x) xs = c * Rsum f xs.
Proof.
  rewrite (Rsum_ext_in _ (fun x => f x * c)) by (intros; ring).
  rewrite Rsum_scale. ring.
Qed.

(** The Cauchy-Schwarz inequality against the all-ones vector. *)
Lemma Rsum_sqr_le {A : Type} (f : A -> R) (xs : list A) :
  Rsum f xs * Rsum f xs <= INR (length xs) * Rsum (fun x => f x * f x) xs.
Proof.
  induction xs as [|x xs IH].
  - rewrite !Rsum_nil. simpl. lra.
  - rewrite !Rsum_cons. change (length (x :: xs)) with (S (length xs)).
    rewrite S_INR.
    set (s := Rsum f xs) in *. set (q := Rsum (fun y => f y * f y) xs) in *.
    set (n := INR (length xs)) in *.
    assert (Hn : 0 <= n) by apply pos_INR.
    assert (Hq : 0 <= q).
    { unfold q. apply Rsum_nonneg. intros y. apply Rle_0_sqr. }
    clearbody s q n.
    assert (H2 : 2 * f x * s <= n * (f x * f x) + q).
    { destruct (Req_dec n 0) as [Hn0|Hn0].
      - subst n. pose proof (Rle_0_sqr s) as Hs. unfold Rsqr in Hs.
        assert (Hs0 : s = 0) by (apply Rsqr_0_uniq; unfold Rsqr; lra).
        subst s. lra.
      - assert (Hnpos : 0 < n) by lra.
        pose proof (Rle_0_sqr (n * f x - s)) as Hsq. unfold Rsqr in Hsq.
        apply Rmult_le_reg_l with n; [assumption |]. nra. }
    lra.
Qed.

Lemma Rsum_le_sqrt {A : Type} (f : A -> R) (xs : list A) :
  Rsum f xs <= sqrt (INR (length xs)) * sqrt (Rsum (fun x => f x * f x) xs).
Proof.
  rewrite <- sqrt_mult_alt by apply pos_INR.
  apply le_sqrt_of_sqr.
  - apply Rmult_le_pos; [apply pos_INR |].
    apply Rsum_nonneg. intros x. apply Rle_0_sqr.
  - apply Rsum_sqr_le.
Qed.

Lemma Abs_nonneg (x : complex128) : 0 <= Abs x.
Proof. unfold Abs. apply sqrt_pos. Qed.

Lemma Abs_Cmul (x y : complex128) : Abs (Cmul x y) = Abs x * Abs y.
Proof.
  unfold Abs, Cmul; simpl. rewrite <- sqrt_mult_alt by nra. f_equal. ring.
Qed.

(** The triangle inequality for [cmplx.Abs]. *)
Lemma Abs_Cadd (x y : complex128) : Abs (Cadd x y) <= Abs x + Abs y.
Proof.
  pose proof (Abs_nonneg x) as Hx. pose proof (Abs_nonneg y) as Hy.
  pose proof (Abs_sqr x) as Hxx. pose proof (Abs_sqr y) as Hyy.
  assert (Hcs : real x * real y + imag x * imag y <= Abs x * Abs y).
  { apply Rle_trans with (sqrt ((Abs x * Abs y) * (Abs x * Abs y))).
    - apply le_sqrt_of_sqr.
      + apply Rle_0_sqr.
      + pose proof (Rle_0_sqr (real x * imag y - imag x * real y)) as Hsq.
        unfold Rsqr in Hsq.
        replace (Abs x * Abs y * (Abs x * Abs y))
          with ((Abs x * Abs x) * (Abs y * Abs y)) by ring.
        rewrite Hxx, Hyy. lra.
    - rewrite sqrt_square by (apply Rmult_le_pos; assumption). lra. }
  unfold Abs at 1. unfold Cadd; simpl.
  rewrite <- (sqrt_square (Abs x + Abs y)) by lra.
  apply sqrt_le_1_alt.
  replace ((Abs x + Abs y) * (Abs x + Abs y))
    with (Abs x * Abs x + Abs y * Abs y + 2 * (Abs x * Abs y)) by ring.
  rewrite Hxx, Hyy. lra.
Qed.

Lemma Abs_C0 : Abs C0 = 0.
Proof.
  unfold Abs, C0; simpl. replace (0 * 0 + 0 * 0) with 0 by ring. apply sqrt_0.
Qed.

Lemma Abs_Csum {A : Type} (f : A -> complex128) (xs : list A) :
  Abs (Csum f xs) <= Rsum (fun x => Abs (f x)) xs.
Proof.
  induction xs as [|x xs IH].
  - rewrite Csum_nil, Rsum_nil, Abs_C0. lra.
  - rewrite Csum_cons, Rsum_cons.
    pose proof (Abs_Cadd (f x) (Csum f xs)). lra.
Qed.

Lemma Abs_Conj (x : complex128) : Abs (Conj x) = Abs x.
Proof. unfold Abs, Conj; simpl. f_equal. ring. Qed.

Lemma Abs_zero (x : complex128) : Abs x * Abs x = 0 -> x = C0.
Proof.
  rewrite Abs_sqr. intros H. destruct x as [re im]. simpl in H.
  destruct (Rplus_sqr_eq_0 re im) as [-> ->]; [unfold Rsqr; exact H |].
  reflexivity.
Qed.

Lemma real_Csum {A : Type} (f : A -> complex128) (xs : list A) :
  real (Csum f xs) = Rsum (fun x => real (f x)) xs.
Proof.
  induction xs as [|x xs IH].
  - reflexivity.
  - rewrite Csum_cons, Rsum_cons, <- IH. reflexivity.
Qed.

Lemma imag_Csum {A : Type} (f : A -> complex128) (xs : list A) :
  imag (Csum f xs) = Rsum (fun x => imag (f x)) xs.
Proof.
  induction xs as [|x xs IH].
  - reflexivity.
  - rewrite Csum_cons, Rsum_cons, <- IH. reflexivity.
Qed.

(** ** Phase shifts of the weights calculator *)

Lemma sqrt_sum_sqr_factor (x y : R) :
  x <> 0 -> sqrt (x * x + y * y) = Rabs x * sqrt (1 + (y / x)²).
Proof.
  intros Hx.
  replace (x * x + y * y) with (x² * (1 + (y / x)²))
    by (unfold Rsqr; field; assumption).
  rewrite sqrt_mult_alt by apply Rle_0_sqr.
  rewrite sqrt_Rsqr_abs. reflexivity.
Qed.

Lemma sqrt_one_plus_sqr_pos (t : R) : 0 < sqrt (1 + t²).
Proof. apply sqrt_lt_R0. pose proof (Rle_0_sqr t). lra. Qed.

(** The polar form behind [math.Atan2]. *)
Lemma Atan2_polar (y x : R) :
  x <> 0 \/ y <> 0 ->
  x = sqrt (x * x + y * y) * cos (Atan2 y x)
  /\ y = sqrt (x * x + y * y) * sin (Atan2 y x).
Proof.
  intros Hnz. unfold Atan2.
  pose proof (sqrt_one_plus_sqr_pos (y / x)) as Hs.
  destruct (Rlt_dec 0 x) as [Hx|Hx].
  - rewrite sqrt_sum_sqr_factor by lra.
    rewrite Rabs_right by lra.
    rewrite cos_atan, sin_atan. split; field; lra.
  - destruct (Rlt_dec x 0) as [Hx'|Hx'].
    + rewrite sqrt_sum_sqr_factor by lra.
      rewrite Rabs_left by lra.
      destruct (Rle_dec 0 y) as [Hy|Hy].
      * rewrite neg_cos, neg_sin, cos_atan, sin_atan. split; field; lra.
      * rewrite cos_minus, sin_minus, cos_PI, sin_PI, cos_atan, sin_atan.
        split; field; lra.
    + assert (x = 0) by lra. subst x.
      replace (0 * 0 + y * y) with (y²) by (unfold Rsqr; ring).
      rewrite sqrt_Rsqr_abs.
      destruct (Rlt_dec 0 y) as [Hy|Hy].
      * rewrite cos_PI2, sin_PI2, Rabs_right by lra. lra.
      * destruct (Rlt_dec y 0) as [Hy'|Hy'].
        -- rewrite cos_neg, sin_neg, cos_PI2, sin_PI2, Rabs_left by lra. lra.
        -- exfalso. destruct Hnz; lra.
Qed.

Lemma Atan2_bound (y x : R) : - PI < Atan2 y x <= PI.
Proof.
  unfold Atan2. pose proof PI_RGT_0 as Hpi.
  pose proof (atan_bound (y / x)) as Hb.
  destruct (Rlt_dec 0 x) as [Hx|Hx]; [lra |].
  destruct (Rlt_dec x 0) as [Hx'|Hx'].
  - destruct (Rle_dec 0 y) as [Hy|Hy].
    + assert (atan (y / x) <= 0).
      { rewrite <- atan_0.
        destruct (Req_dec y 0) as [->|Hy0].
        - unfold Rdiv. rewrite Rmult_0_l. lra.
        - left. apply atan_increasing.
          pose proof (Rinv_lt_0_compat x Hx'). unfold Rdiv. nra. }
      lra.
    + assert (0 < atan (y / x)).
      { rewrite <- atan_0. apply atan_increasing.
        pose proof (Rinv_lt_0_compat x Hx'). unfold Rdiv. nra. }
      lra.
  - destruct (Rlt_dec 0 y); [lra |]. destruct (Rlt_dec y 0); lra.
Qed.

(** One pass of the loop of [ComputePhaseShifts]. *)
Lemma phase_shift_polar (weight : complex128) :
  let phase := Phase weight in
  let shifted := if Rltb phase 0 then phase + 2 * PI else phase in
  0 <= shifted < 2 * PI
  /\ (weight = C0 -> shifted = 0)
  /\ weight = complex (Abs weight * cos shifted) (Abs weight * sin shifted).
Proof.
  intros phase shifted. pose proof PI_RGT_0 as Hpi.
  pose proof (Atan2_bound (imag weight) (real weight)) as Hb.
  fold (Phase weight) in Hb. fold phase in Hb.
  assert (Hcs : cos shifted = cos phase /\ sin shifted = sin phase).
  { unfold shifted. destruct (Rltb phase 0); [| split; reflexivity].
    split.
    - rewrite cos_plus, cos_2PI, sin_2PI. ring.
    - rewrite sin_plus, cos_2PI, sin_2PI. ring. }
  destruct Hcs as [Hc Hs]. split; [| split].
  - unfold shifted. destruct (Rltb phase 0) eqn:E.
    + apply Rltb_true in E. lra.
    + assert (~ phase < 0) by (intros H; apply Rltb_true in H; congruence). lra.
  - intros ->. unfold shifted, phase, Phase, Atan2, C0; simpl.
    destruct (Rlt_dec 0 0); [lra |].
    unfold Rltb. destruct (Rlt_dec 0 0); [lra |]. reflexivity.
  - rewrite Hc, Hs. destruct weight as [x y].
    destruct (Req_dec x 0) as [Hx|Hx]; [destruct (Req_dec y 0) as [Hy|Hy] |].
    + subst. unfold Abs; simpl.
      replace (0 * 0 + 0 * 0) with 0 by ring. rewrite sqrt_0.
      f_equal; ring.
    + destruct (@Atan2_polar y x (or_intror Hy)) as [H1 H2].
      unfold Abs, phase, Phase; simpl. rewrite <- H1, <- H2. reflexivity.
    + destruct (@Atan2_polar y x (or_introl Hx)) as [H1 H2].
      unfold Abs, phase, Phase; simpl. rewrite <- H1, <- H2. reflexivity.
Qed.

(** X1: [ComputePhaseShifts] returns one phase per weight; each phase
    lies in [0, 2*pi) and is the argument of its weight, that is
    weight = |weight| * (cos phase + j sin phase); the phase of a zero
    weight is 0. *)
Theorem X1_phase_shifts_are_arguments_in_0_2pi (w : beamforming.WeightsCalculator)
  (weights : list complex128) :
  length (beamforming.ComputePhaseShifts w weights) = length weights
  /\ forall i, (i < length weights)%nat ->
       0 <= nth i (beamforming.ComputePhaseShifts w weights) 0 < 2 * PI
       /\ (nth i weights C0 = C0 ->
           nth i (beamforming.ComputePhaseShifts w weights) 0 = 0)
       /\ nth i weights C0
          = complex (Abs (nth i weights C0)
                     * cos (nth i (beamforming.ComputePhaseShifts w weights) 0))
                    (Abs (nth i weights C0)
                     * sin (nth i (beamforming.ComputePhaseShifts w weights) 0)).
Proof.
  unfold beamforming.ComputePhaseShifts. split; [apply length_map |].
  intros i Hi.
  set (f := fun weight : complex128 =>
              if Rltb (Phase weight) 0 then Phase weight + 2 * PI else Phase weight).
  rewrite (nth_indep (map f weights) 0 (f C0)) by (rewrite length_map; assumption).
  rewrite (map_nth f weights C0 i).
  exact (@phase_shift_polar (nth i weights C0)).
Qed.

Lemma conjugate_weight_nth (w : beamforming.WeightsCalculator) (targetAngle : R)
  (ws : list complex128) (n : nat) :
  beamforming.ComputeConjugateBeamforming w targetAngle = Ret ws ->
  (n < length ws)%nat ->
  let phi := 2 * PI * INR n * beamforming.elementSpacing w * sin targetAngle in
  nth n ws C0 = complex (cos phi / sqrt (INR (length ws)))
                        (- sin phi / sqrt (INR (length ws)))
  /\ Abs (nth n ws C0) = / sqrt (INR (length ws)).
Proof.
  intros H Hn phi. unfold beamforming.ComputeConjugateBeamforming in H.
  apply bind_Ret in H. destruct H as [len [_ H]]. injection H as Hws.
  assert (Hlen : length ws = len).
  { rewrite <- Hws, normalize_length, length_map. apply length_upto. }
  rewrite Hlen in Hn. rewrite Hlen.
  assert (Hpos : 0 < sqrt (INR len)).
  { apply sqrt_lt_R0. apply lt_0_INR. lia. }
  assert (Heq : nth n ws C0 = complex (cos phi / sqrt (INR len))
                                      (- sin phi / sqrt (INR len))).
  { rewrite <- Hws, normalize_nth, conjugate_energy.
    rewrite nth_map_upto by assumption.
    rewrite Exp_imag, cos_neg, sin_neg. unfold Cdiv, float64n; simpl.
    fold phi. f_equal; field; lra. }
  split; [exact Heq |].
  rewrite Heq. unfold Abs; simpl.
  replace (cos phi / sqrt (INR len) * (cos phi / sqrt (INR len))
           + - sin phi / sqrt (INR len) * (- sin phi / sqrt (INR len)))
    with (((sin phi)² + (cos phi)²) * (/ sqrt (INR len))²)
    by (unfold Rsqr; field; lra).
  rewrite sin2_cos2, Rmult_1_l. apply sqrt_Rsqr.
  left. apply Rinv_0_lt_compat. assumption.
Qed.

(** X2: the phase shifts computed from the conjugate-beamforming weights
    (the composition the IRS service applies) are the conjugate steering
    phases reduced to [0, 2*pi): element n gets the phase p_n in [0, 2*pi)
    with cos p_n = cos phi_n and sin p_n = - sin phi_n, where
    phi_n = 2*pi*n*d*sin(theta). *)
Theorem X2_conjugate_phase_shifts (w : beamforming.WeightsCalculator)
  (targetAngle : R) :
  (1 <= beamforming.elementCount w)%Z ->
  exists ws,
    beamforming.ComputeConjugateBeamforming w targetAngle = Ret ws
    /\ Z.of_nat (length (beamforming.ComputePhaseShifts w ws))
       = beamforming.elementCount w
    /\ forall n, (n < length ws)%nat ->
         let phi := 2 * PI * INR n * beamforming.elementSpacing w * sin targetAngle in
         let p := nth n (beamforming.ComputePhaseShifts w ws) 0 in
         0 <= p < 2 * PI /\ cos p = cos phi /\ sin p = - sin phi.
Proof.
  intros HM.
  destruct (@ComputeConjugateBeamforming_unit w targetAngle HM) as [ws [Hws [Hlen _]]].
  exists ws. split; [exact Hws |]. split.
  - unfold beamforming.ComputePhaseShifts. rewrite length_map. exact Hlen.
  - intros n Hn phi p.
    destruct (@conjugate_weight_nth w targetAngle ws n Hws Hn) as [Hnth Habs].
    fold phi in Hnth.
    set (f := fun weight : complex128 =>
                if Rltb (Phase weight) 0 then Phase weight + 2 * PI
                else Phase weight).
    assert (Hp : p = f (nth n ws C0)).
    { unfold p, beamforming.ComputePhaseShifts. fold f.
      rewrite (nth_indep (map f ws) 0 (f C0)) by (rewrite length_map; assumption).
      apply (map_nth f ws C0 n). }
    destruct (@phase_shift_polar (nth n ws C0)) as [Hrange [_ Hpolar]].
    fold (f (nth n ws C0)) in Hrange, Hpolar. rewrite <- Hp in Hrange, Hpolar.
    split; [exact Hrange |].
    rewrite Habs in Hpolar. rewrite Hnth in Hpolar at 1.
    assert (Hpos : 0 < sqrt (INR (length ws))).
    { apply sqrt_lt_R0. apply lt_0_INR. lia. }
    inversion Hpolar as [[Hre Him]].
    split.
    + apply Rmult_eq_reg_l with (/ sqrt (INR (length ws)));
        [| apply Rinv_neq_0_compat; lra].
      rewrite <- Hre. unfold Rdiv. ring.
    + apply Rmult_eq_reg_l with (/ sqrt (INR (length ws)));
        [| apply Rinv_neq_0_compat; lra].
      rewrite <- Him. unfold Rdiv. ring.
Qed.

Lemma X2_conjugate_phase_shifts_witness :
  exists ws,
    beamforming.ComputeConjugateBeamforming
      (beamforming.NewWeightsCalculator 2 0.5) 0 = Ret ws
    /\ Z.of_nat (length (beamforming.ComputePhaseShifts
                           (beamforming.NewWeightsCalculator 2 0.5) ws))
       = beamforming.elementCount (beamforming.NewWeightsCalculator 2 0.5)
    /\ forall n, (n < length ws)%nat ->
         let phi := 2 * PI * INR n
                    * beamforming.elementSpacing (beamforming.NewWeightsCalculator 2 0.5)
                    * sin 0 in
         let p := nth n (beamforming.ComputePhaseShifts
                           (beamforming.NewWeightsCalculator 2 0.5) ws) 0 in
         0 <= p < 2 * PI /\ cos p = cos phi /\ sin p = - sin phi.
Proof.
  apply (@X2_conjugate_phase_shifts (beamforming.NewWeightsCalculator 2 0.5) 0).
  simpl. lia.
Defined.

(** ** Phase quantization *)

Lemma Round_RoundZ (x : R) : Round x = IZR (RoundZ x).
Proof.
  unfold Round, RoundZ. destruct (Rle_dec 0 x); [reflexivity |].
  rewrite opp_IZR. reflexivity.
Qed.

Lemma RoundZ_IZR (m : Z) : RoundZ (IZR m) = m.
Proof.
  unfold RoundZ. destruct (Rle_dec 0 (IZR m)).
  - symmetry. apply Int_part_spec. lra.
  - rewrite <- opp_IZR.
    replace (Int_part (IZR (- m) + / 2)) with (- m)%Z; [lia |].
    apply Int_part_spec. lra.
Qed.

Lemma RoundZ_near (x : R) : - / 2 <= IZR (RoundZ x) - x <= / 2.
Proof.
  unfold RoundZ. destruct (Rle_dec 0 x).
  - destruct (base_Int_part (x + / 2)). lra.
  - rewrite opp_IZR. destruct (base_Int_part (- x + / 2)). lra.
Qed.

Lemma int_of_float_quot (a b : Z) :
  (0 < b)%Z -> int_of_float (IZR a / IZR b) = Z.quot a b.
Proof.
  intros Hb. assert (HbR : 0 < IZR b) by (apply IZR_lt; assumption).
  assert (Hnonneg : forall c, (0 <= c)%Z -> Int_part (IZR c / IZR b) = (c / b)%Z).
  { intros c Hc. symmetry. apply Int_part_spec.
    pose proof (Z.div_mod c b ltac:(lia)) as Hdm.
    pose proof (Z.mod_pos_bound c b Hb) as Hm.
    assert (HcR : IZR c = IZR b * IZR (c / b) + IZR (c mod b)).
    { rewrite <- mult_IZR, <- plus_IZR. f_equal. exact Hdm. }
    assert (H0 : 0 <= IZR (c mod b) < IZR b).
    { split; [apply IZR_le | apply IZR_lt]; lia. }
    rewrite HcR.
    replace ((IZR b * IZR (c / b) + IZR (c mod b)) / IZR b)
      with (IZR (c / b) + IZR (c mod b) / IZR b) by (field; lra).
    assert (0 <= IZR (c mod b) / IZR b < 1).
    { split.
      - apply Rmult_le_pos; [lra | left; apply Rinv_0_lt_compat; lra].
      - apply Rmult_lt_reg_r with (IZR b); [lra |].
        unfold Rdiv. rewrite Rmult_assoc, Rinv_l by lra. lra. }
    lra. }
  unfold int_of_float.
  destruct (Z_le_gt_dec 0 a) as [Ha|Ha].
  - assert (0 <= IZR a / IZR b).
    { apply Rmult_le_pos; [apply IZR_le; lia | left; apply Rinv_0_lt_compat; lra]. }
    destruct (Rle_dec 0 (IZR a / IZR b)); [| contradiction].
    rewrite Hnonneg by assumption. symmetry. apply Z.quot_div_nonneg; lia.
  - assert (IZR a / IZR b < 0).
    { assert (IZR a < 0) by (apply IZR_lt; lia).
      pose proof (Rinv_0_lt_compat _ HbR). unfold Rdiv. nra. }
    destruct (Rle_dec 0 (IZR a / IZR b)); [lra |].
    replace (- (IZR a / IZR b)) with (IZR (- a) / IZR b)
      by (rewrite opp_IZR; field; lra).
    rewrite Hnonneg by lia.
    rewrite <- Z.quot_div_nonneg by lia.
    rewrite Z.quot_opp_l by lia. lia.
Qed.

Lemma Rpower_2_bits (bits : Z) :
  (0 <= bits)%Z -> Rpower 2 (float64 bits) = IZR (2 ^ bits).
Proof.
  intros Hb. unfold float64.
  rewrite <- (Z2Nat.id bits Hb) at 1. rewrite <- INR_IZR_INZ.
  rewrite Rpower_pow by lra. rewrite pow_IZR, Z2Nat.id by assumption.
  reflexivity.
Qed.

Lemma levels_pos (bits : Z) : (0 <= bits)%Z -> (0 < 2 ^ bits)%Z.
Proof. intros. apply Z.pow_pos_nonneg; lia. Qed.

Lemma quantStep_pos (bits : Z) : (0 <= bits)%Z -> 0 < quantStep bits.
Proof.
  intros Hb. unfold quantStep. pose proof PI_RGT_0.
  assert (0 < IZR (2 ^ bits)) by (apply IZR_lt, levels_pos; assumption).
  apply Rdiv_lt_0_compat; lra.
Qed.

(** One pass of the loop of [ApplyPhaseQuantization]: the level is
    reduced modulo the number of levels, toward zero. *)
Lemma quantize_formula (bits : Z) (phase : R) :
  (0 <= bits)%Z ->
  Mod (Round (phase / quantStep bits) * quantStep bits) (2 * PI)
  = IZR (Z.rem (RoundZ (phase / quantStep bits)) (2 ^ bits)) * quantStep bits.
Proof.
  intros Hb. pose proof PI_RGT_0 as Hpi.
  pose proof (levels_pos Hb) as HL.
  assert (HLR : 0 < IZR (2 ^ bits)) by (apply IZR_lt; assumption).
  rewrite Round_RoundZ. set (k := RoundZ (phase / quantStep bits)).
  unfold Mod.
  replace (IZR k * quantStep bits / (2 * PI)) with (IZR k / IZR (2 ^ bits))
    by (unfold quantStep; field; lra).
  rewrite int_of_float_quot by assumption.
  rewrite (Z.rem_eq k (2 ^ bits)) by lia.
  rewrite minus_IZR, mult_IZR. unfold quantStep. field. lra.
Qed.

Lemma ApplyPhaseQuantization_nth (w : beamforming.WeightsCalculator)
  (phases : list R) (bits : Z) (i : nat) :
  (0 <= bits)%Z -> (i < length phases)%nat ->
  nth i (beamforming.ApplyPhaseQuantization w phases bits) 0
  = IZR (Z.rem (RoundZ (nth i phases 0 / quantStep bits)) (2 ^ bits))
    * quantStep bits.
Proof.
  intros Hb Hi. unfold beamforming.ApplyPhaseQuantization.
  rewrite Rpower_2_bits by assumption. fold (quantStep bits).
  set (f := fun phase : R =>
              Mod (Round (phase / quantStep bits) * quantStep bits) (2 * PI)).
  rewrite (nth_indep (map f phases) 0 (f 0)) by (rewrite length_map; assumption).
  rewrite (map_nth f phases 0 i). unfold f.
  apply quantize_formula. assumption.
Qed.

(** X3: for [bits >= 0], [ApplyPhaseQuantization] returns one value per
    phase, and maps every phase in [0, 2*pi) to a grid point
    [k * 2*pi / 2^bits] with [0 <= k < 2^bits] that is at most half a
    step away from the phase; a phase within half a step of [2*pi] wraps
    around to 0. *)
Theorem X3_quantized_phases_on_grid (w : beamforming.WeightsCalculator)
  (phases : list R) (bits : Z) :
  (0 <= bits)%Z ->
  length (beamforming.ApplyPhaseQuantization w phases bits) = length phases
  /\ forall i, (i < length phases)%nat ->
       0 <= nth i phases 0 < 2 * PI ->
       exists k : Z,
         (0 <= k < 2 ^ bits)%Z
         /\ nth i (beamforming.ApplyPhaseQuantization w phases bits) 0
            = IZR k * quantStep bits
         /\ (Rabs (IZR k * quantStep bits - nth i phases 0) <= quantStep bits / 2
             \/ (k = 0%Z /\ 2 * PI - nth i phases 0 <= quantStep bits / 2)).
Proof.
  intros Hb. split.
  { unfold beamforming.ApplyPhaseQuantization. apply length_map. }
  intros i Hi Hrange.
  rewrite ApplyPhaseQuantization_nth by assumption.
  pose proof (quantStep_pos Hb) as Hstep. pose proof PI_RGT_0 as Hpi.
  pose proof (levels_pos Hb) as HL.
  assert (HLR : 0 < IZR (2 ^ bits)) by (apply IZR_lt; assumption).
  set (p := nth i phases 0) in *. set (r := p / quantStep bits).
  assert (Hp : p = r * quantStep bits) by (unfold r; field; lra).
  assert (H2pi : 2 * PI = IZR (2 ^ bits) * quantStep bits)
    by (unfold quantStep; field; lra).
  assert (Hr : 0 <= r < IZR (2 ^ bits)).
  { split.
    - unfold r. apply Rmult_le_pos; [lra | left; apply Rinv_0_lt_compat; lra].
    - apply Rmult_lt_reg_r with (quantStep bits); [lra |]. lra. }
  pose proof (RoundZ_near r) as Hnear.
  set (k := RoundZ r) in *.
  assert (Hk : (0 <= k <= 2 ^ bits)%Z).
  { split.
    - apply le_IZR. apply Rnot_lt_le. intros Hneg.
      assert (IZR k <= -1) by (apply IZR_le; apply lt_IZR in Hneg; lia). lra.
    - apply le_IZR. apply Rnot_lt_le. intros Hbig.
      assert (IZR (2 ^ bits) + 1 <= IZR k).
      { rewrite <- plus_IZR. apply IZR_le. apply lt_IZR in Hbig. lia. }
      lra. }
  destruct (Z.eq_dec k (2 ^ bits)) as [Heq|Hneq].
  - exists 0%Z. rewrite Heq, Z.rem_same by lia.
    split; [lia |]. split; [reflexivity |]. right. split; [reflexivity |].
    rewrite H2pi, Hp. rewrite Heq in Hnear. nra.
  - exists k. rewrite Z.rem_small by lia.
    split; [lia |]. split; [reflexivity |]. left.
    rewrite Hp. apply Rabs_le. nra.
Qed.

Lemma X3_quantized_phases_on_grid_witness :
  length (beamforming.ApplyPhaseQuantization
            (beamforming.NewWeightsCalculator 64 0.5) [0; 1] 3)
  = length [0; 1]
  /\ forall i, (i < length [0; 1])%nat ->
       0 <= nth i [0; 1] 0 < 2 * PI ->
       exists k : Z,
         (0 <= k < 2 ^ 3)%Z
         /\ nth i (beamforming.ApplyPhaseQuantization
                     (beamforming.NewWeightsCalculator 64 0.5) [0; 1] 3) 0
            = IZR k * quantStep 3
         /\ (Rabs (IZR k * quantStep 3 - nth i [0; 1] 0) <= quantStep 3 / 2
             \/ (k = 0%Z /\ 2 * PI - nth i [0; 1] 0 <= quantStep 3 / 2)).
Proof.
  apply (@X3_quantized_phases_on_grid
           (beamforming.NewWeightsCalculator 64 0.5) [0; 1] 3).
  lia.
Defined.

Lemma rem_rem (k L : Z) : (0 < L)%Z -> Z.rem (Z.rem k L) L = Z.rem k L.
Proof.
  intros HL. destruct (Z_le_gt_dec 0 k) as [Hk|Hk].
  - apply Z.rem_small. apply Z.rem_bound_pos; lia.
  - replace k with (- - k)%Z by lia.
    rewrite (Z.rem_opp_l (- k)) by lia.
    pose proof (Z.rem_bound_pos (- k) L ltac:(lia) HL) as Hb.
    rewrite Z.rem_opp_l by lia. rewrite (Z.rem_small (Z.rem (- k) L)) by lia.
    reflexivity.
Qed.

(** X4: for [bits >= 0], quantizing phases that are already quantized
    with the same number of bits changes nothing, whatever the phases
    were. *)
Theorem X4_quantization_idempotent (w : beamforming.WeightsCalculator)
  (phases : list R) (bits : Z) :
  (0 <= bits)%Z ->
  beamforming.ApplyPhaseQuantization w
    (beamforming.ApplyPhaseQuantization w phases bits) bits
  = beamforming.ApplyPhaseQuantization w phases bits.
Proof.
  intros Hb. pose proof (quantStep_pos Hb) as Hstep.
  pose proof (levels_pos Hb) as HL.
  unfold beamforming.ApplyPhaseQuantization.
  rewrite Rpower_2_bits by assumption. fold (quantStep bits).
  rewrite map_map. apply map_ext. intros phase.
  rewrite !quantize_formula by assumption. f_equal.
  replace (IZR (Z.rem (RoundZ (phase / quantStep bits)) (2 ^ bits))
           * quantStep bits / quantStep bits)
    with (IZR (Z.rem (RoundZ (phase / quantStep bits)) (2 ^ bits)))
    by (field; lra).
  rewrite RoundZ_IZR. f_equal. apply rem_rem. assumption.
Qed.

Lemma X4_quantization_idempotent_witness :
  beamforming.ApplyPhaseQuantization (beamforming.NewWeightsCalculator 64 0.5)
    (beamforming.ApplyPhaseQuantization (beamforming.NewWeightsCalculator 64 0.5)
       [0; 1] 3) 3
  = beamforming.ApplyPhaseQuantization (beamforming.NewWeightsCalculator 64 0.5)
      [0; 1] 3.
Proof.
  apply (@X4_quantization_idempotent
           (beamforming.NewWeightsCalculator 64 0.5) [0; 1] 3).
  lia.
Defined.

(** ** Zero-forcing toward a single direction *)

(** X5: with a single target angle [ComputeZOFBeamforming] is
    [ComputeConjugateBeamforming] for that angle: the same weights, and
    the same panic on a negative element count. *)
Theorem X5_single_target_zof_is_conjugate (w : beamforming.WeightsCalculator)
  (targetAngle : R) :
  beamforming.ComputeZOFBeamforming w [targetAngle]
  = beamforming.ComputeConjugateBeamforming w targetAngle.
Proof.
  unfold beamforming.ComputeZOFBeamforming, beamforming.ComputeConjugateBeamforming.
  destruct (make_len (beamforming.elementCount w)) as [len| |]; cbn [bind];
    try reflexivity.
  do 2 f_equal. apply map_ext. intros n.
  unfold Csum, Conj, Exp, Cadd, C0; simpl.
  rewrite cos_neg, sin_neg. apply complex_eq; simpl; ring.
Qed.

(** ** The array factor and the analysis of the beam pattern *)

(** The response of an array to a unit-modulus steering vector is
    bounded by [sqrt N] times the norm of the weights. *)
Lemma response_bound (weights : list complex128) (u : nat -> complex128) :
  (forall n, Abs (u n) = 1) ->
  Abs (Csum (fun n => Cmul (nth n weights C0) (u n)) (upto (length weights)))
  <= sqrt (INR (length weights)) * norm2 weights.
Proof.
  intros Hu.
  apply Rle_trans with (Rsum (fun n => Abs (Cmul (nth n weights C0) (u n)))
                             (upto (length weights))); [apply Abs_Csum |].
  rewrite (Rsum_ext_in _ (fun n => Abs (nth n weights C0)))
    by (intros n _; rewrite Abs_Cmul, Hu; ring).
  rewrite (Rsum_upto_nth Abs weights C0).
  unfold norm2. apply Rsum_le_sqrt.
Qed.

(** X6: [ComputeArrayFactor] returns one value per angle, each between 0
    and [sqrt N * |weights|] for [N] weights of Euclidean norm
    [|weights|]; and [computeBeamPattern] is the array factor on the
    grid [-pi/2 + i*pi/numPoints]. *)
Theorem X6_array_factor_bounded (o : beamforming.Optimizer)
  (weights : list complex128) (angles : list R) (numPoints : nat) :
  length (beamforming.ComputeArrayFactor o weights angles) = length angles
  /\ (forall i, (i < length angles)%nat ->
        0 <= nth i (beamforming.ComputeArrayFactor o weights angles) 0
          <= sqrt (INR (length weights)) * norm2 weights)
  /\ beamforming.computeBeamPattern o weights numPoints
     = beamforming.ComputeArrayFactor o weights
         (map (fun i => - PI / 2 + INR i * PI / INR numPoints) (upto numPoints)).
Proof.
  unfold beamforming.ComputeArrayFactor, beamforming.computeBeamPattern.
  split; [apply length_map |]. split.
  - intros i Hi.
    set (f := fun angle : R =>
                Abs (Csum (fun n =>
                             Cmul (nth n weights C0)
                                  (Exp (complex 0
                                          (- (2 * PI * float64n n * 0.5 * sin angle)))))
                          (upto (length weights)))).
    rewrite (nth_indep (map f angles) 0 (f 0)) by (rewrite length_map; assumption).
    rewrite (map_nth f angles 0 i). unfold f. split; [apply Abs_nonneg |].
    apply (response_bound weights
             (fun n => Exp (complex 0 (- (2 * PI * float64n n * 0.5
                                          * sin (nth i angles 0)))))).
    intros n. apply Abs_Exp_imag.
  - rewrite map_map. reflexivity.
Qed.

(** The first loop of [analyzeBeamPattern] after [n] passes. *)
Lemma argmax_prefix (pattern : list R) (n : nat) :
  pattern <> [] -> (n <= length pattern)%nat ->
  exists m,
    fold_left (fun '(mi, mv) i =>
                 if Rgtb (nth i pattern 0) mv then (i, nth i pattern 0)
                 else (mi, mv))
              (upto n) (0%nat, nth 0 pattern 0)
    = (m, nth m pattern 0)
    /\ (m < length pattern)%nat
    /\ (forall i, (i < n)%nat -> nth i pattern 0 <= nth m pattern 0)
    /\ (forall i, (i < m)%nat -> nth i pattern 0 < nth m pattern 0).
Proof.
  intros Hne. induction n as [|n IH]; intros Hn.
  - exists 0%nat. split; [reflexivity |]. split.
    + destruct pattern; [congruence | simpl; lia].
    + split; intros i Hi; lia.
  - destruct IH as [m [Hfold [Hm [Hmax Hfirst]]]]; [lia |].
    unfold upto in *. rewrite seq_S, fold_left_app, Hfold. cbn [fold_left Nat.add].
    destruct (Rgtb (nth n pattern 0) (nth m pattern 0)) eqn:E.
    + apply Rgtb_true in E. exists n. split; [reflexivity |].
      split; [lia |]. split.
      * intros i Hi. destruct (Nat.eq_dec i n) as [->|Hin]; [lra |].
        specialize (Hmax i ltac:(lia)). lra.
      * intros i Hi. specialize (Hmax i Hi). lra.
    + apply Rgtb_false in E. exists m. split; [reflexivity |].
      split; [assumption |]. split; [| assumption].
      intros i Hi. destruct (Nat.eq_dec i n) as [->|Hin]; [assumption |].
      apply Hmax. lia.
Qed.

Lemma analyzeBeamPattern_spec (o : beamforming.Optimizer) (pattern : list R) :
  pattern <> [] ->
      exists m mainLobeDir mainLobeWidth sll,
        beamforming.analyzeBeamPattern o pattern
        = Ret (mainLobeDir, mainLobeWidth, sll)
        /\ firstMaxIndex pattern m
        /\ mainLobeDir = - PI / 2 + INR m * PI / INR (length pattern)
        /\ - (PI / 2) <= mainLobeDir < PI / 2
        /\ 0 <= mainLobeWidth < PI
        /\ 0 <= sll
        /\ (0 <= nth m pattern 0 -> sll <= nth m pattern 0).
Proof.
  intros Hne. pose proof PI_RGT_0 as Hpi.
  assert (Hlen : (0 < length pattern)%nat)
    by (destruct pattern; [congruence | simpl; lia]).
  assert (HlenR : 0 < INR (length pattern)) by (apply lt_0_INR; assumption).
  unfold beamforming.analyzeBeamPattern.
  rewrite (elemAt_Ret pattern 0 Hlen). cbn [bind].
  destruct (@argmax_prefix pattern (length pattern) Hne (Nat.le_refl _))
    as [m [Hfold [Hm [Hmax Hfirst]]]].
  rewrite Hfold.
  set (below := fun i => Rltb (nth i pattern 0) (nth m pattern 0 / sqrt 2)).
  set (leftIdx := match find below (rev (upto (S m))) with
                  | Some i => i | None => m end).
  set (rightIdx := match find below (seq m (length pattern - m)) with
                   | Some i => i | None => m end).
  assert (Hleft : (leftIdx <= m)%nat).
  { unfold leftIdx. destruct (find below (rev (upto (S m)))) as [i|] eqn:E; [| lia].
    apply find_some in E. destruct E as [E _].
    apply in_rev in E. apply in_upto in E. lia. }
  assert (Hright : (m <= rightIdx < length pattern)%nat).
  { unfold rightIdx.
    destruct (find below (seq m (length pattern - m))) as [i|] eqn:E; [| lia].
    apply find_some in E. destruct E as [E _]. apply in_seq in E. lia. }
  eexists m, _, _, _. split; [reflexivity |].
  split; [split; [assumption | split; assumption] |].
  split; [reflexivity |].
  assert (Hm0 : 0 <= INR m) by apply pos_INR.
  assert (HmR : INR m < INR (length pattern)) by (apply lt_INR; assumption).
  assert (Hfrac : forall x, 0 <= x < INR (length pattern) ->
                            0 <= x * PI / INR (length pattern) < PI).
  { intros x [Hx0 Hx1].
    replace (x * PI / INR (length pattern)) with (x / INR (length pattern) * PI)
      by (field; lra).
    assert (0 <= x / INR (length pattern) < 1).
    { split.
      - apply Rmult_le_pos; [assumption | left; apply Rinv_0_lt_compat; assumption].
      - apply Rmult_lt_reg_r with (INR (length pattern)); [assumption |].
        unfold Rdiv. rewrite Rmult_assoc, Rinv_l by lra. lra. }
    nra. }
  split.
  { unfold float64n. specialize (Hfrac (INR m) (conj Hm0 HmR)). lra. }
  split.
  { unfold float64n, float64. fold leftIdx rightIdx. apply Hfrac.
    replace (IZR (Z.of_nat rightIdx - Z.of_nat leftIdx))
      with (INR (rightIdx - leftIdx))
      by (rewrite INR_IZR_INZ; f_equal; lia).
    split.
    - apply pos_INR.
    - apply lt_INR. lia. }
  fold below. fold leftIdx rightIdx.
  match goal with
  | |- 0 <= fold_left ?f ?xs 0 /\ _ =>
      pose proof (@fold_left_invariant nat R
                    (fun sll => 0 <= sll
                                /\ (0 <= nth m pattern 0 -> sll <= nth m pattern 0))
                    f xs 0) as Hinv
  end.
  apply Hinv.
  - intros sll i Hi [Hs0 Hsm]. apply in_upto in Hi.
    destruct (Nat.ltb i leftIdx || Nat.ltb rightIdx i)%bool;
      [| split; assumption].
    destruct (Rgtb (nth i pattern 0) sll) eqn:E; [| split; assumption].
    apply Rgtb_true in E. split; [lra |]. intros _. apply Hmax. assumption.
  - split; [lra | intros H; exact H].
Qed.

(** X7: [analyzeBeamPattern] panics on an empty pattern.  On a non-empty
    one it returns: the grid angle of the first index at which the
    pattern is maximal, in [-pi/2, pi/2); a main-lobe width in [0, pi);
    and a side-lobe level that is non-negative and, when the maximum is
    non-negative, at most the maximum. *)
Theorem X7_beam_pattern_analysis (o : beamforming.Optimizer) (pattern : list R) :
  (pattern = [] -> beamforming.analyzeBeamPattern o pattern = Panic)
  /\ (pattern <> [] ->
      exists m mainLobeDir mainLobeWidth sll,
        beamforming.analyzeBeamPattern o pattern
        = Ret (mainLobeDir, mainLobeWidth, sll)
        /\ firstMaxIndex pattern m
        /\ mainLobeDir = - PI / 2 + INR m * PI / INR (length pattern)
        /\ - (PI / 2) <= mainLobeDir < PI / 2
        /\ 0 <= mainLobeWidth < PI
        /\ 0 <= sll
        /\ (0 <= nth m pattern 0 -> sll <= nth m pattern 0)).
Proof.
  split; [intros ->; reflexivity |].
  apply analyzeBeamPattern_spec.
Qed.

(** ** The optimization loop *)

Lemma normalizeWeights_length (weights : list complex128) :
  length (beamforming.normalizeWeights weights) = length weights.
Proof. unfold beamforming.normalizeWeights. apply length_map. Qed.

Lemma gradientStep_length (targetSteering : list complex128) (len : nat)
  (iterations : Z) (weights : list complex128) :
  length (beamforming.gradientStep targetSteering len iterations weights) = len.
Proof.
  unfold beamforming.gradientStep.
  rewrite normalizeWeights_length, length_map. apply length_upto.
Qed.

Section Iterate.

Variable o : beamforming.Optimizer.
Variable params : beamforming.BeamformingParams.
Variable targetSteering : list complex128.
Variable len : nat.

Lemma iterate_spec (remaining : nat) :
  forall (iter : Z) (run : beamforming.OptimizationRun),
    let r := beamforming.iterate o params targetSteering len remaining iter run in
    (remaining = 0%nat -> r = run)
    /\ ((1 <= remaining)%nat ->
        length (beamforming.weights r) = len
        /\ (iter + 1 <= beamforming.iterations r <= iter + Z.of_nat remaining)%Z
        /\ (beamforming.converged r = false ->
            beamforming.iterations r = (iter + Z.of_nat remaining)%Z)
        /\ (beamforming.converged r = true ->
            beamforming.checkConvergence o (beamforming.weights r)
              (beamforming.TargetDirection params)
              (beamforming.SNRThreshold params) = true)).
Proof.
  induction remaining as [|remaining IH]; intros iter run r.
  - split; [reflexivity | lia].
  - split; [discriminate |]. intros _. unfold r. cbn [beamforming.iterate].
    destruct (beamforming.checkConvergence o _ _ _) eqn:E.
    + cbn [beamforming.weights beamforming.iterations beamforming.converged].
      split; [apply gradientStep_length |]. split; [lia |].
      split; [discriminate | intros _; exact E].
    + destruct remaining as [|remaining'].
      * cbn [beamforming.iterate beamforming.weights beamforming.iterations
             beamforming.converged].
        split; [apply gradientStep_length |]. split; [lia |].
        split; [intros _; lia | discriminate].
      * match goal with
        | |- context [beamforming.iterate o params targetSteering len
                        (S remaining') ?it ?rn] =>
            destruct (IH it rn) as [_ IH']
        end.
        destruct IH' as [H1 [H2 [H3 H4]]]; [lia |].
        split; [exact H1 |]. split; [lia |].
        split; [intros Hc; rewrite (H3 Hc); lia | exact H4].
Qed.

(** Whether the loop stops is decided by the convergence test alone. *)
Lemma iterate_never_converges (remaining : nat) :
  (forall iterations weights,
      beamforming.checkConvergence o
        (beamforming.gradientStep targetSteering len iterations weights)
        (beamforming.TargetDirection params) (beamforming.SNRThreshold params)
      = false) ->
  forall iter run,
    beamforming.converged run = false ->
    beamforming.converged
      (beamforming.iterate o params targetSteering len remaining iter run) = false.
Proof.
  intros Hnever. induction remaining as [|remaining IH]; intros iter run Hrun.
  - exact Hrun.
  - cbn [beamforming.iterate]. rewrite Hnever. apply IH. reflexivity.
Qed.

Lemma iterate_converges_at_once (remaining : nat) (iter : Z)
  (run : beamforming.OptimizationRun) :
  (forall iterations weights,
      beamforming.checkConvergence o
        (beamforming.gradientStep targetSteering len iterations weights)
        (beamforming.TargetDirection params) (beamforming.SNRThreshold params)
      = true) ->
  (1 <= remaining)%nat ->
  beamforming.converged
    (beamforming.iterate o params targetSteering len remaining iter run) = true
  /\ beamforming.iterations
       (beamforming.iterate o params targetSteering len remaining iter run)
     = (iter + 1)%Z.
Proof.
  intros Halways Hrem. destruct remaining as [|remaining]; [lia |].
  cbn [beamforming.iterate]. rewrite Halways. split; reflexivity.
Qed.

End Iterate.

Lemma iterate_same_target (o : beamforming.Optimizer)
  (params params' : beamforming.BeamformingParams)
  (targetSteering : list complex128) (len remaining : nat) :
  beamforming.TargetDirection params' = beamforming.TargetDirection params ->
  beamforming.SNRThreshold params' = beamforming.SNRThreshold params ->
  forall iter run,
    beamforming.iterate o params' targetSteering len remaining iter run
    = beamforming.iterate o params targetSteering len remaining iter run.
Proof.
  intros Ht Hs. induction remaining as [|remaining IH]; intros iter run;
    [reflexivity |].
  cbn [beamforming.iterate]. rewrite Ht, Hs, IH. reflexivity.
Qed.

Lemma computeBeamPattern_length (o : beamforming.Optimizer)
  (weights : list complex128) (numPoints : nat) :
  length (beamforming.computeBeamPattern o weights numPoints) = numPoints.
Proof.
  unfold beamforming.computeBeamPattern. rewrite length_map. apply length_upto.
Qed.

Lemma serialized_weights (ws : list complex128) :
  map (fun c => complex (nth 0 c 0) (nth 1 c 0)) (map (fun w => [real w; imag w]) ws)
  = ws.
Proof.
  rewrite map_map. rewrite <- (map_id ws) at 2. apply map_ext.
  intros [re im]. reflexivity.
Qed.

(** [Optimize] on a non-negative element count, step by step. *)
Lemma Optimize_Ret (o : beamforming.Optimizer)
  (params : beamforming.BeamformingParams) :
  (0 <= beamforming.ElementCount params)%Z ->
  let len := Z.to_nat (beamforming.ElementCount params) in
  let run :=
    beamforming.iterate o params
      (beamforming.steering len (beamforming.TargetDirection params)) len
      (Z.to_nat (beamforming.maxIterations o)) 0%Z
      {| beamforming.weights :=
           beamforming.normalizeWeights
             (map Conj (beamforming.steering len (PI / 2)));
         beamforming.iterations := 0;
         beamforming.converged := false |} in
  let beamPattern := beamforming.computeBeamPattern o (beamforming.weights run) 360 in
  exists m mainLobeDir mainLobeWidth sll,
    beamforming.analyzeBeamPattern o beamPattern
    = Ret (mainLobeDir, mainLobeWidth, sll)
    /\ firstMaxIndex beamPattern m
    /\ - (PI / 2) <= mainLobeDir < PI / 2
    /\ 0 <= mainLobeWidth < PI
    /\ 0 <= sll
    /\ beamforming.Optimize o params
       = Ret (inl {| beamforming.Weights :=
                       map (fun w => [real w; imag w]) (beamforming.weights run);
                     beamforming.BeamPattern := beamPattern;
                     beamforming.MainLobeDirection := mainLobeDir;
                     beamforming.MainLobeWidth := mainLobeWidth;
                     beamforming.SLL := sll;
                     beamforming.Iterations := beamforming.iterations run;
                     beamforming.Converged := beamforming.converged run |}).
Proof.
  intros HEC len run beamPattern.
  assert (Hbp : beamPattern <> []).
  { intros H. pose proof (computeBeamPattern_length o (beamforming.weights run) 360)
      as Hl. fold beamPattern in Hl. rewrite H in Hl. discriminate. }
  destruct (analyzeBeamPattern_spec o Hbp)
    as [m [dir [width [sll [Han [Hfirst [_ [Hdir [Hwidth [Hsll _]]]]]]]]]].
  exists m, dir, width, sll.
  split; [exact Han |]. split; [exact Hfirst |]. split; [exact Hdir |].
  split; [exact Hwidth |]. split; [exact Hsll |].
  unfold beamforming.Optimize, beamforming.OptimizeEntry.
  rewrite initializeWeights_endfire by assumption. cbn [bind].
  unfold beamforming.computeSteeringVector.
  rewrite make_len_nonneg by assumption. cbn [bind].
  rewrite (mapM_Ret_in _ (fun angle => beamforming.steering len angle))
    by (intros; reflexivity).
  cbn [bind].
  replace (length (beamforming.steering
                     (Z.to_nat (beamforming.ElementCount params))
                     (beamforming.TargetDirection params))) with len
    by (unfold beamforming.steering; rewrite length_map, length_upto; reflexivity).
  fold len. fold run. fold beamPattern. rewrite Han. reflexivity.
Qed.

Lemma steering_length (len : nat) (angle : R) :
  length (beamforming.steering len angle) = len.
Proof. unfold beamforming.steering. rewrite length_map. apply length_upto. Qed.

(** X8: [Optimize] panics on a negative element count and returns no
    error otherwise: the result holds one [re, im] pair per element, a
    360-point beam pattern, an iteration count between 0 and the
    optimizer's [maxIterations] (equal to it unless convergence was
    reported), a convergence flag that is only set when the returned
    weights pass [checkConvergence], a main-lobe direction in
    [-pi/2, pi/2), a width in [0, pi) and a non-negative side-lobe
    level. *)
Theorem X8_optimize_returns_a_well_formed_result (o : beamforming.Optimizer)
  (params : beamforming.BeamformingParams) :
  ((beamforming.ElementCount params < 0)%Z ->
   beamforming.Optimize o params = Panic)
  /\ ((0 <= beamforming.ElementCount params)%Z ->
      exists result,
        beamforming.Optimize o params = Ret (inl result)
        /\ optimizeResultSpec o params result).
Proof.
  split.
  - intros Hneg. unfold beamforming.Optimize, beamforming.OptimizeEntry,
      beamforming.initializeWeights, make_len.
    replace (beamforming.ElementCount params <? 0)%Z with true
      by (symmetry; apply Z.ltb_lt; assumption).
    reflexivity.
  - intros HEC.
    destruct (Optimize_Ret o params HEC)
      as [m [dir [width [sll [_ [_ [Hdir [Hwidth [Hsll Hopt]]]]]]]]].
    eexists. split; [exact Hopt |].
    set (len := Z.to_nat (beamforming.ElementCount params)) in *.
    match type of Hopt with
    | context [beamforming.iterate o params ?ts len ?rem ?it ?rn] =>
        pose proof (iterate_spec o params ts len rem it rn) as Hit;
        set (run := beamforming.iterate o params ts len rem it rn) in *
    end.
    cbv zeta in Hit. destruct Hit as [Hzero Hpos].
    unfold optimizeResultSpec, weightsOf.
    cbn [beamforming.Weights beamforming.BeamPattern beamforming.Iterations
         beamforming.Converged beamforming.MainLobeDirection
         beamforming.MainLobeWidth beamforming.SLL].
    rewrite serialized_weights.
    assert (Hcases :
      Z.of_nat (length (beamforming.weights run)) = beamforming.ElementCount params
      /\ (0 <= beamforming.iterations run
          <= Z.max 0 (beamforming.maxIterations o))%Z
      /\ (beamforming.converged run = false ->
          beamforming.iterations run = Z.max 0 (beamforming.maxIterations o))
      /\ (beamforming.converged run = true ->
          beamforming.checkConvergence o (beamforming.weights run)
            (beamforming.TargetDirection params)
            (beamforming.SNRThreshold params) = true)).
    { destruct (Z.to_nat (beamforming.maxIterations o)) as [|k] eqn:Ek.
      - rewrite (Hzero eq_refl).
        cbn [beamforming.weights beamforming.iterations beamforming.converged].
        rewrite normalizeWeights_length, length_map, steering_length.
        split; [unfold len; lia |]. split; [lia |].
        split; [intros _; lia | discriminate].
      - destruct Hpos as [H1 [H2 [H3 H4]]]; [lia |].
        split; [rewrite H1; unfold len; lia |].
        split; [lia |]. split; [intros Hc; rewrite (H3 Hc); lia | exact H4]. }
    destruct Hcases as [Hc1 [Hc2 [Hc3 Hc4]]].
    split; [rewrite length_map; exact Hc1 |].
    split.
    { apply Forall_forall. intros c Hc. apply in_map_iff in Hc.
      destruct Hc as [w [<- _]]. reflexivity. }
    split; [apply computeBeamPattern_length |].
    split; [exact Hc2 |]. split; [exact Hc3 |]. split; [exact Hc4 |].
    split; [exact Hdir |]. split; [exact Hwidth | exact Hsll].
Qed.

(** X9: the result of [Optimize] depends on the parameters through the
    element count, the target direction and the SNR threshold only: the
    interference angles and [params.MaxIterations] have no effect. *)
Theorem X9_optimize_ignores_interference (o : beamforming.Optimizer)
  (params params' : beamforming.BeamformingParams) :
  beamforming.ElementCount params' = beamforming.ElementCount params ->
  beamforming.TargetDirection params' = beamforming.TargetDirection params ->
  beamforming.SNRThreshold params' = beamforming.SNRThreshold params ->
  beamforming.Optimize o params' = beamforming.Optimize o params.
Proof.
  intros HE HT HS.
  destruct (Z_lt_le_dec (beamforming.ElementCount params) 0) as [Hneg|Hpos].
  - unfold beamforming.Optimize, beamforming.OptimizeEntry,
      beamforming.initializeWeights, make_len. rewrite HE.
    replace (beamforming.ElementCount params <? 0)%Z with true
      by (symmetry; apply Z.ltb_lt; assumption).
    reflexivity.
  - destruct (Optimize_Ret o params Hpos)
      as [m [dir [width [sll [Han [_ [_ [_ [_ Hopt]]]]]]]]].
    assert (Hpos' : (0 <= beamforming.ElementCount params')%Z) by lia.
    destruct (Optimize_Ret o params' Hpos')
      as [m' [dir' [width' [sll' [Han' [_ [_ [_ [_ Hopt']]]]]]]]].
    rewrite Hopt, Hopt'. clear Hopt Hopt'.
    rewrite HE, HT in Han' |- *.
    rewrite (@iterate_same_target o params params' _ _ _ HT HS) in Han' |- *.
    rewrite Han in Han'. injection Han' as <- <- <-. reflexivity.
Qed.

Lemma X9_optimize_ignores_interference_witness :
  beamforming.Optimize (beamforming.NewOptimizer 2 3 0.001) broadside2Jammed
  = beamforming.Optimize (beamforming.NewOptimizer 2 3 0.001) broadside2.
Proof.
  apply (@X9_optimize_ignores_interference
           (beamforming.NewOptimizer 2 3 0.001) broadside2 broadside2Jammed);
    reflexivity.
Defined.

(** Normalization never yields a vector of norm above 1: the norm is 1,
    or the vector was zero. *)
Lemma normalize_norm_le_1 (weights : list complex128) :
  norm2 (beamforming.normalize weights) <= 1.
Proof.
  assert (H0 : 0 <= Rsum (fun w => Abs w * Abs w) weights).
  { apply Rsum_nonneg. intros w. apply Rle_0_sqr. }
  destruct H0 as [Hpos|Hzero].
  - rewrite normalize_unit by assumption. lra.
  - unfold norm2, beamforming.normalize. rewrite Rsum_map.
    rewrite (Rsum_ext_in _ (fun _ => 0)).
    + rewrite Rsum_const, Rmult_0_r, sqrt_0. lra.
    + intros w Hw.
      assert (Hw0 : w = C0).
      { apply Abs_zero.
        apply (@Rsum_zero_in _ (fun w => Abs w * Abs w) weights);
          [intros; apply Rle_0_sqr | symmetry; exact Hzero | exact Hw]. }
      subst w. rewrite Cdiv_C0, Abs_C0. ring.
Qed.

Lemma nth_steering (len n : nat) (angle : R) :
  (n < len)%nat ->
  nth n (beamforming.steering len angle) C0
  = Exp (complex 0 (2 * PI * float64n n * 0.5 * sin angle)).
Proof.
  intros Hn. unfold beamforming.steering.
  exact (@nth_map_upto _ (fun n => Exp (complex 0 (2 * PI * float64n n * 0.5 * sin angle)))
           len n C0 Hn).
Qed.

(** The convergence test compares a response of magnitude at most
    [sqrt N * |weights|] with the threshold. *)
Lemma checkConvergence_bound (o : beamforming.Optimizer)
  (weights : list complex128) (targetAngle snrThreshold : R) :
  sqrt (INR (length weights)) * norm2 weights < snrThreshold ->
  beamforming.checkConvergence o weights targetAngle snrThreshold = false.
Proof.
  intros Hthr. unfold beamforming.checkConvergence.
  set (response := Csum _ _).
  assert (Hle : Abs response <= sqrt (INR (length weights)) * norm2 weights).
  { unfold response.
    apply Rle_trans with (Rsum (fun n => Abs (nth n weights C0))
                               (upto (length weights))).
    - apply Rle_trans
        with (Rsum (fun n => Abs (Cmul (nth n weights C0)
                                       (Conj (nth n (beamforming.steering
                                                       (length weights) targetAngle)
                                                  C0))))
                   (upto (length weights))); [apply Abs_Csum |].
      right. apply Rsum_ext_in. intros n Hn. apply in_upto in Hn.
      rewrite Abs_Cmul, Abs_Conj, nth_steering, Abs_Exp_imag by assumption. ring.
    - rewrite (Rsum_upto_nth Abs weights C0). unfold norm2. apply Rsum_le_sqrt. }
  unfold Rgeb. destruct (Rge_dec (Abs response) snrThreshold); [lra | reflexivity].
Qed.

Lemma checkConvergence_nonpositive (o : beamforming.Optimizer)
  (weights : list complex128) (targetAngle snrThreshold : R) :
  snrThreshold <= 0 ->
  beamforming.checkConvergence o weights targetAngle snrThreshold = true.
Proof.
  intros Hthr. unfold beamforming.checkConvergence.
  set (response := Csum _ _). pose proof (Abs_nonneg response).
  unfold Rgeb. destruct (Rge_dec (Abs response) snrThreshold); [reflexivity | lra].
Qed.

Lemma gradientStep_norm_le_1 (targetSteering : list complex128) (len : nat)
  (iterations : Z) (weights : list complex128) :
  norm2 (beamforming.gradientStep targetSteering len iterations weights) <= 1.
Proof. unfold beamforming.gradientStep. apply normalize_norm_le_1. Qed.

(** X10: the threshold decides convergence at both ends.  With an SNR
    threshold above [sqrt N] ([N] the element count) [Optimize] never
    reports convergence and runs all [maxIterations] passes; with a
    threshold of 0 or less it reports convergence after the first
    pass. *)
Theorem X10_threshold_decides_convergence (o : beamforming.Optimizer)
  (params : beamforming.BeamformingParams) :
  (0 <= beamforming.ElementCount params)%Z ->
  exists result,
    beamforming.Optimize o params = Ret (inl result)
    /\ (sqrt (IZR (beamforming.ElementCount params))
        < beamforming.SNRThreshold params ->
        beamforming.Converged result = false
        /\ beamforming.Iterations result = Z.max 0 (beamforming.maxIterations o))
    /\ (beamforming.SNRThreshold params <= 0 ->
        (1 <= beamforming.maxIterations o)%Z ->
        beamforming.Converged result = true
        /\ beamforming.Iterations result = 1%Z).
Proof.
  intros HEC.
  destruct (Optimize_Ret o params HEC)
    as [m [dir [width [sll [_ [_ [_ [_ [_ Hopt]]]]]]]]].
  eexists. split; [exact Hopt |].
  cbn [beamforming.Converged beamforming.Iterations].
  set (len := Z.to_nat (beamforming.ElementCount params)).
  assert (HlenR : INR len = IZR (beamforming.ElementCount params)).
  { unfold len. rewrite INR_IZR_INZ. f_equal. lia. }
  split.
  - intros Hthr.
    assert (Hnever : forall iterations weights,
               beamforming.checkConvergence o
                 (beamforming.gradientStep
                    (beamforming.steering len (beamforming.TargetDirection params))
                    len iterations weights)
                 (beamforming.TargetDirection params)
                 (beamforming.SNRThreshold params) = false).
    { intros iterations weights. apply checkConvergence_bound.
      rewrite gradientStep_length, HlenR.
      pose proof (gradientStep_norm_le_1
                    (beamforming.steering len (beamforming.TargetDirection params))
                    len iterations weights) as Hn.
      pose proof (sqrt_pos (IZR (beamforming.ElementCount params))) as Hs.
      apply Rle_lt_trans with (sqrt (IZR (beamforming.ElementCount params)) * 1);
        [apply Rmult_le_compat_l; assumption | lra]. }
    match goal with
    | |- beamforming.converged (beamforming.iterate o params ?ts len ?rem ?it ?rn)
         = false /\ _ =>
        pose proof (@iterate_never_converges o params ts len rem Hnever it rn
                      eq_refl) as Hconv;
        pose proof (iterate_spec o params ts len rem it rn) as Hit
    end.
    split; [exact Hconv |]. cbv zeta in Hit. destruct Hit as [Hzero Hpos].
    destruct (Z.to_nat (beamforming.maxIterations o)) as [|k] eqn:Ek.
    + rewrite (Hzero eq_refl). cbn [beamforming.iterations]. lia.
    + destruct Hpos as [_ [_ [H3 _]]]; [lia |]. rewrite (H3 Hconv). lia.
  - intros Hthr Hmax.
    match goal with
    | |- beamforming.converged (beamforming.iterate o params ?ts len ?rem ?it ?rn)
         = true /\ _ =>
        apply (@iterate_converges_at_once o params ts len rem it rn)
    end.
    + intros iterations weights. apply checkConvergence_nonpositive. assumption.
    + lia.
Qed.

Lemma sqrt_2_lt_2 : sqrt 2 < 2.
Proof.
  replace 2 with (sqrt 4) at 2.
  - apply sqrt_lt_1; lra.
  - replace 4 with (2 * 2) by lra. apply sqrt_square. lra.
Qed.

Lemma X10_threshold_decides_convergence_witness :
  (exists result,
      beamforming.Optimize (beamforming.NewOptimizer 2 3 0.001) broadside2Strict
      = Ret (inl result)
      /\ beamforming.Converged result = false
      /\ beamforming.Iterations result = 3%Z)
  /\ (exists result,
         beamforming.Optimize (beamforming.NewOptimizer 2 3 0.001) broadside2Lax
         = Ret (inl result)
         /\ beamforming.Converged result = true
         /\ beamforming.Iterations result = 1%Z).
Proof.
  split.
  - destruct (@X10_threshold_decides_convergence
                (beamforming.NewOptimizer 2 3 0.001) broadside2Strict)
      as [result [Hopt [Hnever _]]]; [simpl; lia |].
    exists result. split; [exact Hopt |].
    apply Hnever. simpl. exact sqrt_2_lt_2.
  - destruct (@X10_threshold_decides_convergence
                (beamforming.NewOptimizer 2 3 0.001) broadside2Lax)
      as [result [Hopt [_ Hatonce]]]; [simpl; lia |].
    exists result. split; [exact Hopt |].
    apply Hatonce; [simpl; lra | simpl; lia].
Defined.

Section GradientStep.

Variable targetSteering : list complex128.
Variable len : nat.
Variable iterations : Z.
Variable weights : list complex128.

Hypothesis steering_unit :
  forall n, (n < len)%nat ->
    Abs (nth n targetSteering C0) * Abs (nth n targetSteering C0) = 1.
Hypothesis weights_length : length weights = len.
Hypothesis step_positive : (0 < iterations + 1)%Z.

Lemma stepLength_pos : 0 < stepLength iterations.
Proof.
  unfold stepLength.
  assert (0 < IZR (iterations + 1)) by (apply IZR_lt; assumption).
  apply Rdiv_lt_0_compat; lra.
Qed.

(** The energy of one stepped weight: the old energy, a cross term and
    the energy of the step. *)
Lemma stepped_energy_term (n : nat) :
  (n < len)%nat ->
  let c := correlation targetSteering weights len in
  let mu := stepLength iterations in
  let w' := nth n (steppedWeights targetSteering len iterations weights) C0 in
  Abs w' * Abs w'
  = Abs (nth n weights C0) * Abs (nth n weights C0)
    + (2 * mu) * (real c * real (Cmul (nth n weights C0) (nth n targetSteering C0))
                  + imag c * imag (Cmul (nth n weights C0) (nth n targetSteering C0)))
    + mu * mu * (real c * real c + imag c * imag c).
Proof.
  intros Hn c mu w'. unfold w', steppedWeights.
  rewrite nth_map_upto by assumption. rewrite nth_map_upto by assumption.
  rewrite (Csum_ext_in _ (fun m => Cmul (Conj (nth n targetSteering C0))
                                        (Cmul (nth m weights C0)
                                              (nth m targetSteering C0))))
    by (intros m _; apply complex_eq; simpl; ring).
  rewrite Csum_Cmul_l. fold (correlation targetSteering weights len). fold c.
  pose proof (steering_unit Hn) as Hu. rewrite Abs_sqr in Hu.
  assert (Hd : 0 < IZR (iterations + 1)) by (apply IZR_lt; assumption).
  rewrite !Abs_sqr. unfold Cadd, Cmul, Cdiv, Conj, float64; simpl.
  set (tr := real (nth n targetSteering C0)) in *.
  set (ti := imag (nth n targetSteering C0)) in *.
  set (a := real (nth n weights C0)). set (b := imag (nth n weights C0)).
  set (cr := real c). set (ci := imag c).
  replace ((0.1 * IZR (iterations + 1) + 0 * 0)
           / (IZR (iterations + 1) * IZR (iterations + 1) + 0 * 0)) with mu
    by (unfold mu, stepLength; field; lra).
  replace ((0 * IZR (iterations + 1) - 0.1 * 0)
           / (IZR (iterations + 1) * IZR (iterations + 1) + 0 * 0)) with 0
    by (field; lra).
  replace (mu * mu * (cr * cr + ci * ci))
    with (mu * mu * (cr * cr + ci * ci) * (tr * tr + ti * ti))
    by (rewrite Hu; ring).
  ring.
Qed.

(** The additive step never lowers the energy of the weights. *)
Lemma stepped_energy :
  Rsum (fun w => Abs w * Abs w) weights
  <= Rsum (fun w => Abs w * Abs w)
          (steppedWeights targetSteering len iterations weights).
Proof.
  set (c := correlation targetSteering weights len).
  set (mu := stepLength iterations).
  assert (Hlen : length (steppedWeights targetSteering len iterations weights) = len).
  { unfold steppedWeights. rewrite length_map. apply length_upto. }
  rewrite <- (Rsum_upto_nth (fun w => Abs w * Abs w)
                (steppedWeights targetSteering len iterations weights) C0), Hlen.
  rewrite (Rsum_ext_in _ _ (upto len)
             (fun n Hn => stepped_energy_term (proj1 (in_upto len n) Hn))).
  fold c. fold mu.
  rewrite !Rsum_plus, Rsum_scale_l, Rsum_plus, !Rsum_scale_l, Rsum_const.
  rewrite <- real_Csum, <- imag_Csum.
  fold (correlation targetSteering weights len). fold c.
  pose proof (Rsum_upto_nth (fun w => Abs w * Abs w) weights C0) as Hw.
  rewrite weights_length in Hw. rewrite Hw.
  pose proof stepLength_pos as Hmu. fold mu in Hmu. rewrite length_upto.
  pose proof (pos_INR len) as Hl.
  pose proof (Rle_0_sqr (real c)) as H1. pose proof (Rle_0_sqr (imag c)) as H2.
  unfold Rsqr in H1, H2.
  assert (0 <= 2 * mu * (real c * real c + imag c * imag c)) by nra.
  assert (0 <= INR len * (mu * mu * (real c * real c + imag c * imag c))).
  { apply Rmult_le_pos; [assumption |]. apply Rmult_le_pos; [nra | lra]. }
  lra.
Qed.

Lemma gradientStep_unit :
  0 < Rsum (fun w => Abs w * Abs w) weights ->
  norm2 (beamforming.gradientStep targetSteering len iterations weights) = 1.
Proof.
  intros Hpos. unfold beamforming.gradientStep.
  fold (steppedWeights targetSteering len iterations weights).
  apply normalize_unit. pose proof stepped_energy. lra.
Qed.

End GradientStep.

Lemma steering_unit_modulus (len n : nat) (angle : R) :
  (n < len)%nat ->
  Abs (nth n (beamforming.steering len angle) C0)
  * Abs (nth n (beamforming.steering len angle) C0) = 1.
Proof.
  intros Hn. rewrite nth_steering by assumption. rewrite Abs_Exp_imag. ring.
Qed.

Lemma unit_norm_energy (weights : list complex128) :
  norm2 weights = 1 -> 0 < Rsum (fun w => Abs w * Abs w) weights.
Proof.
  unfold norm2. intros H.
  destruct (Rle_dec (Rsum (fun w => Abs w * Abs w) weights) 0) as [Hle|Hgt];
    [| lra].
  rewrite (sqrt_neg_0 _ Hle) in H. lra.
Qed.

Lemma iterate_unit (o : beamforming.Optimizer)
  (params : beamforming.BeamformingParams) (len : nat) (angle : R)
  (remaining : nat) :
  forall (iter : Z) (run : beamforming.OptimizationRun),
    (0 <= iter)%Z ->
    length (beamforming.weights run) = len ->
    norm2 (beamforming.weights run) = 1 ->
    norm2 (beamforming.weights
             (beamforming.iterate o params (beamforming.steering len angle) len
                remaining iter run)) = 1.
Proof.
  induction remaining as [|remaining IH]; intros iter run Hiter Hlen Hunit;
    [exact Hunit |].
  cbn [beamforming.iterate].
  assert (Hstep : norm2 (beamforming.gradientStep (beamforming.steering len angle)
                           len (iter + 1) (beamforming.weights run)) = 1).
  { apply gradientStep_unit.
    - intros n Hn. apply steering_unit_modulus. assumption.
    - exact Hlen.
    - lia.
    - apply unit_norm_energy. exact Hunit. }
  destruct (beamforming.checkConvergence o _ _ _).
  - exact Hstep.
  - apply IH; [lia | apply gradientStep_length | exact Hstep].
Qed.

Lemma initial_weights_unit (len : nat) (angle : R) :
  (1 <= len)%nat ->
  norm2 (beamforming.normalizeWeights (map Conj (beamforming.steering len angle)))
  = 1.
Proof.
  intros Hlen. rewrite normalizeWeights_eq. apply normalize_unit.
  rewrite <- (Rsum_upto_nth (fun w => Abs w * Abs w) _ C0).
  rewrite length_map, steering_length.
  rewrite (Rsum_ext_in _ (fun _ => 1)).
  - rewrite Rsum_const, length_upto, Rmult_1_r. apply lt_0_INR. lia.
  - intros n Hn. apply in_upto in Hn.
    rewrite (nth_indep _ C0 (Conj C0))
      by (rewrite length_map, steering_length; assumption).
    rewrite (map_nth Conj (beamforming.steering len angle) C0 n).
    rewrite Abs_Conj. apply steering_unit_modulus. assumption.
Qed.

(** X11: for at least one element, the weights [Optimize] returns have
    Euclidean norm 1, whatever the number of iterations: the additive
    gradient step never lowers the energy of the weights, so the
    normalization never divides by zero. *)
Theorem X11_optimize_returns_unit_norm_weights (o : beamforming.Optimizer)
  (params : beamforming.BeamformingParams) :
  (1 <= beamforming.ElementCount params)%Z ->
  exists result,
    beamforming.Optimize o params = Ret (inl result)
    /\ norm2 (weightsOf result) = 1.
Proof.
  intros HEC.
  destruct (@Optimize_Ret o params ltac:(lia))
    as [m [dir [width [sll [_ [_ [_ [_ [_ Hopt]]]]]]]]].
  eexists. split; [exact Hopt |].
  unfold weightsOf. cbn [beamforming.Weights]. rewrite serialized_weights.
  apply iterate_unit.
  - lia.
  - cbn [beamforming.weights].
    rewrite normalizeWeights_length, length_map. apply steering_length.
  - cbn [beamforming.weights]. apply initial_weights_unit. lia.
Qed.

Lemma X11_optimize_returns_unit_norm_weights_witness :
  exists result,
    beamforming.Optimize (beamforming.NewOptimizer 2 3 0.001) broadside2
    = Ret (inl result)
    /\ norm2 (weightsOf result) = 1.
Proof.
  apply (@X11_optimize_returns_unit_norm_weights
           (beamforming.NewOptimizer 2 3 0.001) broadside2).
  simpl. lia.
Defined.

(** ** The dispatch of [Estimate] and the placeholder eigendecomposition *)

Lemma espritAlgorithm_Ret (e : doa.estimator.Estimator) (data : list complex128)
  (params : doa.estimator.DOAParams) :
  validMusicInput data params ->
  doa.estimator.espritAlgorithm e data params
  = Ret (espritGrid (doa.estimator.NumSources params)).
Proof.
  intros [HM [HN [HK Hdata]]].
  destruct (@generateReceivedSignal_Ret e data params) as [X [HX [HXlen HXrect]]];
    try lia; try assumption.
  unfold doa.estimator.espritAlgorithm. rewrite HX. cbn [bind].
  rewrite (@estimator_covariance_Ret e X
             (Z.to_nat (doa.estimator.SnapshotLength params)))
    by (try assumption; lia).
  cbn [bind].
  destruct (covarianceOf_shape X (Z.to_nat (doa.estimator.SnapshotLength params)))
    as [Hclen Hcrows].
  destruct (@eigenDecomposition_Ret e
              (covarianceOf X (Z.to_nat (doa.estimator.SnapshotLength params))))
    as [ev [vecs [Hed [Hvlen _]]]].
  { apply Forall_forall. intros row Hrow. rewrite Forall_forall in Hcrows.
    rewrite (Hcrows row Hrow), Hclen. apply Nat.le_refl. }
  rewrite Hed. cbn [bind].
  rewrite make_len_nonneg by lia. cbn [bind].
  rewrite (mapM_Ret_in _ (fun i => nth i vecs [])).
  - cbn [bind]. reflexivity.
  - intros i Hi. apply in_upto in Hi. apply elemAt_Ret.
    rewrite Hvlen, Hclen, HXlen. lia.
Qed.

Lemma espritGrid_bounds (K : Z) :
  Forall (fun a => - (PI / 4) <= a < PI / 4) (espritGrid K).
Proof.
  pose proof PI_RGT_0 as Hpi.
  unfold espritGrid. apply Forall_forall. intros a Ha.
  apply in_map_iff in Ha. destruct Ha as [i [<- Hi]]. apply in_upto in Hi.
  assert (HK : (0 < K)%Z) by lia.
  assert (HKR : 0 < IZR K) by (apply IZR_lt; assumption).
  assert (Hi0 : 0 <= INR i) by apply pos_INR.
  assert (HiK : INR i < IZR K).
  { rewrite INR_IZR_INZ. apply IZR_lt. lia. }
  assert (Hq : 0 <= INR i / IZR K < 1).
  { split.
    - apply Rmult_le_pos; [assumption | left; apply Rinv_0_lt_compat; assumption].
    - apply Rmult_lt_reg_r with (IZR K); [assumption |].
      unfold Rdiv. rewrite Rmult_assoc, Rinv_l by lra. lra. }
  replace (- PI / 4 + INR i * PI / (2 * IZR K))
    with (- PI / 4 + (INR i / IZR K) * (PI / 2)) by (field; lra).
  assert (0 <= INR i / IZR K * (PI / 2) < PI / 2) by nra.
  lra.
Qed.

(** X12: on valid input [Estimate] never returns an error.  For the
    method ["ESPRIT"] it returns a spectrum of 360 zeros and the fixed
    grid [-pi/4 + i*pi/(2K)], [i < K], of angles in [-pi/4, pi/4),
    whatever the data; for every other method string it returns what
    [musicAlgorithm] returns. *)
Theorem X12_estimate_dispatch (e : doa.estimator.Estimator)
  (data : list complex128) (params : doa.estimator.DOAParams) :
  validMusicInput data params ->
  (forall err, doa.estimator.Estimate e data params <> Ret (inr err))
  /\ (doa.estimator.Method params = "ESPRIT"%string ->
      doa.estimator.Estimate e data params
      = Ret (inl (doaResult (repeat 0 360)
                            (espritGrid (doa.estimator.NumSources params))))
      /\ Forall (fun a => - (PI / 4) <= a < PI / 4)
                (espritGrid (doa.estimator.NumSources params)))
  /\ (doa.estimator.Method params <> "ESPRIT"%string ->
      exists spectrum angles,
        doa.estimator.musicAlgorithm e data params = Ret (spectrum, angles)
        /\ doa.estimator.Estimate e data params
           = Ret (inl (doaResult spectrum angles))).
Proof.
  intros Hvalid. split; [| split].
  - intros err H. unfold doa.estimator.Estimate in H.
    apply bind_Ret in H. destruct H as [[spectrum angles] [_ H]]. discriminate.
  - intros Hm. split; [| apply espritGrid_bounds].
    unfold doa.estimator.Estimate. rewrite Hm. cbn [String.eqb Ascii.eqb Bool.eqb].
    rewrite espritAlgorithm_Ret by assumption. reflexivity.
  - intros Hm.
    destruct (musicAlgorithm_Ret e Hvalid) as [ns [_ [_ [_ [_ Hmusic]]]]].
    eexists. eexists. split; [exact Hmusic |].
    unfold doa.estimator.Estimate.
    apply String.eqb_neq in Hm. rewrite Hm.
    destruct (doa.estimator.Method params =? "MUSIC")%string;
      rewrite Hmusic; reflexivity.
Qed.

Lemma X12_estimate_dispatch_witness :
  (forall err, doa.estimator.Estimate (doa.estimator.NewEstimator 2 1 1 "MUSIC")
                 [C1] smallMusicParams <> Ret (inr err))
  /\ (doa.estimator.Method smallMusicParams = "ESPRIT"%string ->
      doa.estimator.Estimate (doa.estimator.NewEstimator 2 1 1 "MUSIC")
        [C1] smallMusicParams
      = Ret (inl (doaResult (repeat 0 360)
                            (espritGrid (doa.estimator.NumSources smallMusicParams))))
      /\ Forall (fun a => - (PI / 4) <= a < PI / 4)
                (espritGrid (doa.estimator.NumSources smallMusicParams)))
  /\ (doa.estimator.Method smallMusicParams <> "ESPRIT"%string ->
      exists spectrum angles,
        doa.estimator.musicAlgorithm (doa.estimator.NewEstimator 2 1 1 "MUSIC")
          [C1] smallMusicParams = Ret (spectrum, angles)
        /\ doa.estimator.Estimate (doa.estimator.NewEstimator 2 1 1 "MUSIC")
             [C1] smallMusicParams
           = Ret (inl (doaResult spectrum angles))).
Proof.
  apply (@X12_estimate_dispatch (doa.estimator.NewEstimator 2 1 1 "MUSIC")
           [C1] smallMusicParams).
  exact smallMusicParams_valid.
Defined.

Lemma combine_map_upto {A B : Type} (f : nat -> A) (g : nat -> B) (n : nat) :
  combine (map f (upto n)) (map g (upto n)) = map (fun i => (f i, g i)) (upto n).
Proof.
  unfold upto. generalize 0%nat. induction n as [|n IH]; intros s; simpl;
    [reflexivity |].
  f_equal. apply IH.
Qed.

Lemma eigenDecomposition_sorted_pairs (e : doa.estimator.Estimator)
  (matrix : list (list complex128)) :
  Forall (fun row => (length matrix <= length row)%nat) matrix ->
  doa.estimator.eigenDecomposition e matrix
  = Ret (map fst (doa.exchangeSort fst
                    (map (fun i => (rowPower matrix i, unitRow (length matrix) i))
                         (upto (length matrix)))),
         map snd (doa.exchangeSort fst
                    (map (fun i => (rowPower matrix i, unitRow (length matrix) i))
                         (upto (length matrix))))).
Proof.
  intros Hrows. rewrite Forall_forall in Hrows.
  unfold doa.estimator.eigenDecomposition.
  rewrite (mapM_Ret_in _ (rowPower matrix)).
  - cbn [bind]. fold (unitRow (length matrix)).
    change (map (fun i => unitRow (length matrix) i) (upto (length matrix)))
      with (map (unitRow (length matrix)) (upto (length matrix))).
    rewrite combine_map_upto. reflexivity.
  - intros i Hi. apply in_upto in Hi.
    rewrite (foldM_Ret_in _ (fun sum j =>
               sum + Abs (nth j (nth i matrix []) C0)
                     * Abs (nth j (nth i matrix []) C0))).
    + cbn [bind]. reflexivity.
    + intros sum j Hj. apply in_upto in Hj.
      rewrite (elemAt_Ret matrix [] Hi). cbn [bind].
      rewrite (elemAt_Ret (nth i matrix []) C0).
      * reflexivity.
      * specialize (Hrows _ (nth_In matrix [] Hi)). lia.
Qed.

(** X13: on a matrix whose rows are at least as long as the matrix has
    rows, [eigenDecomposition] returns the mean squared magnitudes of
    the rows in descending order as eigenvalues, and as eigenvectors the
    unit vectors of these rows, each still paired with the value of its
    own row. *)
Theorem X13_eigenDecomposition_is_a_row_power_sort (e : doa.estimator.Estimator)
  (matrix : list (list complex128)) :
  Forall (fun row => (length matrix <= length row)%nat) matrix ->
  exists pairs,
    doa.estimator.eigenDecomposition e matrix = Ret (map fst pairs, map snd pairs)
    /\ Permutation pairs
         (map (fun i => (rowPower matrix i, unitRow (length matrix) i))
              (upto (length matrix)))
    /\ StronglySorted (fun a b => fst b <= fst a) pairs.
Proof.
  intros Hrows. eexists. split; [apply eigenDecomposition_sorted_pairs; assumption |].
  split; [apply exchangeSort_perm | apply exchangeSort_sorted].
Qed.

Lemma X13_eigenDecomposition_is_a_row_power_sort_witness :
  exists pairs,
    doa.estimator.eigenDecomposition (doa.estimator.NewEstimator 2 1 1 "MUSIC")
      [[C1; C0]; [C0; C1]] = Ret (map fst pairs, map snd pairs)
    /\ Permutation pairs
         (map (fun i => (rowPower [[C1; C0]; [C0; C1]] i,
                         unitRow (length [[C1; C0]; [C0; C1]]) i))
              (upto (length [[C1; C0]; [C0; C1]])))
    /\ StronglySorted (fun a b => fst b <= fst a) pairs.
Proof.
  apply (@X13_eigenDecomposition_is_a_row_power_sort
           (doa.estimator.NewEstimator 2 1 1 "MUSIC") [[C1; C0]; [C0; C1]]).
  repeat constructor.
Defined.

Lemma skipn_as_map {A : Type} (xs : list A) (k : nat) (d : A) :
  (k <= length xs)%nat ->
  map (fun i => nth (k + i) xs d) (upto (length xs - k)) = skipn k xs.
Proof.
  revert k. induction xs as [|x xs IH]; intros k Hk.
  - simpl in Hk. assert (k = 0%nat) by lia. subst. reflexivity.
  - destruct k as [|k].
    + rewrite Nat.sub_0_r. cbn [skipn Nat.add].
      rewrite (map_nth_upto (fun a => a) (x :: xs) d). apply map_id.
    + cbn [skipn length Nat.sub]. rewrite <- (IH k) by (simpl in Hk; lia).
      apply map_ext. intros i. reflexivity.
Qed.

(** X14: [extractNoiseSubspace] returns the eigenvectors from position
    [numSources] on when [0 <= numSources <= M], and panics otherwise
    (a negative index, or [make] with a negative length). *)
Theorem X14_noise_subspace_is_the_tail (e : doa.estimator.Estimator)
  (eigenvectors : list (list complex128)) (numSources : Z) :
  ((0 <= numSources <= Z.of_nat (length eigenvectors))%Z ->
   doa.estimator.extractNoiseSubspace e eigenvectors numSources
   = Ret (skipn (Z.to_nat numSources) eigenvectors))
  /\ ((numSources < 0)%Z \/ (Z.of_nat (length eigenvectors) < numSources)%Z ->
      doa.estimator.extractNoiseSubspace e eigenvectors numSources = Panic).
Proof.
  unfold doa.estimator.extractNoiseSubspace. split.
  - intros HK. rewrite make_len_nonneg by lia. cbn [bind].
    rewrite (mapM_Ret_in _ (fun i =>
               nth (Z.to_nat numSources + i) eigenvectors [])).
    + f_equal.
      replace (Z.to_nat (Z.of_nat (length eigenvectors) - numSources))
        with (length eigenvectors - Z.to_nat numSources)%nat by lia.
      apply skipn_as_map. lia.
    + intros i Hi. apply in_upto in Hi.
      rewrite (elemAtZ_Ret eigenvectors [] ) by lia.
      f_equal. f_equal. lia.
  - intros [Hneg|Hbig].
    + rewrite make_len_nonneg by lia. cbn [bind].
      destruct (Z.to_nat (Z.of_nat (length eigenvectors) - numSources))
        as [|n] eqn:E; [lia |].
      unfold upto. cbn [seq mapM]. unfold elemAtZ.
      replace (numSources + Z.of_nat 0 <? 0)%Z with true
        by (symmetry; apply Z.ltb_lt; lia).
      reflexivity.
    + unfold make_len.
      replace (Z.of_nat (length eigenvectors) - numSources <? 0)%Z with true
        by (symmetry; apply Z.ltb_lt; lia).
      reflexivity.
Qed.

(** ** ESPRIT: construction, dimension check and angle extraction *)

(** X15: an estimator built by [NewESPRITEstimator] has a non-zero
    element spacing and snapshot length (0.5 and 256 replace a zero);
    non-zero values are kept, and building again from the resulting
    configuration gives the same estimator. *)
Theorem X15_new_estimator_defaults (config : doa.esprit.ESPRITConfig) :
  let e := doa.esprit.NewESPRITEstimator config in
  doa.esprit.ElementSpacing (doa.esprit.config e) <> 0
  /\ doa.esprit.SnapshotLength (doa.esprit.config e) <> 0%Z
  /\ (doa.esprit.ElementSpacing config <> 0 ->
      doa.esprit.ElementSpacing (doa.esprit.config e)
      = doa.esprit.ElementSpacing config)
  /\ (doa.esprit.ElementSpacing config = 0 ->
      doa.esprit.ElementSpacing (doa.esprit.config e) = 0.5)
  /\ (doa.esprit.SnapshotLength config <> 0%Z ->
      doa.esprit.SnapshotLength (doa.esprit.config e)
      = doa.esprit.SnapshotLength config)
  /\ (doa.esprit.SnapshotLength config = 0%Z ->
      doa.esprit.SnapshotLength (doa.esprit.config e) = 256%Z)
  /\ doa.esprit.NewESPRITEstimator (doa.esprit.config e) = e.
Proof.
  intros e. unfold e, doa.esprit.NewESPRITEstimator. cbn [doa.esprit.config
    doa.esprit.ElementSpacing doa.esprit.SnapshotLength doa.esprit.NumAntennas
    doa.esprit.NumSources doa.esprit.SampleRate doa.esprit.CarrierFreq].
  unfold Reqb.
  destruct (Req_dec_T (doa.esprit.ElementSpacing config) 0) as [Hd|Hd];
    destruct (Z.eqb_spec (doa.esprit.SnapshotLength config) 0) as [Hn|Hn].
  all: repeat split; try (intros; lra); try (intros; lia); try congruence.
  all: try (destruct (Req_dec_T 0.5 0); [exfalso; lra |]).
  all: try (destruct (Req_dec_T (doa.esprit.ElementSpacing config) 0);
            [exfalso; lra |]).
  all: try (destruct (Z.eqb_spec (doa.esprit.SnapshotLength config) 0);
            [exfalso; lia |]).
  all: try reflexivity.
Qed.

(** X16: the dimension check of [EstimateDOA] comes first: a signal
    whose row count differs from [NumAntennas] gives the mismatch error
    with both numbers, even when it is empty or ragged; but zero
    configured antennas and an empty signal pass the check and panic.
    Whenever the call returns, the configuration and the noise subspace
    of the receiver are unchanged, and the receiver is unchanged
    altogether when an error is returned. *)
Theorem X16_dimension_check_comes_first (F : doa.mat.Factorizations)
  (e : doa.esprit.ESPRITEstimator) (signal : list (list complex128)) :
  (Z.of_nat (length signal) <> doa.esprit.NumAntennas (doa.esprit.config e) ->
   doa.esprit.EstimateDOA e signal
   = Ret (inr (dimensionMismatch (doa.esprit.NumAntennas (doa.esprit.config e))
                                 (length signal)), e))
  /\ (doa.esprit.NumAntennas (doa.esprit.config e) = 0%Z ->
      doa.esprit.EstimateDOA e [] = Panic)
  /\ (forall r e',
         doa.esprit.EstimateDOA e signal = Ret (r, e') ->
         doa.esprit.config e' = doa.esprit.config e
         /\ doa.esprit.noiseSubspace e' = doa.esprit.noiseSubspace e
         /\ (forall err, r = inr err -> e' = e)).
Proof.
  split; [| split].
  - intros Hne. unfold doa.esprit.EstimateDOA.
    apply Z.eqb_neq in Hne. rewrite Hne. reflexivity.
  - intros HM. unfold doa.esprit.EstimateDOA. rewrite HM. reflexivity.
  - intros r e' H. unfold doa.esprit.EstimateDOA in H.
    destruct (negb _).
    + injection H as <- <-. repeat split. 
    + apply bind_Ret in H. destruct H as [cov [_ H]].
      apply bind_Ret in H. destruct H as [ev [_ H]].
      apply bind_Ret in H. destruct H as [r1 [_ H]].
      destruct r1 as [ss|err1].
      * apply bind_Ret in H. destruct H as [r2 [_ H]].
        destruct r2 as [angles|err2]; injection H as <- <-.
        -- repeat split. intros err Herr. discriminate.
        -- repeat split.
      * injection H as <- <-. repeat split.
Qed.

Lemma extractAngles_Ret (e : doa.esprit.ESPRITEstimator) (psi : doa.mat.CDense)
  (K : Z) :
  doa.esprit.ElementSpacing (doa.esprit.config e) <> 0 ->
  (0 <= K)%Z ->
  (forall i, (i < Nat.min (Z.to_nat K) (length psi))%nat ->
             (i < length (nth i psi []))%nat) ->
  doa.esprit.extractAngles e psi K
  = Ret (extractedAngles (doa.esprit.ElementSpacing (doa.esprit.config e)) psi K).
Proof.
  intros Hd HK Hdiag. pose proof PI_RGT_0 as Hpi.
  unfold doa.esprit.extractAngles, extractedAngles, doa.mat.Rows.
  rewrite make_len_nonneg by assumption. cbn [bind].
  set (len := Z.to_nat K) in *. set (d := doa.esprit.ElementSpacing _) in *.
  set (Kact := Nat.min len (length psi)) in *.
  rewrite (mapM_Ret_in _ (fun i => espritAngle d (nth i (nth i psi []) C0))).
  - cbn [bind]. f_equal.
    replace (upto len) with (upto Kact ++ seq Kact (len - Kact)).
    2:{ unfold upto. rewrite <- seq_app. f_equal. unfold Kact. lia. }
    rewrite map_app. f_equal.
    + apply map_ext_in. intros i Hi. apply in_upto in Hi.
      assert (Hlt : (i < length psi)%nat) by (unfold Kact in Hi; lia).
      apply Nat.ltb_lt in Hlt. rewrite Hlt. reflexivity.
    + apply map_ext_in. intros i Hi. apply in_seq in Hi.
      assert (Hge : (length psi <= i)%nat) by (unfold Kact in Hi; lia).
      apply Nat.ltb_ge in Hge. rewrite Hge. reflexivity.
  - intros i Hi. apply in_upto in Hi.
    rewrite (@At_Ret _ psi i i C0) by (try apply Hdiag; unfold Kact in Hi; lia).
    cbn [bind]. f_equal. unfold espritAngle, clampSine. f_equal.
    fold d.
    destruct (Rgtb (doa.esprit.CarrierFreq (doa.esprit.config e)) 0) eqn:E.
    + apply Rgtb_true in E. replace 3e8 with 300000000 by lra.
      replace (Phase (nth i (nth i psi []) C0)
               * (300000000 / doa.esprit.CarrierFreq (doa.esprit.config e))
               / (2 * PI * (d * (300000000 / doa.esprit.CarrierFreq (doa.esprit.config e)))))
        with (Phase (nth i (nth i psi []) C0) / (2 * PI * d))
        by (field; repeat split; lra).
      reflexivity.
    + replace 1.0 with 1 by lra.
      replace (Phase (nth i (nth i psi []) C0) * 1 / (2 * PI * d))
        with (Phase (nth i (nth i psi []) C0) / (2 * PI * d))
        by (field; split; lra).
      reflexivity.
Qed.

Lemma extractedAngles_bounds (d : R) (psi : doa.mat.CDense) (K : Z) :
  Forall (fun a => - (PI / 2) <= a <= PI / 2) (extractedAngles d psi K).
Proof.
  pose proof PI_RGT_0 as Hpi.
  unfold extractedAngles. apply Forall_forall. intros a Ha.
  apply in_map_iff in Ha. destruct Ha as [i [<- Hi]]. apply in_upto in Hi.
  destruct (Nat.ltb i (length psi)).
  - unfold espritAngle. apply asin_bound.
  - assert (HK : (0 < K)%Z) by lia.
    assert (HKR : 0 < IZR K) by (apply IZR_lt; assumption).
    assert (Hi0 : 0 <= INR i) by apply pos_INR.
    assert (HiK : INR i < IZR K).
    { rewrite INR_IZR_INZ. apply IZR_lt. lia. }
    assert (Hq : 0 <= INR i / IZR K < 1).
    { split.
      - apply Rmult_le_pos; [assumption | left; apply Rinv_0_lt_compat; assumption].
      - apply Rmult_lt_reg_r with (IZR K); [assumption |].
        unfold Rdiv. rewrite Rmult_assoc, Rinv_l by lra. lra. }
    replace (- PI / 4 + INR i * PI / (2 * IZR K))
      with (- PI / 4 + (INR i / IZR K) * (PI / 2)) by (field; lra).
    assert (0 <= INR i / IZR K * (PI / 2) < PI / 2) by nra.
    lra.
Qed.

(** X17: for a non-zero element spacing [d], [K >= 0] and a rotation
    operator whose first [min(K, rows)] diagonal entries exist,
    [extractAngles] returns [K] angles in [-pi/2, pi/2]: for the rows
    present [asin] of the phase of the diagonal entry over [2*pi*d],
    clamped to [-1, 1], and the filler [-pi/4 + i*pi/(2K)] beyond.  The
    carrier frequency has no effect on the result. *)
Theorem X17_extractAngles_closed_form (e : doa.esprit.ESPRITEstimator)
  (psi : doa.mat.CDense) (K : Z) :
  doa.esprit.ElementSpacing (doa.esprit.config e) <> 0 ->
  (0 <= K)%Z ->
  (forall i, (i < Nat.min (Z.to_nat K) (length psi))%nat ->
             (i < length (nth i psi []))%nat) ->
  exists angles,
    doa.esprit.extractAngles e psi K = Ret angles
    /\ angles = extractedAngles (doa.esprit.ElementSpacing (doa.esprit.config e))
                                psi K
    /\ Z.of_nat (length angles) = K
    /\ Forall (fun a => - (PI / 2) <= a <= PI / 2) angles
    /\ forall e2,
         doa.esprit.ElementSpacing (doa.esprit.config e2)
         = doa.esprit.ElementSpacing (doa.esprit.config e) ->
         doa.esprit.extractAngles e2 psi K = Ret angles.
Proof.
  intros Hd HK Hdiag. eexists. split; [apply extractAngles_Ret; assumption |].
  split; [reflexivity |]. split; [| split].
  - unfold extractedAngles. rewrite length_map, length_upto. lia.
  - apply extractedAngles_bounds.
  - intros e2 He2. rewrite <- He2.
    apply extractAngles_Ret; [rewrite He2 |..]; assumption.
Qed.

Lemma X17_extractAngles_closed_form_witness :
  exists angles,
    doa.esprit.extractAngles (freshEstimator 2 1) [[C1]] 2 = Ret angles
    /\ angles = extractedAngles
                  (doa.esprit.ElementSpacing (doa.esprit.config (freshEstimator 2 1)))
                  [[C1]] 2
    /\ Z.of_nat (length angles) = 2%Z
    /\ Forall (fun a => - (PI / 2) <= a <= PI / 2) angles
    /\ forall e2,
         doa.esprit.ElementSpacing (doa.esprit.config e2)
         = doa.esprit.ElementSpacing (doa.esprit.config (freshEstimator 2 1)) ->
         doa.esprit.extractAngles e2 [[C1]] 2 = Ret angles.
Proof.
  apply (@X17_extractAngles_closed_form (freshEstimator 2 1) [[C1]] 2).
  - simpl. lra.
  - lia.
  - intros i Hi. simpl in Hi. assert (i = 0%nat) by lia. subst i. simpl. lia.
Defined.

Lemma Phase_real (z : complex128) : imag z = 0 -> Phase z = 0 \/ Phase z = PI.
Proof.
  intros Him. unfold Phase, Atan2. rewrite Him.
  unfold Rdiv. rewrite Rmult_0_l, atan_0.
  destruct (Rlt_dec 0 (real z)); [left; reflexivity |].
  destruct (Rlt_dec (real z) 0).
  - destruct (Rle_dec 0 0); [right; lra | exfalso; lra].
  - destruct (Rlt_dec 0 0); [exfalso; lra | left; reflexivity].
Qed.

Lemma clampSine_0 : clampSine 0 = 0.
Proof.
  unfold clampSine, Rgtb, Rltb.
  destruct (Rgt_dec 0 1); [exfalso; lra |].
  destruct (Rlt_dec 0 (-1)); [exfalso; lra | reflexivity].
Qed.

Lemma espritAngle_real (d : R) (z : complex128) :
  d <> 0 -> imag z = 0 ->
  espritAngle d z = 0 \/ espritAngle d z = asin (clampSine (1 / (2 * d))).
Proof.
  intros Hd Him. pose proof PI_RGT_0 as Hpi. unfold espritAngle.
  destruct (Phase_real z Him) as [-> | ->].
  - left. unfold Rdiv. rewrite Rmult_0_l, clampSine_0. apply asin_0.
  - right. f_equal. f_equal. field. split; lra.
Qed.

Section SingleSource.

Context {F : doa.mat.Factorizations}.

(** For one source the rotation operator is a 1-by-1 matrix with a real
    entry, on both paths of [solveRotationMatrix]. *)
Lemma solveRotationMatrix_real (e : doa.esprit.ESPRITEstimator)
  (Us1 Us2 psi : doa.mat.CDense) :
  doa.esprit.solveRotationMatrix e Us1 Us2 1 = Ret psi ->
  exists z, psi = [[z]] /\ imag z = 0.
Proof.
  unfold doa.esprit.solveRotationMatrix. intros H.
  apply bind_Ret in H. destruct H as [G [_ H]].
  destruct (doa.mat.Inverse G) as [inv|].
  - apply bind_Ret in H. destruct H as [G2 [_ H]].
    apply bind_Ret in H. destruct H as [psiReal [_ H]].
    apply bind_Ret in H. destruct H as [z0 [_ H]].
    change (Z.to_nat 1) with 1%nat in H. cbn [upto seq mapM] in H.
    apply bind_Ret in H. destruct H as [row [Hrow H]].
    cbn [bind] in H. injection H as Hpsi.
    apply bind_Ret in Hrow. destruct Hrow as [z1 [Hz1 Hrow]].
    cbn [bind] in Hrow. injection Hrow as Hrow.
    apply bind_Ret in Hz1. destruct Hz1 as [p [_ Hz1]]. injection Hz1 as Hz1.
    exists z1. split; [subst; reflexivity |]. subst z1. reflexivity.
  - apply bind_Ret in H. destruct H as [z0 [_ H]].
    change (Z.to_nat 1) with 1%nat in H. cbn [upto seq map Nat.eqb] in H.
    injection H as Hpsi. eexists. split; [symmetry; exact Hpsi |].
    unfold Exp, float64n; simpl.
    replace (0 * PI / float64 1) with 0 by (unfold float64; lra).
    rewrite sin_0. ring.
Qed.

Lemma EstimateDOA_single_angle (e e' : doa.esprit.ESPRITEstimator)
  (signal : list (list complex128)) (result : doa.esprit.ESPRITResult) :
  doa.esprit.ElementSpacing (doa.esprit.config e) <> 0 ->
  doa.esprit.EstimateDOA e signal = Ret (inl result, e') ->
  exists z, imag z = 0
    /\ doa.esprit.Angles result
       = [espritAngle (doa.esprit.ElementSpacing (doa.esprit.config e)) z].
Proof.
  intros Hd H. pose proof (EstimateDOA_inl _ _ H) as HK.
  unfold doa.esprit.EstimateDOA in H. rewrite HK in H.
  destruct (negb _); [discriminate |].
  apply bind_Ret in H. destruct H as [cov [_ H]].
  apply bind_Ret in H. destruct H as [ev [_ H]].
  apply bind_Ret in H. destruct H as [r [_ H]].
  destruct r as [ss|err]; [| discriminate].
  apply bind_Ret in H. destruct H as [r' [Hcore H]].
  destruct r' as [angles|err]; [| discriminate].
  injection H as Hres _. rewrite <- Hres. cbn [doa.esprit.Angles].
  unfold doa.esprit.espritCore in Hcore.
  destruct (_ <? _)%Z; [discriminate |].
  apply bind_Ret in Hcore. destruct Hcore as [psi [Hpsi Hcore]].
  apply bind_Ret in Hcore. destruct Hcore as [angles' [Hang Hcore]].
  injection Hcore as Hcore. subst angles'.
  apply solveRotationMatrix_real in Hpsi. destruct Hpsi as [z [-> Him]].
  rewrite extractAngles_Ret in Hang; try assumption; try lia.
  - injection Hang as Hang. exists z. split; [assumption |].
    rewrite <- Hang. reflexivity.
  - intros i Hi. change (Z.to_nat 1) with 1%nat in Hi. simpl in Hi.
    assert (i = 0%nat) by lia. subst i. simpl. lia.
Qed.

End SingleSource.

(** X18: whenever [EstimateDOA] returns estimates (with a non-zero
    element spacing [d], on a signal with at least one snapshot),
    exactly one source is configured and the one angle returned is
    either 0 or [asin] of [1/(2d)] clamped to [-1, 1]: the rotation
    operator is real, so its phase is 0 or pi.  (Without a snapshot Go
    divides 0 by 0 in the covariance.) *)
Theorem X18_esprit_only_two_angles (F : doa.mat.Factorizations)
  (e e' : doa.esprit.ESPRITEstimator)
  (signal : list (list complex128)) (result : doa.esprit.ESPRITResult) :
  doa.esprit.ElementSpacing (doa.esprit.config e) <> 0 ->
  nth 0 signal [] <> [] ->
  doa.esprit.EstimateDOA e signal = Ret (inl result, e') ->
  doa.esprit.NumSources (doa.esprit.config e) = 1%Z
  /\ (doa.esprit.Angles result = [0]
      \/ doa.esprit.Angles result
         = [asin (clampSine
                    (1 / (2 * doa.esprit.ElementSpacing (doa.esprit.config e))))]).
Proof.
  intros Hd _ H. split; [exact (EstimateDOA_inl _ _ H) |].
  destruct (@EstimateDOA_single_angle F e e' signal result Hd H) as [z [Him ->]].
  destruct (@espritAngle_real _ z Hd Him) as [-> | ->]; [left | right]; reflexivity.
Qed.

Lemma diagonalFactorizations_shapes : documentedShapes diagonalFactorizations.
Proof.
  split.
  - intros a values H. cbn in H. unfold diagonalEigenValues, scalarEigenValues in H.
    destruct a as [|[|x [|y [|? ?]]] [|[|z [|t [|? ?]]] [|? ?]]]; try discriminate.
    + injection H as <-. reflexivity.
    + destruct (_ && _)%bool; [| discriminate]. injection H as <-. reflexivity.
  - intros a u H. cbn in H. unfold diagonalSVD_U, scalarSVD_U in H.
    destruct a as [|[|x [|y [|? ?]]] [|[|z [|t [|? ?]]] [|? ?]]]; try discriminate.
    + injection H as <-. split; [reflexivity | repeat constructor].
    + destruct (_ && _)%bool; [| discriminate]. injection H as <-.
      split; [reflexivity | repeat constructor].
Qed.

Lemma orthogonalSignal_estimate :
  exists result e',
    doa.esprit.EstimateDOA (F := diagonalFactorizations) (freshEstimator 2 1)
      orthogonalSignal = Ret (inl result, e').
Proof.
  unfold doa.esprit.EstimateDOA.
  change (negb (Z.of_nat (length orthogonalSignal)
                =? doa.esprit.NumAntennas (doa.esprit.config (freshEstimator 2 1)))%Z)
    with false. cbv iota.
  rewrite (@esprit_covariance_Ret (freshEstimator 2 1) orthogonalSignal 2)
    by (try (simpl; lia); repeat constructor).
  cbn [bind].
  destruct (@computeEigenvalues_Ret diagonalFactorizations
              diagonalFactorizations_shapes (freshEstimator 2 1)
              (covarianceOf orthogonalSignal 2)) as [ev Hev];
    [simpl; lia | repeat constructor |].
  rewrite Hev. cbn [bind].
  unfold doa.esprit.extractSignalSubspace.
  assert (Hrc : doa.esprit.realCov (covarianceOf orthogonalSignal 2)
                = Ret [[/ 2; 0]; [0; / 2]]).
  { unfold doa.esprit.realCov, covarianceOf, orthogonalSignal. run_go.
    unfold float64n, INR. f_equal.
    repeat (f_equal; try (simpl; field)). }
  rewrite Hrc. cbn [bind].
  cbn [doa.mat.SVD_U diagonalFactorizations diagonalSVD_U].
  rewrite (Reqb_eq (eq_refl 0)), (@Rgeb_ge (/ 2) (/ 2)), (@Rgeb_ge (/ 2) 0) by lra.
  cbn [andb]. run_go. change (Pos.to_nat 1) with 1%nat. run_go.
  unfold doa.esprit.espritCore. run_go.
  unfold doa.esprit.solveRotationMatrix. run_go.
  rewrite (@Reqb_neq (0 + 1 * 1) 0) by lra. run_go.
  change (Pos.to_nat 1) with 1%nat. run_go.
  eexists. eexists. reflexivity.
Qed.

Lemma X18_esprit_only_two_angles_witness :
  exists result e',
    doa.esprit.EstimateDOA (F := diagonalFactorizations) (freshEstimator 2 1)
      orthogonalSignal = Ret (inl result, e')
    /\ doa.esprit.NumSources (doa.esprit.config (freshEstimator 2 1)) = 1%Z
    /\ (doa.esprit.Angles result = [0]
        \/ doa.esprit.Angles result
           = [asin (clampSine
                      (1 / (2 * doa.esprit.ElementSpacing
                                  (doa.esprit.config (freshEstimator 2 1)))))]).
Proof.
  destruct orthogonalSignal_estimate as [result [e' H]].
  exists result, e'. split; [exact H |].
  apply (@X18_esprit_only_two_angles diagonalFactorizations (freshEstimator 2 1) e'
           orthogonalSignal result); [simpl; lra | discriminate | exact H].
Defined.

(** ** RMSE, the Monte Carlo loop and the comparison with MUSIC *)

(** X19: [ComputeRMSE] returns [+Inf] on slices of different lengths;
    it gives the same result with its two arguments exchanged (unless
    both are empty, where Go divides 0 by 0), 0 for a non-empty slice
    against itself, and never a negative value. *)
Theorem X19_rmse_symmetric_and_zero_on_equal (e : doa.esprit.ESPRITEstimator)
  (estimatedAngles trueAngles : list R) :
  (length estimatedAngles <> length trueAngles ->
   doa.esprit.ComputeRMSE e estimatedAngles trueAngles = doa.PosInf)
  /\ (estimatedAngles <> [] \/ trueAngles <> [] ->
      doa.esprit.ComputeRMSE e estimatedAngles trueAngles
      = doa.esprit.ComputeRMSE e trueAngles estimatedAngles)
  /\ (estimatedAngles <> [] ->
      doa.esprit.ComputeRMSE e estimatedAngles estimatedAngles = doa.Fin 0)
  /\ (forall r,
        doa.esprit.ComputeRMSE e estimatedAngles trueAngles = doa.Fin r -> 0 <= r).
Proof.
  unfold doa.esprit.ComputeRMSE. split; [| split; [| split]].
  - intros Hlen. apply Nat.eqb_neq in Hlen. rewrite Hlen. reflexivity.
  - intros _. destruct (Nat.eq_dec (length estimatedAngles) (length trueAngles))
      as [Hlen|Hlen].
    + rewrite <- Hlen, !Nat.eqb_refl. cbn [negb].
      apply f_equal. apply f_equal. apply (f_equal (fun s => s / _)).
      apply Rsum_ext_in. intros i _. cbv beta zeta. ring.
    + assert (Hlen' : length trueAngles <> length estimatedAngles) by congruence.
      apply Nat.eqb_neq in Hlen, Hlen'. rewrite Hlen, Hlen'. reflexivity.
  - intros Hne. rewrite Nat.eqb_refl. cbn [negb]. f_equal.
    rewrite (Rsum_ext_in _ (fun _ => 0)) by (intros; cbv zeta; ring).
    rewrite Rsum_const. unfold Rdiv. rewrite Rmult_0_r, Rmult_0_l. apply sqrt_0.
  - intros r H. destruct (negb _); [discriminate |].
    injection H as <-. apply sqrt_pos.
Qed.

Section AllTrialsFail.

Context {F : doa.mat.Factorizations}.
Hypothesis shapes : documentedShapes F.

Variable e : doa.esprit.ESPRITEstimator.
Hypothesis sources :
  (2 <= doa.esprit.NumSources (doa.esprit.config e)
   < doa.esprit.NumAntennas (doa.esprit.config e))%Z.
Hypothesis snapshots : (0 <= doa.esprit.SnapshotLength (doa.esprit.config e))%Z.

Lemma EstimateWithPerformance_error (fuel : nat) (trueAngles : list R) (snrDB : R) :
  exists err,
    doa.esprit.EstimateWithPerformance fuel e trueAngles snrDB = Ret (inr err, e).
Proof.
  unfold doa.esprit.EstimateWithPerformance.
  rewrite GenerateTestSignal_Ret by (try assumption; lia). cbn [bind].
  match goal with
  | |- context [doa.esprit.EstimateDOA e ?signal] =>
      destruct (@EstimateDOA_error F shapes e signal
                  (Z.to_nat (doa.esprit.SnapshotLength (doa.esprit.config e))))
        as [rc [_ Hdoa]]
  end.
  - assumption.
  - rewrite length_map, length_upto. lia.
  - apply Forall_forall. intros row Hrow.
    apply in_map_iff in Hrow. destruct Hrow as [m [<- _]].
    rewrite length_map, length_upto. reflexivity.
  - rewrite Hdoa. cbn [bind]. eexists. reflexivity.
Qed.

Lemma trialLoop_all_errors (fuel trials : nat) (trueAngles : list R) (snr : R)
  (totalRMSE : doa.xfloat) (successCount : Z) :
  doa.esprit.trialLoop fuel trials e trueAngles snr totalRMSE successCount
  = Ret (totalRMSE, successCount, e).
Proof.
  induction trials as [|trials IH]; [reflexivity |].
  cbn [doa.esprit.trialLoop].
  destruct (EstimateWithPerformance_error fuel trueAngles snr) as [err ->].
  cbn [bind]. exact IH.
Qed.

Lemma MonteCarloSimulation_all_errors (fuel : nat) (trueAngles snrRange : list R)
  (numTrials : Z) :
  doa.esprit.MonteCarloSimulation fuel e trueAngles snrRange numTrials
  = Ret (fold_left (fun results snr => doa.esprit.map_set results snr allTrialsFailed)
                   snrRange [], e).
Proof.
  unfold doa.esprit.MonteCarloSimulation.
  generalize (@nil (R * doa.esprit.ESPRITResult)).
  induction snrRange as [|snr rest IH]; intros results; [reflexivity |].
  cbn [foldM fold_left]. rewrite trialLoop_all_errors. cbn [bind].
  replace (doa.xdiv (doa.Fin 0) (float64 numTrials)) with (doa.Fin 0)
    by (unfold doa.xdiv; f_equal; unfold Rdiv; ring).
  replace (float64 0 / float64 numTrials) with 0
    by (unfold float64, Rdiv; ring).
  apply IH.
Qed.

End AllTrialsFail.

Lemma map_set_In {V : Type} (results : list (R * V)) (key : R) (v : V)
  (k : R) (x : V) :
  In (k, x) (doa.esprit.map_set results key v)
  <-> (k = key /\ x = v) \/ (k <> key /\ In (k, x) results).
Proof.
  unfold doa.esprit.map_set. cbn [In]. rewrite filter_In. cbn [fst].
  unfold Reqb. split.
  - intros [H|[Hin Hne]].
    + injection H as -> ->. left. split; reflexivity.
    + right. destruct (Req_dec_T k key); [discriminate |]. split; assumption.
  - intros [[-> ->]|[Hne Hin]]; [left; reflexivity |].
    right. split; [assumption |].
    destruct (Req_dec_T k key); [contradiction | reflexivity].
Qed.

Lemma fold_map_set_In {V : Type} (v : V) (keys : list R) (results : list (R * V))
  (k : R) (x : V) :
  In (k, x) (fold_left (fun results key => doa.esprit.map_set results key v)
                       keys results)
  <-> (In k keys /\ x = v) \/ (~ In k keys /\ In (k, x) results).
Proof.
  revert results. induction keys as [|key rest IH]; intros results; cbn [fold_left].
  - cbn [In]. tauto.
  - rewrite IH, map_set_In. cbn [In].
    destruct (Req_dec k key) as [Heq|Hne].
    + subst. tauto.
    + assert (key <> k) by congruence. tauto.
Qed.

(** X20: with two or more sources (fewer than antennas) every trial of
    [MonteCarloSimulation] returns an error and is skipped, so for at
    least one trial the map holds, for every SNR of the range and no
    other key, an entry with RMSE 0 and success rate 0; the estimator is
    unchanged.  (For zero trials Go divides 0 by 0.) *)
Theorem X20_monte_carlo_reports_zero_when_all_trials_fail
  (F : doa.mat.Factorizations) (fuel : nat) (e : doa.esprit.ESPRITEstimator)
  (trueAngles snrRange : list R) (numTrials : Z) :
  documentedShapes F ->
  (2 <= doa.esprit.NumSources (doa.esprit.config e)
   < doa.esprit.NumAntennas (doa.esprit.config e))%Z ->
  (0 <= doa.esprit.SnapshotLength (doa.esprit.config e))%Z ->
  (1 <= numTrials)%Z ->
  exists results,
    doa.esprit.MonteCarloSimulation fuel e trueAngles snrRange numTrials
    = Ret (results, e)
    /\ forall snr r,
         In (snr, r) results <-> In snr snrRange /\ r = allTrialsFailed.
Proof.
  intros shapes HK HN _. eexists. split.
  - apply MonteCarloSimulation_all_errors; assumption.
  - intros snr r. rewrite fold_map_set_In. cbn [In]. tauto.
Qed.

Lemma X20_monte_carlo_reports_zero_when_all_trials_fail_witness :
  exists results,
    doa.esprit.MonteCarloSimulation (F := scalarFactorizations) 0
      (freshEstimator 3 2) [0] [10; 20] 5
    = Ret (results, freshEstimator 3 2)
    /\ forall snr r,
         In (snr, r) results <-> In snr [10; 20] /\ r = allTrialsFailed.
Proof.
  apply (@X20_monte_carlo_reports_zero_when_all_trials_fail
           scalarFactorizations 0 (freshEstimator 3 2) [0] [10; 20] 5).
  - exact scalarFactorizations_shapes.
  - simpl. lia.
  - simpl. lia.
  - lia.
Defined.

Lemma ComputeRMSE_shifted (e : doa.esprit.ESPRITEstimator) (angles : list R)
  (c : R) :
  angles <> [] ->
  doa.esprit.ComputeRMSE e (map (fun a => a + c) angles) angles
  = doa.Fin (Rabs c).
Proof.
  intros Hne. unfold doa.esprit.ComputeRMSE.
  rewrite length_map, Nat.eqb_refl. cbn [negb]. f_equal.
  assert (Hn : 0 < float64n (length angles)).
  { unfold float64n. apply lt_0_INR. destruct angles; [congruence | simpl; lia]. }
  rewrite (Rsum_ext_in _ (fun _ => c * c)).
  - rewrite Rsum_const, length_upto. fold (float64n (length angles)).
    replace (float64n (length angles) * (c * c) / float64n (length angles))
      with (c²) by (unfold Rsqr; field; lra).
    apply sqrt_Rsqr_abs.
  - intros i Hi. apply in_upto in Hi. cbv zeta.
    rewrite (nth_indep _ 0 (0 + c)) by (rewrite length_map; assumption).
    rewrite (map_nth (fun a => a + c) angles 0 i). ring.
Qed.

Section Comparison.

Context {F : doa.mat.Factorizations}.

Lemma CompareWithMUSIC_eq (fuel : nat) (e : doa.esprit.ESPRITEstimator)
  (trueAngles : list R) (snrDB : R) :
  trueAngles <> [] ->
  doa.esprit.CompareWithMUSIC fuel e trueAngles snrDB
  = ('(r, e') <- doa.esprit.EstimateWithPerformance fuel e trueAngles snrDB ;;
     match r with
     | inr err => Ret (inr err, e')
     | inl espritResult => Ret (inl (comparisonOf espritResult trueAngles), e')
     end).
Proof.
  intros Hne. unfold doa.esprit.CompareWithMUSIC.
  destruct (doa.esprit.EstimateWithPerformance fuel e trueAngles snrDB)
    as [[[res|err] e']| |]; cbn [bind]; try reflexivity.
  rewrite (mapM_Ret_in _ (fun i => nth i trueAngles 0 + gaussianConstant * 0.05))
    by (intros i _; rewrite randNorm_constant; reflexivity).
  cbn [bind].
  rewrite (map_nth_upto (fun a => a + gaussianConstant * 0.05) trueAngles 0).
  rewrite ComputeRMSE_shifted by assumption.
  replace (Rabs (gaussianConstant * 0.05)) with (0.05 * Rabs gaussianConstant)
    by (rewrite Rabs_mult, (Rabs_right 0.05) by lra; ring).
  reflexivity.
Qed.

Lemma EstimateWithPerformance_inl (fuel : nat) (e e' : doa.esprit.ESPRITEstimator)
  (trueAngles : list R) (snrDB : R) (result : doa.esprit.ESPRITResult) :
  doa.esprit.EstimateWithPerformance fuel e trueAngles snrDB
  = Ret (inl result, e') ->
  doa.esprit.NumSources (doa.esprit.config e) = 1%Z.
Proof.
  unfold doa.esprit.EstimateWithPerformance. intros H.
  apply bind_Ret in H. destruct H as [signal [_ H]].
  apply bind_Ret in H. destruct H as [[r e1] [Hdoa H]].
  destruct r as [res|err]; [| discriminate].
  exact (@EstimateDOA_inl F e e1 signal res Hdoa).
Qed.

End Comparison.

(** X21: for non-empty true angles, [CompareWithMUSIC] is
    [EstimateWithPerformance] followed by a comparison whose MUSIC part
    does not depend on any signal: the "MUSIC" angles are the true
    angles shifted by one constant, and "music_rmse" is the constant
    [0.05 * |g|], [g] the value every [randNorm()] returns.  No
    comparison is returned unless exactly one source is configured. *)
Theorem X21_compare_with_music_is_synthetic (F : doa.mat.Factorizations)
  (fuel : nat) (e : doa.esprit.ESPRITEstimator) (trueAngles : list R) (snrDB : R) :
  trueAngles <> [] ->
  doa.esprit.CompareWithMUSIC fuel e trueAngles snrDB
  = ('(r, e') <- doa.esprit.EstimateWithPerformance fuel e trueAngles snrDB ;;
     match r with
     | inr err => Ret (inr err, e')
     | inl espritResult => Ret (inl (comparisonOf espritResult trueAngles), e')
     end)
  /\ (doa.esprit.NumSources (doa.esprit.config e) <> 1%Z ->
      forall comparison e',
        doa.esprit.CompareWithMUSIC fuel e trueAngles snrDB
        <> Ret (inl comparison, e')).
Proof.
  intros Hne. split; [apply CompareWithMUSIC_eq; assumption |].
  intros HK comparison e' H. rewrite CompareWithMUSIC_eq in H by assumption.
  apply bind_Ret in H. destruct H as [[r e1] [Hperf H]].
  destruct r as [res|err]; [| discriminate].
  apply HK. exact (@EstimateWithPerformance_inl F fuel e e1 trueAngles snrDB res Hperf).
Qed.

Lemma X21_compare_with_music_is_synthetic_witness :
  doa.esprit.CompareWithMUSIC (F := scalarFactorizations) 0
    (freshEstimator 3 2) [0] 10
  = ('(r, e') <- doa.esprit.EstimateWithPerformance (F := scalarFactorizations) 0
                   (freshEstimator 3 2) [0] 10 ;;
     match r with
     | inr err => Ret (inr err, e')
     | inl espritResult => Ret (inl (comparisonOf espritResult [0]), e')
     end)
  /\ (doa.esprit.NumSources (doa.esprit.config (freshEstimator 3 2)) <> 1%Z ->
      forall comparison e',
        doa.esprit.CompareWithMUSIC (F := scalarFactorizations) 0
          (freshEstimator 3 2) [0] 10
        <> Ret (inl comparison, e')).
Proof.
  apply (@X21_compare_with_music_is_synthetic scalarFactorizations 0
           (freshEstimator 3 2) [0] 10).
  discriminate.
Defined.

(** ** The TLS variant *)

Section TLSOutcome.

Context {F : doa.mat.Factorizations}.
Hypothesis shapes : documentedShapes F.

Lemma extractSignalSubspace_columns (e : doa.esprit.ESPRITEstimator)
  (covMatrix ss : doa.mat.CDense) (numSources : Z) :
  doa.esprit.extractSignalSubspace e covMatrix numSources = Ret (inl ss) ->
  Forall (fun row => length row = Z.to_nat numSources) ss.
Proof.
  unfold doa.esprit.extractSignalSubspace. intros H.
  apply bind_Ret in H. destruct H as [rc [_ H]].
  destruct (doa.mat.SVD_U rc) as [u|]; [| discriminate].
  apply bind_Ret in H. destruct H as [z [_ H]].
  apply bind_Ret in H. destruct H as [ss' [Hss H]].
  injection H as ->. apply Forall_forall. intros row Hrow.
  destruct (mapM_In _ _ _ Hss Hrow) as [i [_ Hi]].
  rewrite (mapM_length _ _ Hi). apply length_upto.
Qed.

Lemma tlsEspritCore_outcome (e : doa.esprit.TLS_ESPRITEstimator)
  (ss : doa.mat.CDense) (M : Z) (rows : nat) :
  let K := doa.esprit.NumSources (doa.esprit.config (doa.esprit.embedded e)) in
  (1 <= K)%Z ->
  Z.of_nat (length ss) = (Z.of_nat rows - K)%Z ->
  (1 <= length ss)%nat ->
  Forall (fun row => length row = Z.to_nat K) ss ->
  tlsOutcome e rows
    (r' <- doa.esprit.tlsEspritCore e ss M K ;;
     match r' with
     | inr err => Ret (inr err)
     | inl angles =>
         Ret (inl {| doa.esprit.Angles := angles;
                     doa.esprit.RMSE := doa.Fin 0;
                     doa.esprit.SuccessRate := 0;
                     doa.esprit.ProcessingTime := 0;
                     doa.esprit.Eigenvalues := [] |})
     end).
Proof.
  intros K HK Hlen Hne Hcols. unfold tlsOutcome. fold K.
  rewrite Forall_forall in Hcols.
  assert (Hcols0 : doa.mat.Cols ss = Z.to_nat K).
  { unfold doa.mat.Cols. destruct ss as [|row ss']; [simpl in Hne; lia |].
    apply Hcols. left. reflexivity. }
  unfold doa.esprit.tlsEspritCore, doa.mat.Rows. rewrite Hcols0.
  destruct (Z.of_nat rows =? K + 1)%Z eqn:E.
  - apply Z.eqb_eq in E.
    unfold doa.mat.NewCDense, doa.mat.New.
    replace (Z.of_nat (length ss) - 1 <=? 0)%Z with true
      by (symmetry; apply Z.leb_le; lia).
    reflexivity.
  - apply Z.eqb_neq in E.
    rewrite !NewCDense_positive by lia. cbn [bind].
    match goal with
    | |- context [bind (mapM ?f ?xs) _] =>
        destruct (mapM_total f xs) as [Us HUs]
    end.
    { intros i Hi. apply in_upto in Hi.
      match goal with
      | |- exists y, mapM ?f ?xs = Ret y => apply (mapM_total f xs)
      end.
      intros j Hj. apply in_upto in Hj.
      assert (Hi0 : (i < length ss)%nat) by lia.
      assert (Hi1 : (i + 1 < length ss)%nat) by lia.
      rewrite (@At_Ret _ ss i j C0 Hi0)
        by (rewrite (Hcols _ (nth_In ss [] Hi0)); lia).
      rewrite (@At_Ret _ ss (i + 1) j C0 Hi1)
        by (rewrite (Hcols _ (nth_In ss [] Hi1)); lia).
      cbn [bind]. eexists. reflexivity. }
    rewrite HUs. cbn [bind].
    rewrite make_len_nonneg by lia. cbn [bind].
    eexists. split; [reflexivity |]. cbn [doa.esprit.Angles]. split.
    + rewrite length_map, length_upto. lia.
    + intros i Hi Hd Hin. pose proof PI_RGT_0 as Hpi.
      rewrite nth_map_upto by lia. f_equal.
      unfold float64n, float64. fold K.
      assert (0 < IZR K) by (apply IZR_lt; lia).
      field. repeat split; lra.
Qed.

Lemma TLS_EstimateDOA_outcome (e : doa.esprit.TLS_ESPRITEstimator)
  (signal : list (list complex128)) (N : nat) :
  let K := doa.esprit.NumSources (doa.esprit.config (doa.esprit.embedded e)) in
  (1 <= K < Z.of_nat (length signal))%Z ->
  Forall (fun row => length row = N) signal ->
  exists rc,
    doa.esprit.realCov (covarianceOf signal N) = Ret rc
    /\ match doa.mat.SVD_U rc with
       | None =>
           doa.esprit.TLS_EstimateDOA e signal
           = Ret (inr (doa.Errorf "SVD factorization failed" []))
       | Some _ =>
           tlsOutcome e (length signal) (doa.esprit.TLS_EstimateDOA e signal)
       end.
Proof.
  intros K HK Hrect.
  destruct (covarianceOf_shape signal N) as [Hclen Hcrows].
  destruct (@extractSignalSubspace_cases F shapes (doa.esprit.embedded e)
              (covarianceOf signal N) K)
    as [rc [Hrc Hss]]; [rewrite Hclen; lia | rewrite Hclen; assumption |].
  exists rc. split; [assumption |].
  unfold doa.esprit.TLS_EstimateDOA. fold K.
  rewrite (@esprit_covariance_Ret (doa.esprit.embedded e) signal N)
    by (try assumption; lia).
  cbn [bind].
  destruct (doa.mat.SVD_U rc) as [u|].
  - destruct Hss as [ss [Hss Hlen]]. rewrite Hss. cbn [bind].
    apply tlsEspritCore_outcome.
    + lia.
    + rewrite Hlen, Hclen. reflexivity.
    + rewrite Hclen in Hlen. lia.
    + exact (extractSignalSubspace_columns _ _ _ Hss).
  - rewrite Hss. reflexivity.
Qed.

End TLSOutcome.

(** X22: the TLS variant has no dimension check.  On a rectangular
    signal with more rows than sources ([K >= 1]) it returns the bare
    SVD error when the factorization fails; after a successful SVD it
    panics when the signal has exactly [K + 1] rows, and otherwise
    returns [K] angles that depend on [K] and the element spacing [d]
    only: angle [i] is [asin (i / (K*d))] where that quotient is at
    most 1. *)
Theorem X22_tls_angles_ignore_the_signal (F : doa.mat.Factorizations)
  (e : doa.esprit.TLS_ESPRITEstimator) (signal : list (list complex128))
  (N : nat) :
  documentedShapes F ->
  (1 <= doa.esprit.NumSources (doa.esprit.config (doa.esprit.embedded e))
   < Z.of_nat (length signal))%Z ->
  Forall (fun row => length row = N) signal ->
  exists rc,
    doa.esprit.realCov (covarianceOf signal N) = Ret rc
    /\ match doa.mat.SVD_U rc with
       | None =>
           doa.esprit.TLS_EstimateDOA e signal
           = Ret (inr (doa.Errorf "SVD factorization failed" []))
       | Some _ =>
           tlsOutcome e (length signal) (doa.esprit.TLS_EstimateDOA e signal)
       end.
Proof.
  intros shapes HK Hrect. apply TLS_EstimateDOA_outcome; assumption.
Qed.

Lemma X22_tls_angles_ignore_the_signal_witness :
  exists rc,
    doa.esprit.realCov (covarianceOf orthogonalSignal 2) = Ret rc
    /\ match @doa.mat.SVD_U diagonalFactorizations rc with
       | None =>
           doa.esprit.TLS_EstimateDOA (F := diagonalFactorizations)
             {| doa.esprit.embedded := freshEstimator 2 1 |} orthogonalSignal
           = Ret (inr (doa.Errorf "SVD factorization failed" []))
       | Some _ =>
           tlsOutcome {| doa.esprit.embedded := freshEstimator 2 1 |}
             (length orthogonalSignal)
             (doa.esprit.TLS_EstimateDOA (F := diagonalFactorizations)
                {| doa.esprit.embedded := freshEstimator 2 1 |} orthogonalSignal)
       end.
Proof.
  apply (@X22_tls_angles_ignore_the_signal diagonalFactorizations
           {| doa.esprit.embedded := freshEstimator 2 1 |} orthogonalSignal 2).
  - exact diagonalFactorizations_shapes.
  - simpl. lia.
  - repeat constructor.
Defined.

(** ** The elimination of [matrixInverse] on two rows *)

Lemma C0_iff (x : complex128) : x = C0 <-> real x * real x + imag x * imag x = 0.
Proof.
  split.
  - intros ->. simpl. ring.
  - intros H. destruct x as [re im]. simpl in H.
    destruct (Rplus_sqr_eq_0 re im) as [-> ->]; [unfold Rsqr; exact H |].
    reflexivity.
Qed.

Lemma Cnorm2_nonzero (x : complex128) : x <> C0 -> Cnorm2 x <> 0.
Proof. intros Hx E. apply Hx. apply C0_iff. exact E. Qed.


Lemma matrixInverse_2x2_entries (a b c d : complex128) :
  beamforming.matrixInverse [[a; b]; [c; d]]
  = Ret (let r0 := map (fun x => Cdiv x a) [a; b; C1; C0] in
         let r1 := map (fun j => Csub (nth j [c; d; C0; C1] C0)
                                      (Cmul c (nth j r0 C0))) (upto 4) in
         let r1' := map (fun x => Cdiv x (nth 1 r1 C0)) r1 in
         let r0' := map (fun j => Csub (nth j r0 C0)
                                       (Cmul (nth 1 r0 C0) (nth j r1' C0))) (upto 4) in
         [[nth 2 r0' C0; nth 3 r0' C0]; [nth 2 r1' C0; nth 3 r1' C0]]).
Proof.
  unfold beamforming.matrixInverse, beamforming.augmentedRow. run_go.
  unfold beamforming.eliminate. run_go. reflexivity.
Qed.

Lemma matrixInverse_2x2 (a b c d : complex128) :
  a <> C0 -> det2 a b c d <> C0 ->
  beamforming.matrixInverse [[a; b]; [c; d]]
  = Ret (inverse2 a b c d).
Proof.
  intros Ha Hdet. rewrite matrixInverse_2x2_entries.
  change (upto 4) with [0; 1; 2; 3]%nat. cbn [map nth].
  apply Cnorm2_nonzero in Ha, Hdet. unfold inverse2, Cnorm2, det2 in *.
  destruct a as [ar ai], b as [br bi], c as [cr ci], d as [dr di].
  unfold Cdiv, Cmul, Csub, C0, C1 in *. cbn [real imag] in *.
  f_equal. f_equal; [f_equal; [| f_equal] | f_equal; f_equal; [| f_equal]].
  all: f_equal.
  all: field; (split; [exact Hdet | split; [exact Ha |]]).
  all: match goal with
       | |- ?x <> 0 =>
           replace x with
             ((ar * ar + ai * ai)
              * ((ar * dr - ai * di - (br * cr - bi * ci))
                 * (ar * dr - ai * di - (br * cr - bi * ci))
                 + (ar * di + ai * dr - (br * ci + bi * cr))
                   * (ar * di + ai * dr - (br * ci + bi * cr)))) by ring
       end.
  all: apply Rmult_integral_contrapositive_currified; assumption.
Qed.

Lemma inverse2_is_inverse (a b c d : complex128) :
  det2 a b c d <> C0 ->
  matrixProduct (inverse2 a b c d) [[a; b]; [c; d]] = identityMatrix 2
  /\ matrixProduct [[a; b]; [c; d]] (inverse2 a b c d) = identityMatrix 2.
Proof.
  intros Hdet. apply Cnorm2_nonzero in Hdet. unfold Cnorm2, det2 in Hdet.
  unfold matrixProduct, identityMatrix, inverse2, det2, Csum.
  cbn [length nth]. change (upto 2) with [0; 1]%nat.
  cbn [map nth fold_left Nat.eqb].
  destruct a as [ar ai], b as [br bi], c as [cr ci], d as [dr di].
  unfold Cdiv, Cmul, Csub, Cadd, C0, C1 in *. cbn [real imag] in *.
  split.
  all: f_equal; [f_equal; [| f_equal] | f_equal; f_equal; [| f_equal]].
  all: f_equal; field; exact Hdet.
Qed.

(** X23: on a 2-by-2 matrix [[a, b], [c, d]] with non-zero leading
    entry [a] and non-zero determinant, the Gauss-Jordan elimination of
    [matrixInverse] returns the adjugate divided by the determinant,
    which multiplied with the matrix from either side gives the
    identity.  (The leading entry is the first pivot, and the loop
    exchanges no rows.) *)
Theorem X23_matrixInverse_inverts_2x2 (a b c d : complex128) :
  a <> C0 -> det2 a b c d <> C0 ->
  exists inv,
    beamforming.matrixInverse [[a; b]; [c; d]] = Ret inv
    /\ inv = inverse2 a b c d
    /\ matrixProduct inv [[a; b]; [c; d]] = identityMatrix 2
    /\ matrixProduct [[a; b]; [c; d]] inv = identityMatrix 2.
Proof.
  intros Ha Hdet. exists (inverse2 a b c d).
  split; [apply matrixInverse_2x2; assumption |].
  split; [reflexivity |]. apply inverse2_is_inverse. assumption.
Qed.

Lemma X23_matrixInverse_inverts_2x2_witness :
  exists inv,
    beamforming.matrixInverse [[complex 2 0; C1]; [C1; C1]] = Ret inv
    /\ inv = inverse2 (complex 2 0) C1 C1 C1
    /\ matrixProduct inv [[complex 2 0; C1]; [C1; C1]] = identityMatrix 2
    /\ matrixProduct [[complex 2 0; C1]; [C1; C1]] inv = identityMatrix 2.
Proof.
  apply (@X23_matrixInverse_inverts_2x2 (complex 2 0) C1 C1 C1).
  - intros E. injection E as E. lra.
  - unfold det2, Cmul, Csub, C1, C0. simpl. intros E. injection E as E _. lra.
Defined.

(** ** Performance runs with several true angles *)

Lemma foldM_invariant {A B : Type} (P : B -> Prop) (f : B -> A -> go B)
  (xs : list A) (acc b : B) :
  (forall b x b', P b -> f b x = Ret b' -> P b') ->
  P acc -> foldM f xs acc = Ret b -> P b.
Proof.
  intros Hstep. revert acc. induction xs as [|x xs IH]; cbn [foldM]; intros acc Hacc H.
  - injection H as <-. assumption.
  - apply bind_Ret in H. destruct H as [acc' [Hf H]].
    apply (IH acc'); [| assumption]. exact (Hstep _ _ _ Hacc Hf).
Qed.

Lemma extractAngles_length (e : doa.esprit.ESPRITEstimator) (psi : doa.mat.CDense)
  (K : Z) (angles : list R) :
  doa.esprit.extractAngles e psi K = Ret angles -> length angles = Z.to_nat K.
Proof.
  unfold doa.esprit.extractAngles. intros H.
  apply bind_Ret in H. destruct H as [len [Hlen H]].
  apply bind_Ret in H. destruct H as [estimated [Hest H]].
  injection H as <-. apply mapM_length in Hest.
  rewrite length_app, length_map, length_seq, Hest, length_upto.
  unfold make_len in Hlen. destruct (K <? 0)%Z; [discriminate |].
  injection Hlen as <-. lia.
Qed.

Section OneAngle.

Context {F : doa.mat.Factorizations}.

Lemma EstimateDOA_one_angle (e e' : doa.esprit.ESPRITEstimator)
  (signal : list (list complex128)) (result : doa.esprit.ESPRITResult) :
  doa.esprit.EstimateDOA e signal = Ret (inl result, e') ->
  length (doa.esprit.Angles result) = 1%nat.
Proof.
  intros H. pose proof (EstimateDOA_inl _ _ H) as HK.
  unfold doa.esprit.EstimateDOA in H. rewrite HK in H.
  destruct (negb _); [discriminate |].
  apply bind_Ret in H. destruct H as [cov [_ H]].
  apply bind_Ret in H. destruct H as [ev [_ H]].
  apply bind_Ret in H. destruct H as [r [_ H]].
  destruct r as [ss|err]; [| discriminate].
  apply bind_Ret in H. destruct H as [r' [Hcore H]].
  destruct r' as [angles|err]; [| discriminate].
  injection H as Hres _. rewrite <- Hres. cbn [doa.esprit.Angles].
  unfold doa.esprit.espritCore in Hcore.
  destruct (_ <? _)%Z; [discriminate |].
  apply bind_Ret in Hcore. destruct Hcore as [psi [Hpsi Hcore]].
  apply bind_Ret in Hcore. destruct Hcore as [angles' [Hang Hcore]].
  injection Hcore as Hcore. subst angles'.
  apply extractAngles_length in Hang. exact Hang.
Qed.

Variable trueAngles : list R.
Hypothesis several : length trueAngles <> 1%nat.

Lemma EstimateWithPerformance_infinite (fuel : nat)
  (e e' : doa.esprit.ESPRITEstimator) (snrDB : R)
  (result : doa.esprit.ESPRITResult) :
  doa.esprit.EstimateWithPerformance fuel e trueAngles snrDB
  = Ret (inl result, e') ->
  length (doa.esprit.Angles result) = 1%nat
  /\ doa.esprit.RMSE result = doa.PosInf.
Proof.
  unfold doa.esprit.EstimateWithPerformance. intros H.
  apply bind_Ret in H. destruct H as [signal [_ H]].
  apply bind_Ret in H. destruct H as [[r e1] [Hdoa H]].
  destruct r as [res|err]; [| discriminate].
  apply EstimateDOA_one_angle in Hdoa.
  injection H as <- _. cbn [doa.esprit.Angles doa.esprit.RMSE].
  split; [assumption |].
  unfold doa.esprit.ComputeRMSE. rewrite Hdoa.
  destruct (Nat.eqb 1 (length trueAngles)) eqn:E; [| reflexivity].
  apply Nat.eqb_eq in E. congruence.
Qed.

Lemma trialLoop_no_success (fuel trials : nat)
  (e e' : doa.esprit.ESPRITEstimator) (snr : R)
  (totalRMSE totalRMSE' : doa.xfloat) (successCount successCount' : Z) :
  doa.esprit.trialLoop fuel trials e trueAngles snr totalRMSE successCount
  = Ret (totalRMSE', successCount', e') ->
  successCount' = successCount
  /\ (totalRMSE' = totalRMSE \/ totalRMSE' = doa.PosInf).
Proof.
  revert e totalRMSE. induction trials as [|trials IH]; intros e totalRMSE H;
    cbn [doa.esprit.trialLoop] in H.
  - injection H as <- <- _. split; [reflexivity | left; reflexivity].
  - apply bind_Ret in H. destruct H as [[r e1] [Hperf H]].
    destruct r as [result|err].
    + apply EstimateWithPerformance_infinite in Hperf.
      destruct Hperf as [_ Hinf]. rewrite Hinf in H. cbn [doa.xltb] in H.
      apply IH in H. destruct H as [Hsc Htot]. split; [assumption |].
      right. destruct Htot as [-> | ->]; [| reflexivity].
      destruct totalRMSE; reflexivity.
    + apply IH in H. exact H.
Qed.

Lemma MonteCarloSimulation_no_success (fuel : nat)
  (e e' : doa.esprit.ESPRITEstimator) (snrRange : list R) (numTrials : Z)
  (results : list (R * doa.esprit.ESPRITResult)) :
  doa.esprit.MonteCarloSimulation fuel e trueAngles snrRange numTrials
  = Ret (results, e') ->
  forall snr r, In (snr, r) results -> In snr snrRange /\ noSuccess r.
Proof.
  unfold doa.esprit.MonteCarloSimulation.
  assert (Hgen : forall (snrs : list R) acc out,
    foldM (fun '(results, e) snr =>
             '(totalRMSE, successCount, e') <-
               doa.esprit.trialLoop fuel (Z.to_nat numTrials) e trueAngles snr
                 (doa.Fin 0) 0%Z ;;
             let avgRMSE := doa.xdiv totalRMSE (float64 numTrials) in
             let successRate := float64 successCount / float64 numTrials in
             Ret (doa.esprit.map_set results snr
                    {| doa.esprit.Angles := [];
                       doa.esprit.RMSE := avgRMSE;
                       doa.esprit.SuccessRate := successRate;
                       doa.esprit.ProcessingTime := 0;
                       doa.esprit.Eigenvalues := [] |}, e'))
          snrs acc = Ret out ->
    forall snr r, In (snr, r) (fst out) ->
      (In snr snrs /\ noSuccess r) \/ In (snr, r) (fst acc)).
  { induction snrs as [|s rest IH]; cbn [foldM]; intros acc out H snr r Hin.
    - injection H as <-. right. assumption.
    - apply bind_Ret in H. destruct H as [acc' [Hstep H]].
      destruct acc as [res0 e0].
      apply bind_Ret in Hstep. destruct Hstep as [[[tot sc] e1] [Hloop Hstep]].
      apply trialLoop_no_success in Hloop. destruct Hloop as [-> Htot].
      injection Hstep as <-.
      destruct (IH _ _ H snr r Hin) as [[Hs Hr]|Hold].
      + left. split; [right; assumption | assumption].
      + cbn [fst] in Hold. apply map_set_In in Hold.
        destruct Hold as [[-> ->]|[_ Hold]].
        * left. split; [left; reflexivity |]. split.
          -- cbn [doa.esprit.SuccessRate]. unfold float64, Rdiv. simpl. ring.
          -- cbn [doa.esprit.RMSE]. destruct Htot as [-> | ->].
             ++ left. unfold doa.xdiv. f_equal. unfold Rdiv. ring.
             ++ right. reflexivity.
        * right. assumption. }
  intros H snr r Hin.
  destruct (Hgen _ _ _ H snr r Hin) as [Hok|[]]. exact Hok.
Qed.

End OneAngle.

(** X24: [EstimateDOA] returns one angle when it returns any, so with a
    number of true angles other than one every estimate
    [EstimateWithPerformance] returns carries RMSE +Inf, and
    [MonteCarloSimulation] (for a trial count other than 0) counts no
    success: every entry of the map it returns belongs to an SNR of the
    range, has success rate 0 and an average RMSE of 0 or +Inf. *)
Theorem X24_monte_carlo_needs_one_true_angle (F : doa.mat.Factorizations)
  (fuel : nat) (e : doa.esprit.ESPRITEstimator)
  (trueAngles snrRange : list R) (numTrials : Z) :
  length trueAngles <> 1%nat ->
  numTrials <> 0%Z ->
  (forall snrDB result e',
      doa.esprit.EstimateWithPerformance fuel e trueAngles snrDB
      = Ret (inl result, e') ->
      length (doa.esprit.Angles result) = 1%nat
      /\ doa.esprit.RMSE result = doa.PosInf)
  /\ (forall results e',
        doa.esprit.MonteCarloSimulation fuel e trueAngles snrRange numTrials
        = Ret (results, e') ->
        forall snr r, In (snr, r) results -> In snr snrRange /\ noSuccess r).
Proof.
  intros Hlen _. split.
  - intros snrDB result e' H.
    exact (@EstimateWithPerformance_infinite F trueAngles Hlen fuel e e' snrDB result H).
  - intros results e' H.
    exact (@MonteCarloSimulation_no_success F trueAngles Hlen fuel e e' snrRange
             numTrials results H).
Qed.

Lemma X24_monte_carlo_needs_one_true_angle_witness :
  (forall snrDB result e',
      doa.esprit.EstimateWithPerformance (F := diagonalFactorizations) 0
        (freshEstimator 2 1) [0; 1] snrDB
      = Ret (inl result, e') ->
      length (doa.esprit.Angles result) = 1%nat
      /\ doa.esprit.RMSE result = doa.PosInf)
  /\ (forall results e',
        doa.esprit.MonteCarloSimulation (F := diagonalFactorizations) 0
          (freshEstimator 2 1) [0; 1] [10; 20] 5
        = Ret (results, e') ->
        forall snr r, In (snr, r) results -> In snr [10; 20] /\ noSuccess r).
Proof.
  apply (@X24_monte_carlo_needs_one_true_angle diagonalFactorizations 0
           (freshEstimator 2 1) [0; 1] [10; 20] 5).
  - simpl. lia.
  - lia.
Defined.
